(** * Scoring and explanation engine of the decision-support tool

    Shallow embedding of the scoring engine ([scoring.js]: [scoreOptions],
    [applyConstraints], [calculateWeightedScores], [normalizeOptionValues],
    [calculateCriteriaStatistics], [generateCriteriaReason],
    [calculatePercentile], [formatDisplayValue]), of the helpers it imports
    ([getNestedValue], [setNestedValue], [roundToDecimals], [average]) and of
    the analysis module ([generateTradeOffAnalysis], [generateSummary],
    [calculateConfidence], [generateRecommendationReasoning]), of the
    remaining numeric and string helpers ([clamp], [median],
    [sanitizeString]), of the request validation ([validation.js]) and of
    the status code chosen by the API handler.

    Modelling choices.
    - A JavaScript number is an exact rational or [NaN].  IEEE rounding,
      overflow to [Infinity], [-0] and the string ["Infinity"] are not
      modelled.  The model agrees with the code's doubles on every
      property about order and membership (rounding is monotone) as long
      as no intermediate result overflows.  The theorems that depend on
      this carry hypotheses that bound the magnitude of the numbers
      involved or exclude ["Infinity"] strings ([tame_value]), or they
      allow for the rounding error explicitly.
    - JSON values are the inductive [jsval]; [undefined] is [None] of
      [option jsval].  Objects are association lists kept with unique keys
      in insertion order.  Objects and arrays coming from distinct JSON
      literals are never [===]-equal (reference equality).
    - Property reads see the object's own keys only.  JavaScript also finds
      the members of [Object.prototype] ([constructor], [toString],
      [__proto__], ...), so the theorems that read a path ask for the path
      to avoid these names ([plain_path]).
    - Converting an object with an own [toString] key to a number or a
      string throws a [TypeError] in JavaScript; the model reads it as
      ["[object Object]"].  The theorems that convert such values exclude
      them ([no_toString]).  Strings are ASCII: the non-ASCII white space
      that [Number] skips is not modelled.
    - [Array.prototype.sort] is a stable insertion sort, in which a [NaN]
      comparison result counts as [0].  For a consistent comparator (no
      [NaN] among the sorted totals) every stable sort, V8's included,
      gives the same order; with [NaN] results the order V8 produces is
      implementation-defined and may differ from the model's. *)

From Stdlib Require Import QArith Qround Qabs String Ascii List ZArith
  Qminmax DecimalString Lqa Lia Permutation Sorted Bool.
Import ListNotations.

Open Scope string_scope.

(* ------------------------------------------------------------------ *)
(** ** JavaScript numbers *)

Module Num.

Inductive number : Type :=
| Fin (q : Q)
| NaN.

Definition lift2 (f : Q -> Q -> Q) (a b : number) : number :=
  match a, b with
  | Fin x, Fin y => Fin (Qred (f x y))
  | _, _ => NaN
  end.

Definition add := lift2 Qplus.
Definition sub := lift2 Qminus.
Definition mul := lift2 Qmult.

(** Division; the modelled code never divides by zero (see the guards at
    each call site), so the zero case is not given a value of its own. *)
Definition div (a b : number) : number :=
  match a, b with
  | Fin x, Fin y => if Qeq_bool y 0 then NaN else Fin (Qred (x / y))
  | _, _ => NaN
  end.

(** Relational operators are false as soon as one side is [NaN]. *)
Definition lt (a b : number) : bool :=
  match a, b with Fin x, Fin y => negb (Qle_bool y x) | _, _ => false end.
Definition le (a b : number) : bool :=
  match a, b with Fin x, Fin y => Qle_bool x y | _, _ => false end.
Definition gt (a b : number) : bool := lt b a.
Definition ge (a b : number) : bool := le b a.

(** [===] on numbers: [NaN] is not equal to itself. *)
Definition strict_eq (a b : number) : bool :=
  match a, b with Fin x, Fin y => Qeq_bool x y | _, _ => false end.

(** SameValueZero, used by [Array.prototype.includes]. *)
Definition same_value_zero (a b : number) : bool :=
  match a, b with
  | Fin x, Fin y => Qeq_bool x y
  | NaN, NaN => true
  | _, _ => false
  end.

Definition is_nan (a : number) : bool :=
  match a with NaN => true | Fin _ => false end.

(** [Math.round]: nearest integer, halves rounded towards +infinity. *)
Definition round (a : number) : number :=
  match a with
  | Fin x => Fin (inject_Z (Qfloor (x + (1 # 2))))
  | NaN => NaN
  end.

(** [Math.min] and [Math.max] of two arguments. *)
Definition min2 (a b : number) : number :=
  match a, b with Fin x, Fin y => Fin (Qmin x y) | _, _ => NaN end.
Definition max2 (a b : number) : number :=
  match a, b with Fin x, Fin y => Fin (Qmax x y) | _, _ => NaN end.

(** [Math.min(...values)] and [Math.max(...values)] on a non-empty list of
    numbers that are not [NaN] (the code filters [NaN] out first). *)
Definition qmin_list (x : Q) (l : list Q) : Q := fold_left Qmin l x.
Definition qmax_list (x : Q) (l : list Q) : Q := fold_left Qmax l x.

Definition of_nat (n : nat) : number := Fin (inject_Z (Z.of_nat n)).

End Num.

Import Num.
Coercion Fin : Q >-> number.

(** [roundToDecimals(num, decimals)] of utils.js. *)
Definition roundToDecimals (num : number) (decimals : nat) : number :=
  let factor := Fin (inject_Z (10 ^ Z.of_nat decimals)) in
  div (round (mul num factor)) factor.

(** [Math.round(x * 100) / 100], written inline in scoring.js. *)
Definition round2 (x : number) : number :=
  div (round (mul x (Fin 100))) (Fin 100).

(* ------------------------------------------------------------------ *)
(** ** Strings: printing and reading numbers *)

Module Str.

Definition of_Z (z : Z) : string := NilEmpty.string_of_int (Z.to_int z).

Fixpoint concat_with (sep : string) (l : list string) : string :=
  match l with
  | [] => ""
  | [x] => x
  | x :: r => x ++ sep ++ concat_with sep r
  end.

(** [String.prototype.includes]: substring test. *)
Fixpoint is_prefix (p s : string) : bool :=
  match p, s with
  | EmptyString, _ => true
  | String a p', String b s' => Ascii.eqb a b && is_prefix p' s'
  | String _ _, EmptyString => false
  end.

Fixpoint includes (s p : string) : bool :=
  is_prefix p s ||
  match s with
  | EmptyString => false
  | String _ s' => includes s' p
  end.

(** [String.prototype.toLowerCase] on the ASCII range. *)
Definition lower_ascii (c : ascii) : ascii :=
  let n := nat_of_ascii c in
  if ((65 <=? n) && (n <=? 90))%nat then ascii_of_nat (n + 32) else c.

Fixpoint toLowerCase (s : string) : string :=
  match s with
  | EmptyString => EmptyString
  | String c s' => String (lower_ascii c) (toLowerCase s')
  end.

Fixpoint repeat_char (c : ascii) (n : nat) : string :=
  match n with O => "" | S k => String c (repeat_char c k) end.

(** Decimal digits of the fractional part [r] (with [0 <= r < 1]), [n] of
    them at most. *)
Fixpoint frac_digits (r : Q) (n : nat) : string :=
  match n with
  | O => ""
  | S k =>
      let t := r * 10 in
      let d := Qfloor t in
      of_Z d ++ frac_digits (t - inject_Z d) k
  end.

Fixpoint strip_trailing_zeros_rev (l : list ascii) : list ascii :=
  match l with
  | "0"%char :: r => strip_trailing_zeros_rev r
  | _ => l
  end.

Definition strip_trailing_zeros (s : string) : string :=
  string_of_list_ascii
    (rev (strip_trailing_zeros_rev (rev (list_ascii_of_string s)))).

(** Grouping of an integer's digits by thousands with [","]. *)
Fixpoint group_rev (l : list ascii) : list ascii :=
  match l with
  | a :: b :: c :: (_ :: _) as r => a :: b :: c :: ","%char :: group_rev r
  | _ => l
  end.

Definition group_thousands (s : string) : string :=
  string_of_list_ascii (rev (group_rev (rev (list_ascii_of_string s)))).

End Str.

(** The factors [p] of a positive number: [(c, r)] with [b = p^c * r]
    and [r] not a multiple of [p]; [fuel] bounds [c]. *)
Fixpoint strip_factor (p b : positive) (fuel : nat) : nat * positive :=
  match fuel with
  | O => (O, b)
  | S f =>
      if (Z.pos b mod Z.pos p =? 0)%Z
      then let '(c, r) := strip_factor p (Z.to_pos (Z.pos b / Z.pos p)) f in (S c, r)
      else (O, b)
  end.

(** The decimal digits of a positive rational [q] whose expansion
    terminates: [Some (s, n)] where the digit string [s] has no trailing
    zero and [q = 0.s * 10^n]. *)
Definition decimal_digits (q : Q) : option (string * Z) :=
  let q := Qred q in
  let '(i, r2) := strip_factor 2 (Qden q) (Pos.size_nat (Qden q)) in
  let '(j, r) := strip_factor 5 r2 (Pos.size_nat r2) in
  if (r =? 1)%positive then
    let e := Nat.max i j in
    let m := (Qnum q * 2 ^ Z.of_nat (e - i) * 5 ^ Z.of_nat (e - j))%Z in
    let s0 := Str.of_Z (Z.abs m) in
    Some (Str.strip_trailing_zeros s0, (Z.of_nat (String.length s0) - Z.of_nat e)%Z)
  else None.

(** [Number::toString(x)] for [x > 0] with digits [s] ([k] of them) and
    [x = 0.s * 10^n]: plain notation for [-6 < n <= 21], exponent
    notation otherwise. *)
Definition format_digits (s : string) (n : Z) : string :=
  let k := Z.of_nat (String.length s) in
  if ((k <=? n) && (n <=? 21))%Z then s ++ Str.repeat_char "0" (Z.to_nat (n - k))
  else if ((0 <? n) && (n <=? 21))%Z then
    substring 0 (Z.to_nat n) s ++ "." ++ substring (Z.to_nat n) (String.length s) s
  else if ((-6 <? n) && (n <=? 0))%Z then
    "0." ++ Str.repeat_char "0" (Z.to_nat (- n)) ++ s
  else
    let e := (n - 1)%Z in
    let et := "e" ++ (if (0 <=? e)%Z then "+" else "-") ++ Str.of_Z (Z.abs e) in
    if (k =? 1)%Z then s ++ et
    else substring 0 1 s ++ "." ++ substring 1 (String.length s) s ++ et.

(** [Number.prototype.toString()] (also used by template literals).  A
    double is a rational with a terminating decimal expansion; such a
    value is printed as [Number::toString] prints it, from its exact
    digits, which are the shortest ones for a value read from a literal
    of at most 15 significant digits.  A rational without a terminating
    expansion, which is no double, is printed with at most 20 fractional
    digits. *)
Definition num_to_string (n : number) : string :=
  match n with
  | NaN => "NaN"
  | Fin q =>
      if Qeq_bool q 0 then "0" else
      let sign := if Qle_bool 0 q then "" else "-" in
      let a := Qabs q in
      match decimal_digits a with
      | Some (s, e) => sign ++ format_digits s e
      | None =>
          let ip := Qfloor a in
          let fr := Str.strip_trailing_zeros (Str.frac_digits (a - inject_Z ip) 20) in
          sign ++ Str.of_Z ip ++ (if String.eqb fr "" then "" else "." ++ fr)
      end
  end.

(** [Number.prototype.toFixed(d)]: the integer [k] with [k / 10^d] nearest
    to the value, the larger one on a tie; the sign is printed apart.  A
    magnitude of at least [10^21] is printed by [Number::toString]. *)
Definition toFixed (n : number) (d : nat) : string :=
  match n with
  | NaN => "NaN"
  | Fin q =>
      let sign := if Qle_bool 0 q then "" else "-" in
      if Qle_bool (inject_Z (10 ^ 21)) (Qabs q) then sign ++ num_to_string (Fin (Qabs q)) else
      let k := Qfloor (Qabs q * inject_Z (10 ^ Z.of_nat d) + (1 # 2)) in
      let m := Str.of_Z k in
      let m := if (String.length m <=? d)%nat
               then Str.repeat_char "0" (S d - String.length m) ++ m else m in
      let len := String.length m in
      sign ++
      (if (d =? 0)%nat then m
       else substring 0 (len - d) m ++ "." ++ substring (len - d) d m)
  end.

(** [Number.prototype.toLocaleString()] in the default en-US locale:
    thousands separators, at most 3 fraction digits rounded half away from
    zero, trailing zeros dropped. *)
Definition toLocaleString (n : number) : string :=
  match n with
  | NaN => "NaN"
  | Fin q =>
      let sign := if Qle_bool 0 q then "" else "-" in
      let k := Qfloor (Qabs q * 1000 + (1 # 2)) in
      let ip := Z.div k 1000 in
      let fr := Str.strip_trailing_zeros
                  (let s := Str.of_Z (Z.modulo k 1000) in
                   Str.repeat_char "0" (3 - String.length s) ++ s) in
      sign ++ Str.group_thousands (Str.of_Z ip) ++
      (if String.eqb fr "" then "" else "." ++ fr)
  end.

(** [StringToNumber]: surrounding white space is ignored, the empty string
    is [0], a decimal literal with optional sign, fraction and exponent is
    read, and so is an unsigned [0x]/[0o]/[0b] literal (either case);
    anything else is [NaN].  ("Infinity", which JavaScript reads as an
    infinite number, is not modelled and reads as [NaN].) *)
Module Parse.

Definition is_space (c : ascii) : bool :=
  let n := nat_of_ascii c in
  (n =? 32)%nat || ((9 <=? n) && (n <=? 13))%nat.

Fixpoint drop_space (l : list ascii) : list ascii :=
  match l with
  | c :: r => if is_space c then drop_space r else l
  | [] => []
  end.

Definition trim (l : list ascii) : list ascii := rev (drop_space (rev (drop_space l))).

Definition digit (c : ascii) : option Z :=
  let n := nat_of_ascii c in
  if ((48 <=? n) && (n <=? 57))%nat then Some (Z.of_nat (n - 48)) else None.

Fixpoint digits (l : list ascii) (acc : Z) (cnt : nat) : Z * nat * list ascii :=
  match l with
  | c :: r =>
      match digit c with
      | Some d => digits r (acc * 10 + d) (S cnt)
      | None => (acc, cnt, l)
      end
  | [] => (acc, cnt, [])
  end.

Definition scale (m e : Z) : Q :=
  if (0 <=? e)%Z then inject_Z (m * 10 ^ e) else m # Z.to_pos (10 ^ (- e)).

Definition exponent (l : list ascii) : option Z :=
  let '(s, l) := match l with
                 | "+"%char :: r => (1%Z, r)
                 | "-"%char :: r => ((-1)%Z, r)
                 | _ => (1%Z, l)
                 end in
  match digits l 0 0 with
  | (e, S _, []) => Some (s * e)%Z
  | _ => None
  end.

Definition unsigned (l : list ascii) : option Q :=
  let '(ip, ni, r1) := digits l 0 0 in
  let '(m, nd, r2) :=
    match r1 with
    | "."%char :: r => let '(fp, nf, r') := digits r 0 0 in
                       ((ip * 10 ^ Z.of_nat nf + fp)%Z, (ni + nf)%nat, r')
    | _ => (ip, ni, r1)
    end in
  let fdigits := (nd - ni)%nat in
  match nd with
  | O => None
  | S _ =>
      match r2 with
      | [] => Some (scale m (- Z.of_nat fdigits))
      | c :: r => if Ascii.eqb c "e" || Ascii.eqb c "E" then
                    match exponent r with
                    | Some e => Some (scale m (e - Z.of_nat fdigits))
                    | None => None
                    end
                  else None
      end
  end.

(** The radix named by the letter after a leading [0]. *)
Definition radix_of (c : ascii) : option Z :=
  if Ascii.eqb c "x" || Ascii.eqb c "X" then Some 16%Z
  else if Ascii.eqb c "o" || Ascii.eqb c "O" then Some 8%Z
  else if Ascii.eqb c "b" || Ascii.eqb c "B" then Some 2%Z
  else None.

Definition radix_digit (r : Z) (c : ascii) : option Z :=
  let n := nat_of_ascii c in
  let d := if ((48 <=? n) && (n <=? 57))%nat then Some (Z.of_nat (n - 48))
           else if ((97 <=? n) && (n <=? 102))%nat then Some (Z.of_nat (n - 87))
           else if ((65 <=? n) && (n <=? 70))%nat then Some (Z.of_nat (n - 55))
           else None in
  match d with Some v => if (v <? r)%Z then Some v else None | None => None end.

Fixpoint radix_digits (r : Z) (l : list ascii) (acc : Z) : option Z :=
  match l with
  | [] => Some acc
  | c :: t => match radix_digit r c with
              | Some d => radix_digits r t (acc * r + d)%Z
              | None => None
              end
  end.

(** A [0x]/[0o]/[0b] literal: [None] when the text does not start with one,
    [Some None] when it does but is not a well-formed one. *)
Definition non_decimal (l : list ascii) : option (option Z) :=
  match l with
  | "0"%char :: c :: t =>
      match radix_of c with
      | Some r => Some (match t with [] => None | _ => radix_digits r t 0 end)
      | None => None
      end
  | _ => None
  end.

Definition string_to_number (s : string) : number :=
  match trim (list_ascii_of_string s) with
  | [] => Fin 0
  | "-"%char :: r => match unsigned r with Some q => Fin (Qred (- q)) | None => NaN end
  | "+"%char :: r => match unsigned r with Some q => Fin (Qred q) | None => NaN end
  | l => match non_decimal l with
         | Some (Some z) => Fin (inject_Z z)
         | Some None => NaN
         | None => match unsigned l with Some q => Fin (Qred q) | None => NaN end
         end
  end.

End Parse.

(* ------------------------------------------------------------------ *)
(** ** JSON values *)

#[local] Set Warnings "-register-all".

Inductive jsval : Type :=
| JNum (n : number)
| JBool (b : bool)
| JStr (s : string)
| JNull
| JArr (items : list jsval)
| JObj (fields : list (string * jsval)).

(** [String(v)]; inside [Array.prototype.join] a [null] element prints as
    the empty string. *)
Fixpoint js_to_string (v : jsval) : string :=
  match v with
  | JNum n => num_to_string n
  | JBool true => "true"
  | JBool false => "false"
  | JStr s => s
  | JNull => "null"
  | JArr l =>
      Str.concat_with ","
        ((fix go (l : list jsval) : list string :=
            match l with
            | [] => []
            | JNull :: r => "" :: go r
            | x :: r => js_to_string x :: go r
            end) l)
  | JObj _ => "[object Object]"
  end.

(** [String(v)] where [v] may be [undefined]. *)
Definition string_of (v : option jsval) : string :=
  match v with Some x => js_to_string x | None => "undefined" end.

(** [Number(v)] (ToNumber). *)
Definition to_number (v : jsval) : number :=
  match v with
  | JNum n => n
  | JBool b => if b then Fin 1 else Fin 0
  | JStr s => Parse.string_to_number s
  | JNull => Fin 0
  | JArr _ => Parse.string_to_number (js_to_string v)
  | JObj _ => NaN
  end.

(** [Number(v)] where [v] may be [undefined]. *)
Definition to_number_opt (v : option jsval) : number :=
  match v with Some x => to_number x | None => NaN end.

(** [typeof v === 'object'] ([null] included). *)
Definition is_object (v : jsval) : bool :=
  match v with JNull | JArr _ | JObj _ => true | _ => false end.

(** Truthiness. *)
Definition truthy (v : jsval) : bool :=
  match v with
  | JNum (Fin q) => negb (Qeq_bool q 0)
  | JNum NaN => false
  | JBool b => b
  | JStr s => negb (String.eqb s "")
  | JNull => false
  | JArr _ | JObj _ => true
  end.

(** [a === b]; objects and arrays from distinct JSON literals are distinct
    references. *)
Definition strict_equal (a b : jsval) : bool :=
  match a, b with
  | JNum x, JNum y => Num.strict_eq x y
  | JBool x, JBool y => Bool.eqb x y
  | JStr x, JStr y => String.eqb x y
  | JNull, JNull => true
  | _, _ => false
  end.

(** [SameValueZero(a, b)], the equality of [Array.prototype.includes]. *)
Definition same_value_zero (a b : jsval) : bool :=
  match a, b with
  | JNum x, JNum y => Num.same_value_zero x y
  | _, _ => strict_equal a b
  end.

(** Canonical array index ("0", "1", ... without leading zeros). *)
Definition array_index (k : string) : option nat :=
  match list_ascii_of_string k with
  | [] => None
  | "0"%char :: _ :: _ => None
  | l => match Parse.digits l 0 0 with
         | (z, _, []) => Some (Z.to_nat z)
         | _ => None
         end
  end.

Fixpoint assoc_get {A : Type} (fs : list (string * A)) (k : string) : option A :=
  match fs with
  | [] => None
  | (k', v) :: r => if String.eqb k k' then Some v else assoc_get r k
  end.

(** Property assignment on an object ([o[k] = v]): an existing key keeps
    its place, a new key goes last. *)
Fixpoint assoc_put {A : Type} (fs : list (string * A)) (k : string) (v : A)
  : list (string * A) :=
  match fs with
  | [] => [(k, v)]
  | (k', v') :: r => if String.eqb k k' then (k', v) :: r
                     else (k', v') :: assoc_put r k v
  end.

(** [o[k]] on an object or array (own properties). *)
Definition get_prop (o : jsval) (k : string) : option jsval :=
  match o with
  | JObj fs => assoc_get fs k
  | JArr l => if String.eqb k "length" then Some (JNum (of_nat (List.length l)))
              else match array_index k with
                   | Some i => nth_error l i
                   | None => None
                   end
  | _ => None
  end.

(** [o[k] = v] on an object or array.  Writes that would leave holes in an
    array or add a named property to it are not modelled (no change). *)
Definition put_prop (o : jsval) (k : string) (v : jsval) : jsval :=
  match o with
  | JObj fs => JObj (assoc_put fs k v)
  | JArr l => match array_index k with
              | Some i => if (i <? List.length l)%nat
                          then JArr (firstn i l ++ v :: skipn (S i) l)
                          else if (i =? List.length l)%nat then JArr (l ++ [v])
                          else o
              | None => o
              end
  | _ => o
  end.

(** [path.split('.')]. *)
Fixpoint split_dot (s : string) : list string :=
  match s with
  | EmptyString => [""]
  | String c r =>
      let parts := split_dot r in
      if Ascii.eqb c "." then "" :: parts
      else match parts with
           | p :: ps => String c p :: ps
           | [] => [String c ""]
           end
  end.

(** [getNestedValue(obj, path)] of utils.js. *)
Definition getNestedValue (obj : option jsval) (path : string) : option jsval :=
  match obj with
  | Some o =>
      if truthy o && is_object o && negb (String.eqb path "") then
        fold_left (fun current key =>
                     match current with
                     | Some c => if truthy c && is_object c then get_prop c key
                                 else None
                     | None => None
                     end)
                  (split_dot path) (Some o)
      else None
  | None => None
  end.

(** The navigation of [setNestedValue]: each parent key whose value is not
    a truthy object is replaced by [{}]; then [target[lastKey] = value]. *)
Fixpoint set_path (current : jsval) (keys : list string) (lastKey : string)
  (value : jsval) : jsval :=
  match keys with
  | [] => put_prop current lastKey value
  | key :: ks =>
      let child := match get_prop current key with
                   | Some c => if truthy c && is_object c then c else JObj []
                   | None => JObj []
                   end in
      put_prop current key (set_path child ks lastKey value)
  end.

(** [setNestedValue(obj, path, value)] of utils.js, returning the updated
    object. *)
Definition setNestedValue (obj : jsval) (path : string) (value : jsval) : jsval :=
  if truthy obj && is_object obj && negb (String.eqb path "") then
    let keys := split_dot path in
    set_path obj (removelast keys) (last keys "") value
  else obj.

(** [JSON.parse(JSON.stringify(v))]: [NaN] becomes [null]. *)
Fixpoint json_clone (v : jsval) : jsval :=
  match v with
  | JNum NaN => JNull
  | JArr l => JArr (map json_clone l)
  | JObj fs => JObj (map (fun '(k, x) => (k, json_clone x)) fs)
  | _ => v
  end.

(* ------------------------------------------------------------------ *)
(** ** Input records *)

Record Option := mkOption {
  id : string;
  name : string;
  features : jsval
}.

(** [required] is [undefined] ([None]) or a boolean. *)
Record Constraint := mkConstraint {
  c_criteria : string;
  operator : string;
  value : jsval;
  required : option bool
}.

Record Priority := mkPriority {
  criteria : string;
  weight : Q;
  optimization : string
}.

(** [constraint.required !== false]. *)
Definition is_required (c : Constraint) : bool :=
  match required c with Some false => false | _ => true end.

(* ------------------------------------------------------------------ *)
(** ** formatDisplayValue *)

Definition formatDisplayValue (value : option jsval) (criteria : string) : string :=
  match value with
  | Some (JNum v) =>
      if Str.includes criteria "cost" || Str.includes criteria "price" then
        "$" ++ toFixed v 3
      else if Str.includes criteria "percent" || Str.includes criteria "reliability"
              || Str.includes criteria "uptime" then
        num_to_string v ++ "%"
      else if Str.includes criteria "performance" || Str.includes criteria "iops" then
        toLocaleString v
      else if Num.lt v (Fin 1) then toFixed v 3
      else if Num.lt v (Fin 100) then toFixed v 1
      else toLocaleString (Num.round v)
  | _ => string_of value
  end.

(* ------------------------------------------------------------------ *)
(** ** ConstraintEvaluator: applyConstraints *)

Definition evaluateConstraint (option : Option) (constraint : Constraint) : bool :=
  match getNestedValue (Some (features option)) (c_criteria constraint) with
  | None | Some JNull => false
  | Some v =>
      let constraintValue := value constraint in
      let op := operator constraint in
      if String.eqb op "lt" then Num.lt (to_number v) (to_number constraintValue)
      else if String.eqb op "lte" then Num.le (to_number v) (to_number constraintValue)
      else if String.eqb op "gt" then Num.gt (to_number v) (to_number constraintValue)
      else if String.eqb op "gte" then Num.ge (to_number v) (to_number constraintValue)
      else if String.eqb op "eq" then strict_equal v constraintValue
      else if String.eqb op "neq" then negb (strict_equal v constraintValue)
      else if String.eqb op "in" then
        match constraintValue with
        | JArr l => existsb (same_value_zero v) l
        | _ => false
        end
      else if String.eqb op "contains" then
        Str.includes (Str.toLowerCase (js_to_string v))
                     (Str.toLowerCase (js_to_string constraintValue))
      else false
  end.

Record ConstraintReason := mkConstraintReason {
  cr_criteria : string;
  cr_status : string;
  cr_explanation : string;
  cr_required : bool;
  actualValue : option jsval;
  constraintValue : jsval;
  cr_operator : string
}.

Definition operatorText : list (string * string) :=
  [("lt", "less than"); ("lte", "less than or equal to");
   ("gt", "greater than"); ("gte", "greater than or equal to");
   ("eq", "equal to"); ("neq", "not equal to");
   ("in", "one of"); ("contains", "containing")].

Definition generateConstraintReason (option : Option) (constraint : Constraint)
  (passes : bool) : ConstraintReason :=
  let v := getNestedValue (Some (features option)) (c_criteria constraint) in
  let formattedValue := formatDisplayValue v (c_criteria constraint) in
  let formattedConstraintValue :=
    formatDisplayValue (Some (value constraint)) (c_criteria constraint) in
  let op := match assoc_get operatorText (operator constraint) with
            | Some t => t
            | None => operator constraint
            end in
  let status := if passes then "passed" else "failed" in
  let requiredText := if is_required constraint then "required" else "optional" in
  let explanation :=
    match v with
    | None | Some JNull =>
        name option ++ " has no " ++ c_criteria constraint
        ++ " data available for " ++ requiredText ++ " constraint"
    | Some _ =>
        name option ++ " " ++ c_criteria constraint ++ " (" ++ formattedValue ++ ") "
        ++ (if passes then "meets" else "does not meet") ++ " the " ++ requiredText
        ++ " requirement of being " ++ op ++ " " ++ formattedConstraintValue
    end in
  {| cr_criteria := c_criteria constraint;
     cr_status := status;
     cr_explanation := explanation;
     cr_required := is_required constraint;
     actualValue := v;
     constraintValue := value constraint;
     cr_operator := operator constraint |}.

Record Compliance := mkCompliance {
  passed : bool;
  failedConstraints : list string;
  constraintReasons : list ConstraintReason
}.

(** [{...option, constraintCompliance}]; options handed directly to
    [calculateWeightedScores] may lack the field ([None]). *)
Record ValidOption := mkValidOption {
  vo_option : Option;
  constraintCompliance : option Compliance
}.

(** The inner loop of [applyConstraints] over the constraints, for one
    option: returns [passesAllConstraints], [failedConstraints] and
    [constraintReasons]. *)
Definition check_option (option : Option) (constraints : list Constraint)
  : Compliance :=
  let '(ok, failed, reasons) :=
    fold_left (fun '(ok, failed, reasons) constraint =>
                 let passes := evaluateConstraint option constraint in
                 let reason := generateConstraintReason option constraint passes in
                 let reasons := (reasons ++ [reason])%list in
                 if passes then (ok, failed, reasons)
                 else (if is_required constraint then false else ok,
                       (failed ++ [c_criteria constraint])%list, reasons))
              constraints (true, [], []) in
  {| passed := ok; failedConstraints := failed; constraintReasons := reasons |}.

Record ConstraintResults := mkConstraintResults {
  validOptions : list ValidOption;
  allResults : list (string * Compliance)
}.

Definition applyConstraints (options : list Option) (constraints : list Constraint)
  : ConstraintResults :=
  let '(valid, all) :=
    fold_left (fun '(valid, all) option =>
                 let complianceResult := check_option option constraints in
                 let all := assoc_put all (id option) complianceResult in
                 if passed complianceResult
                 then ((valid ++ [mkValidOption option (Some complianceResult)])%list, all)
                 else (valid, all))
              options ([], []) in
  {| validOptions := valid; allResults := all |}.

(* ------------------------------------------------------------------ *)
(** ** Array.prototype.sort *)

(** Insertion of [x] before the first element that the comparator puts
    after it ([cmp e x > 0]); a [NaN] result counts as [0]. *)
Fixpoint sort_insert {A : Type} (cmp : A -> A -> number) (x : A) (l : list A)
  : list A :=
  match l with
  | [] => [x]
  | e :: r => if Num.gt (cmp e x) (Fin 0) then x :: l else e :: sort_insert cmp x r
  end.

(** Stable sort, as required of [Array.prototype.sort]. *)
Definition js_sort {A : Type} (cmp : A -> A -> number) (l : list A) : list A :=
  fold_left (fun acc x => sort_insert cmp x acc) l [].

(** [array.map((x, index) => ...)]. *)
Fixpoint mapi_from {A B : Type} (f : nat -> A -> B) (i : nat) (l : list A) : list B :=
  match l with
  | [] => []
  | x :: r => f i x :: mapi_from f (S i) r
  end.

(* ------------------------------------------------------------------ *)
(** ** Normalizer *)

(** [options.map(o => getNestedValue(o.features, c))
      .filter(v => v !== undefined && v !== null).map(Number)
      .filter(v => !isNaN(v))] *)
Definition criteria_values (options : list ValidOption) (c : string) : list Q :=
  flat_map (fun o =>
              match getNestedValue (Some (features (vo_option o))) c with
              | None | Some JNull => []
              | Some v => match to_number v with Fin q => [q] | NaN => [] end
              end) options.

Record Range := mkRange { r_min : Q; r_max : Q; r_range : Q }.

Definition criteriaRanges (options : list ValidOption) (priorities : list Priority)
  : list (string * Range) :=
  fold_left (fun ranges priority =>
               match criteria_values options (criteria priority) with
               | [] => ranges
               | v :: vs =>
                   let mn := qmin_list v vs in
                   let mx := qmax_list v vs in
                   assoc_put ranges (criteria priority) (mkRange mn mx (Qred (mx - mn)))
               end) priorities [].

Record NormalizedOption := mkNormalizedOption {
  no_valid : ValidOption;
  normalizedFeatures : jsval
}.

(** One pass of the inner loop of [normalizeOptionValues]. *)
Definition normalize_step (ranges : list (string * Range)) (features : jsval)
  (normalized : jsval) (priority : Priority) : jsval :=
  match getNestedValue (Some features) (criteria priority),
        assoc_get ranges (criteria priority) with
  | Some rawValue, Some range =>
      if Num.gt (Fin (r_range range)) (Fin 0) then
        let normalizedValue :=
          Num.div (Num.sub (to_number rawValue) (Fin (r_min range))) (Fin (r_range range)) in
        setNestedValue normalized (criteria priority) (JNum normalizedValue)
      else normalized
  | _, _ => normalized
  end.

Definition normalizeOptionValues (options : list ValidOption)
  (priorities : list Priority) : list NormalizedOption :=
  let ranges := criteriaRanges options priorities in
  map (fun o =>
         let f := features (vo_option o) in
         mkNormalizedOption o
           (fold_left (normalize_step ranges f) priorities (json_clone f)))
      options.

(* ------------------------------------------------------------------ *)
(** ** Statistics and percentile *)

Record Stats := mkStats {
  s_min : Q; s_max : Q; s_avg : Q; s_median : Q; count : nat
}.

Definition calculateCriteriaStatistics (options : list ValidOption)
  (priorities : list Priority) : list (string * Stats) :=
  fold_left (fun stats priority =>
               match criteria_values options (criteria priority) with
               | [] => stats
               | (v :: vs) as values =>
                   let sorted := js_sort (fun a b => Num.sub (Fin a) (Fin b)) values in
                   let n := List.length values in
                   assoc_put stats (criteria priority)
                     {| s_min := qmin_list v vs;
                        s_max := qmax_list v vs;
                        s_avg := Qred (fold_left Qplus values 0 / inject_Z (Z.of_nat n));
                        s_median := nth (Nat.div n 2) sorted 0;
                        count := n |}
               end) priorities [].

Definition calculatePercentile (value : jsval) (stats : Stats) (isMinimize : bool)
  : number :=
  let range := Qred (s_max stats - s_min stats) in
  if Qeq_bool range 0 then Fin 50
  else
    let percentile :=
      Num.mul (Num.div (Num.sub (to_number value) (Fin (s_min stats))) (Fin range))
              (Fin 100) in
    let percentile := if isMinimize then Num.sub (Fin 100) percentile else percentile in
    Num.max2 (Fin 0) (Num.min2 (Fin 100) percentile).

(* ------------------------------------------------------------------ *)
(** ** ExplanationGenerator: generateCriteriaReason *)

Record Details := mkDetails {
  d_rawValue : jsval;
  formattedValue : string;
  d_score : number;
  performanceLevel : string;
  comparison : string;
  weightPercentage : number
}.

(** A reason object; the [missing_data] reasons carry no [details]. *)
Record Reason := mkReason {
  r_criteria : string;
  status : string;
  explanation : string;
  details : option Details;
  impact : string;
  weightContribution : number
}.

Definition generateCriteriaReason (priority : Priority) (rawValue : jsval)
  (score : number) (stats : option Stats) (optionName : string) : Reason :=
  let priority_weight := weight priority in
  let criteria := criteria priority in
  let weight := Num.round (Num.mul (Fin priority_weight) (Fin 100)) in
  let isMinimize := String.eqb (optimization priority) "minimize" in
  let '(performanceLevel, impact) :=
    if Num.ge score (Fin 80) then
      (if isMinimize then "very low" else "excellent", "positive")
    else if Num.ge score (Fin 60) then
      (if isMinimize then "low" else "good", "positive")
    else if Num.ge score (Fin 40) then ("average", "neutral")
    else if Num.ge score (Fin 20) then
      (if isMinimize then "high" else "below average", "negative")
    else (if isMinimize then "very high" else "poor", "negative") in
  let comparison :=
    match stats with
    | Some st =>
        if (1 <? count st)%nat then
          let percentile := calculatePercentile rawValue st isMinimize in
          if Num.ge percentile (Fin 80) then
            (if isMinimize then "among the lowest" else "among the highest")
          else if Num.ge percentile (Fin 60) then
            (if isMinimize then "below average" else "above average")
          else if Num.ge percentile (Fin 40) then "near average"
          else (if isMinimize then "above average" else "below average")
        else "only option available"
    | None => "only option available"
    end in
  let formattedValue := formatDisplayValue (Some rawValue) criteria in
  let weightContribution :=
    Num.div (Num.round (Num.mul (Num.mul score (Fin priority_weight)) (Fin 100)))
            (Fin 100) in
  {| r_criteria := criteria;
     status := impact;
     explanation :=
       optionName ++ " has " ++ performanceLevel ++ " " ++ criteria ++ " ("
       ++ formattedValue ++ "), which is " ++ comparison
       ++ " compared to alternatives. This "
       ++ (if String.eqb impact "positive" then "helps"
           else if String.eqb impact "negative" then "hurts"
           else "neutrally affects") ++ " its overall ranking.";
     details := Some {| d_rawValue := rawValue;
                        formattedValue := formattedValue;
                        d_score := round2 score;
                        performanceLevel := performanceLevel;
                        comparison := comparison;
                        weightPercentage := weight |};
     impact := impact;
     weightContribution := weightContribution |}.

(* ------------------------------------------------------------------ *)
(** ** ScoringEngine *)

Record CriterionScore := mkCriterionScore {
  cs_score : number;
  cs_normalizedValue : jsval;
  cs_rawValue : jsval
}.

(** The [{ success: true, ... }] result of [calculateCriteriaScore];
    [{ success: false }] is [None]. *)
Record CriteriaResult := mkCriteriaResult {
  res_score : number;
  res_normalizedValue : jsval;
  res_rawValue : jsval;
  res_reason : Reason
}.

Definition calculateCriteriaScore (option : NormalizedOption) (priority : Priority)
  (criteriaStats : list (string * Stats)) : Datatypes.option CriteriaResult :=
  let normalizedValue :=
    getNestedValue (Some (normalizedFeatures option)) (criteria priority) in
  let rawValue :=
    getNestedValue (Some (features (vo_option (no_valid option)))) (criteria priority) in
  match normalizedValue, rawValue with
  | Some nv, Some rv =>
      let score := Num.mul (to_number nv) (Fin 100) in
      let score := if String.eqb (optimization priority) "minimize"
                   then Num.sub (Fin 100) score else score in
      let reason := generateCriteriaReason priority rv score
                      (assoc_get criteriaStats (criteria priority))
                      (name (vo_option (no_valid option))) in
      Some {| res_score := round2 score;
              res_normalizedValue := nv;
              res_rawValue := rv;
              res_reason := reason |}
  | _, _ => None
  end.

Record TradeOffs := mkTradeOffs {
  strengths : list string;
  weaknesses : list string;
  keyDifferentiators : list string
}.

(** A scored option; [rank] and [tradeOffs] are added by later spreads. *)
Record ScoredOption := mkScoredOption {
  optionId : string;
  so_name : string;
  totalScore : number;
  criteriaScores : list (string * CriterionScore);
  reasons : list Reason;
  so_constraintCompliance : Compliance;
  rank : Datatypes.option nat;
  tradeOffs : Datatypes.option TradeOffs
}.

Definition missing_reason (priority : Priority) (optionName : string) : Reason :=
  {| r_criteria := criteria priority;
     status := "missing_data";
     explanation := "No " ++ criteria priority ++ " data available for " ++ optionName;
     details := None;
     impact := "neutral";
     weightContribution := Fin 0 |}.

(** One iteration of the loop over the priorities in
    [calculateWeightedScores]: the accumulator is
    [(criteriaScores, reasons, totalScore)]. *)
Definition score_step (criteriaStats : list (string * Stats)) (option : NormalizedOption)
  (acc : list (string * CriterionScore) * list Reason * number) (priority : Priority)
  : list (string * CriterionScore) * list Reason * number :=
  let '(cs, rs, total) := acc in
  match calculateCriteriaScore option priority criteriaStats with
  | Some result =>
      (assoc_put cs (criteria priority)
         {| cs_score := res_score result;
            cs_normalizedValue := res_normalizedValue result;
            cs_rawValue := res_rawValue result |},
       (rs ++ [res_reason result])%list,
       Num.add total (Num.mul (res_score result) (Fin (weight priority))))
  | None =>
      (cs, (rs ++ [missing_reason priority (name (vo_option (no_valid option)))])%list,
       total)
  end.

Definition default_compliance : Compliance :=
  {| passed := true; failedConstraints := []; constraintReasons := [] |}.

(** The body of [normalizedOptions.map(option => ...)]. *)
Definition score_option (criteriaStats : list (string * Stats))
  (priorities : list Priority) (option : NormalizedOption) : ScoredOption :=
  let '(cs, rs, total) :=
    fold_left (score_step criteriaStats option) priorities ([], [], Fin 0) in
  {| optionId := id (vo_option (no_valid option));
     so_name := name (vo_option (no_valid option));
     totalScore := round2 total;
     criteriaScores := cs;
     reasons := rs;
     so_constraintCompliance :=
       match constraintCompliance (no_valid option) with
       | Some c => c
       | None => default_compliance
       end;
     rank := None;
     tradeOffs := None |}.

Definition calculateWeightedScores (options : list ValidOption)
  (priorities : list Priority) : list ScoredOption :=
  let normalizedOptions := normalizeOptionValues options priorities in
  let criteriaStats := calculateCriteriaStatistics options priorities in
  map (score_option criteriaStats priorities) normalizedOptions.

(** [settings.max_results] is [undefined] ([None]) or a number. *)
Record Settings := mkSettings { max_results : Datatypes.option nat }.

Record ScoringSummary := mkScoringSummary {
  totalOptionsEvaluated : nat;
  optionsMeetingConstraints : nat;
  topRecommendation : Datatypes.option ScoredOption
}.

Record ScoringResults := mkScoringResults {
  rankedOptions : list ScoredOption;
  summary : ScoringSummary;
  constraintResults : list (string * Compliance)
}.

Definition with_rank (o : ScoredOption) (r : nat) : ScoredOption :=
  {| optionId := optionId o; so_name := so_name o; totalScore := totalScore o;
     criteriaScores := criteriaScores o; reasons := reasons o;
     so_constraintCompliance := so_constraintCompliance o;
     rank := Some r; tradeOffs := tradeOffs o |}.

(** The comparator [(a, b) => b.totalScore - a.totalScore]. *)
Definition by_total_desc (a b : ScoredOption) : number :=
  Num.sub (totalScore b) (totalScore a).

Definition rank_options (scoredOptions : list ScoredOption) : list ScoredOption :=
  mapi_from (fun index option => with_rank option (index + 1))
            0 (js_sort by_total_desc scoredOptions).

(** [settings.max_results ? rankedOptions.slice(0, max_results) : rankedOptions] *)
Definition limit_results (settings : Settings) (ranked : list ScoredOption)
  : list ScoredOption :=
  match max_results settings with
  | Some (S _ as n) => firstn n ranked
  | _ => ranked
  end.

Definition scoreOptions (options : list Option) (constraints : list Constraint)
  (priorities : list Priority) (settings : Settings) : ScoringResults :=
  let cr := applyConstraints options constraints in
  match validOptions cr with
  | [] =>
      {| rankedOptions := [];
         summary := {| totalOptionsEvaluated := List.length options;
                       optionsMeetingConstraints := 0;
                       topRecommendation := None |};
         constraintResults := allResults cr |}
  | valid =>
      let scoredOptions := calculateWeightedScores valid priorities in
      let ranked := rank_options scoredOptions in
      let limitedResults := limit_results settings ranked in
      {| rankedOptions := limitedResults;
         summary := {| totalOptionsEvaluated := List.length options;
                       optionsMeetingConstraints := List.length valid;
                       topRecommendation := hd_error limitedResults |};
         constraintResults := allResults cr |}
  end.

(* ------------------------------------------------------------------ *)
(** ** TradeOffAnalyzer (analysis.js) *)

(** [average(numbers)] of utils.js. *)
Definition average (numbers : list number) : number :=
  let valid := filter (fun n => negb (Num.is_nan n)) numbers in
  match valid with
  | [] => Fin 0
  | _ => Num.div (fold_left Num.add valid (Fin 0)) (of_nat (List.length valid))
  end.

Definition calculateAverageScore (options : list ScoredOption) (criteria : string)
  : number :=
  let scores := flat_map (fun opt => match assoc_get (criteriaScores opt) criteria with
                                      | Some sd => [cs_score sd]
                                      | None => []
                                      end) options in
  match scores with [] => Fin 0 | _ => average scores end.

(** [reason.details.formattedValue] and [reason.details.performanceLevel];
    only reasons with an impact of [positive] or [negative] are read this
    way, and those always carry [details]. *)
Definition reason_formatted (r : Reason) : string :=
  match details r with Some d => formattedValue d | None => "" end.
Definition reason_level (r : Reason) : string :=
  match details r with Some d => performanceLevel d | None => "" end.

(** The comparator [(a, b) => b.weightContribution - a.weightContribution]. *)
Definition by_contribution_desc (a b : Reason) : number :=
  Num.sub (weightContribution b) (weightContribution a).

Definition analyzeOptionTradeOffs (option : ScoredOption) (allOptions : list ScoredOption)
  (priorities : list Priority) : TradeOffs :=
  let positiveReasons := filter (fun r => String.eqb (impact r) "positive") (reasons option) in
  let negativeReasons := filter (fun r => String.eqb (impact r) "negative") (reasons option) in
  let strengths :=
    map (fun r => "Strong " ++ r_criteria r ++ ": " ++ reason_formatted r
                  ++ " (" ++ reason_level r ++ ")")
        (firstn 3 (js_sort by_contribution_desc positiveReasons)) in
  let weaknesses :=
    map (fun r => "Weak " ++ r_criteria r ++ ": " ++ reason_formatted r
                  ++ " (" ++ reason_level r ++ ")")
        (firstn 3 (js_sort by_contribution_desc negativeReasons)) in
  let differentiators :=
    flat_map (fun '(criteria, scoreData) =>
                let score := cs_score scoreData in
                let avgScore := calculateAverageScore allOptions criteria in
                let diff := Num.sub score avgScore in
                let absdiff := match diff with Fin q => Fin (Qabs q) | NaN => NaN end in
                if Num.gt absdiff (Fin 20) then
                  let direction := if Num.gt score avgScore then "superior" else "inferior" in
                  match find (fun r => String.eqb (r_criteria r) criteria) (reasons option) with
                  | Some r => [direction ++ " " ++ criteria ++ ": " ++ reason_formatted r
                               ++ " vs competitors"]
                  | None => []
                  end
                else [])
             (criteriaScores option) in
  let contextual :=
    match rank option with
    | Some 1%nat => ["Top overall recommendation based on your priorities"]
    | Some r => if (r <=? 3)%nat
                then ["Ranked #" ++ Str.of_Z (Z.of_nat r) ++ " among viable options"]
                else []
    | None => []
    end in
  let failedOptional :=
    filter (fun r => String.eqb (cr_status r) "failed" && negb (cr_required r))
           (constraintReasons (so_constraintCompliance option)) in
  let compliance :=
    match failedOptional with
    | [] => []
    | _ => ["Fails " ++ Str.of_Z (Z.of_nat (List.length failedOptional))
            ++ " optional constraint(s)"]
    end in
  {| strengths := firstn 3 strengths;
     weaknesses := firstn 3 weaknesses;
     keyDifferentiators := firstn 4 (differentiators ++ contextual ++ compliance)%list |}.

Definition with_tradeOffs (o : ScoredOption) (t : TradeOffs) : ScoredOption :=
  {| optionId := optionId o; so_name := so_name o; totalScore := totalScore o;
     criteriaScores := criteriaScores o; reasons := reasons o;
     so_constraintCompliance := so_constraintCompliance o;
     rank := rank o; tradeOffs := Some t |}.

Definition generateTradeOffAnalysis (rankedOptions : list ScoredOption)
  (priorities : list Priority) : list ScoredOption :=
  map (fun option => with_tradeOffs option
                       (analyzeOptionTradeOffs option rankedOptions priorities))
      rankedOptions.

(* ------------------------------------------------------------------ *)
(** ** SummaryGenerator (analysis.js) *)

Definition calculateConfidence (rankedOptions : list ScoredOption) : number :=
  match rankedOptions with
  | top :: second :: _ =>
      let gap := Num.sub (totalScore top) (totalScore second) in
      let baseConfidence := Fin (1 # 2) in
      let gapBonus := Num.min2 (Num.div gap (Fin 100)) (Fin (1 # 2)) in
      roundToDecimals (Num.add baseConfidence gapBonus) 2
  | _ => Fin 1
  end.

Definition gap_phrase (gap : number) : string :=
  if Num.gt gap (Fin 15) then
    "Clear leader with " ++ num_to_string (roundToDecimals gap 1) ++ " point advantage. "
  else if Num.gt gap (Fin 8) then "Moderate edge over alternatives. "
  else if Num.gt gap (Fin 3) then "Slight advantage in close competition. "
  else "Very close competition with other options. ".

(** [topOption.tradeOffs?.strengths?.[0]]. *)
Definition top_strength (o : ScoredOption) : Datatypes.option string :=
  match tradeOffs o with
  | Some t => hd_error (strengths t)
  | None => None
  end.

Definition generateRecommendationReasoning (topOption : ScoredOption)
  (allOptions : list ScoredOption) : string :=
  let score := totalScore topOption in
  let gap := match allOptions with
             | _ :: second :: _ => Num.sub (totalScore topOption) (totalScore second)
             | _ => Fin 0
             end in
  let reasoning := "Scored " ++ num_to_string score ++ "/100 overall. " ++ gap_phrase gap in
  match top_strength topOption with
  | Some s => if String.eqb s "" then reasoning
              else reasoning ++ "Key strength: " ++ Str.toLowerCase s ++ "."
  | None => reasoning
  end.

Record TopRecommendation := mkTopRecommendation {
  tr_optionId : string;
  confidence : number;
  reasoning : string
}.

Record Summary := mkSummary {
  sm_totalOptionsEvaluated : nat;
  sm_optionsMeetingConstraints : nat;
  sm_topRecommendation : Datatypes.option TopRecommendation
}.

Definition generateSummary (scoringResults : ScoringResults) (originalOptions : list Option)
  : Summary :=
  let ranked := rankedOptions scoringResults in
  {| sm_totalOptionsEvaluated := totalOptionsEvaluated (summary scoringResults);
     sm_optionsMeetingConstraints := optionsMeetingConstraints (summary scoringResults);
     sm_topRecommendation :=
       match ranked with
       | topOption :: _ =>
           Some {| tr_optionId := optionId topOption;
                   confidence := calculateConfidence ranked;
                   reasoning := generateRecommendationReasoning topOption ranked |}
       | [] => None
       end |}.

Record ComparisonResults := mkComparisonResults {
  cmp_rankedOptions : list ScoredOption;
  cmp_summary : Summary
}.

(** [processComparison] of the API handler (the fixed-text [explanations]
    block is left out): the summary is generated from [scoringResults], as
    in the source. *)
Definition processComparison (options : list Option) (constraints : list Constraint)
  (priorities : list Priority) (settings : Settings) : ComparisonResults :=
  let scoringResults := scoreOptions options constraints priorities settings in
  let rankedOptionsWithTradeOffs :=
    generateTradeOffAnalysis (rankedOptions scoringResults) priorities in
  let summary := generateSummary scoringResults options in
  {| cmp_rankedOptions := rankedOptionsWithTradeOffs; cmp_summary := summary |}.

(* ------------------------------------------------------------------ *)
(** ** Shapes of feature data *)

(** Feature data without arrays (objects, numbers, strings, booleans and
    [null] only). *)
Fixpoint no_arrays (v : jsval) : bool :=
  match v with
  | JArr _ => false
  | JObj fs =>
      (fix go (fs : list (string * jsval)) : bool :=
         match fs with
         | [] => true
         | (_, x) :: r => no_arrays x && go r
         end) fs
  | _ => true
  end.

(** [a] is a prefix of [b], as lists of path keys. *)
Fixpoint key_prefix (a b : list string) : bool :=
  match a, b with
  | [], _ => true
  | x :: a', y :: b' => String.eqb x y && key_prefix a' b'
  | _ :: _, [] => false
  end.

(** The [reduce] of [getNestedValue] from a given start. *)
Definition walk (start : option jsval) (keys : list string) : option jsval :=
  fold_left (fun current key =>
               match current with
               | Some c => if truthy c && is_object c then get_prop c key else None
               | None => None
               end) keys start.

(* ------------------------------------------------------------------ *)
(** ** More helpers of utils.js *)

(** [clamp(value, min, max)]. *)
Definition clamp (value min max : number) : number :=
  Num.min2 (Num.max2 value min) max.

(** [median(numbers)]: the numbers that are not [NaN], sorted with the
    comparator [(a, b) => a - b]; the middle one, or the mean of the two
    middle ones. *)
Definition median (numbers : list number) : number :=
  match numbers with
  | [] => Fin 0
  | _ =>
      let validNumbers :=
        js_sort (fun a b => Num.sub a b) (filter (fun n => negb (Num.is_nan n)) numbers) in
      match validNumbers with
      | [] => Fin 0
      | _ =>
          let middle := Nat.div (List.length validNumbers) 2 in
          if Nat.even (List.length validNumbers) then
            Num.div (Num.add (nth (middle - 1) validNumbers (Fin 0))
                             (nth middle validNumbers (Fin 0))) (Fin 2)
          else nth middle validNumbers (Fin 0)
      end
  end.

(** [sanitizeString(str)] on ASCII strings: [str.replace(/[<>]/g, '')],
    then [.trim()], then [.substring(0, 1000)]. *)
Definition sanitizeString (str : option jsval) : string :=
  match str with
  | Some (JStr s) =>
      substring 0 1000
        (string_of_list_ascii
           (Parse.trim (filter (fun c => negb (Ascii.eqb c "<" || Ascii.eqb c ">"))
                               (list_ascii_of_string s))))
  | _ => ""
  end.

(* ------------------------------------------------------------------ *)
(** ** Input validation (validation.js)

    A validator returns its list of error messages ([valid] is
    [errors.length === 0]).  A validator that reads a property of every
    element of an array ([opt.id], [p.weight], [p.criteria]) throws a
    [TypeError] on a [null] element: it returns [None] then. *)

(** [!v] is false, where [v] may be [undefined]. *)
Definition opt_truthy (v : option jsval) : bool :=
  match v with Some x => truthy x | None => false end.

(** [typeof v]. *)
Definition typeof (v : option jsval) : string :=
  match v with
  | None => "undefined"
  | Some (JNum _) => "number"
  | Some (JBool _) => "boolean"
  | Some (JStr _) => "string"
  | Some (JNull | JArr _ | JObj _) => "object"
  end.

(** [Array.isArray(v)]. *)
Definition is_array (v : option jsval) : bool :=
  match v with Some (JArr _) => true | _ => false end.

(** [Object.keys(v).length]. *)
Definition keys_length (v : jsval) : nat :=
  match v with
  | JObj fs => List.length fs
  | JArr l => List.length l
  | JStr s => String.length s
  | _ => 0
  end.

(** [list.includes(v)] for a list of strings (SameValueZero). *)
Definition includes_str (l : list string) (v : option jsval) : bool :=
  match v with Some (JStr s) => existsb (String.eqb s) l | _ => false end.

(** [Math.abs]. *)
Definition num_abs (n : number) : number :=
  match n with Fin q => Fin (Qabs q) | NaN => NaN end.

(** [Number.isInteger]. *)
Definition is_integer (n : number) : bool :=
  match n with Fin q => Qeq_bool (inject_Z (Qfloor q)) q | NaN => false end.

(** [array.map(x => x[k])], which throws on a [null] element. *)
Fixpoint read_all (k : string) (l : list jsval) : option (list (option jsval)) :=
  match l with
  | [] => Some []
  | JNull :: _ => None
  | x :: r => option_map (cons (get_prop x k)) (read_all k r)
  end.

(** [.filter(x => x)]. *)
Definition filter_truthy (l : list (option jsval)) : list jsval :=
  flat_map (fun v => match v with
                     | Some x => if truthy x then [x] else []
                     | None => []
                     end) l.

(** The loop of [findDuplicates] over the two sets [seen] and
    [duplicates] (SameValueZero, insertion order). *)
Fixpoint find_dups (seen duplicates : list jsval) (l : list jsval) : list jsval :=
  match l with
  | [] => duplicates
  | item :: r =>
      if existsb (same_value_zero item) seen then
        find_dups seen
          (if existsb (same_value_zero item) duplicates then duplicates
           else (duplicates ++ [item])%list) r
      else find_dups (seen ++ [item])%list duplicates r
  end.

Definition findDuplicates (array : list jsval) : list jsval := find_dups [] [] array.

Definition index_prefix (kind : string) (index : nat) : string :=
  kind ++ " " ++ Str.of_Z (Z.of_nat (index + 1)).

Definition validateSingleOption (option : jsval) (index : nat) : list string :=
  let prefix := index_prefix "Option" index in
  if negb (truthy option) || negb (String.eqb (typeof (Some option)) "object") then
    [prefix ++ ": must be an object"]
  else
    let requiredFields := [("id", "string"); ("name", "string"); ("features", "object")] in
    let fieldErrors :=
      flat_map (fun '(field, type) =>
                  let f := get_prop option field in
                  if negb (opt_truthy f) then
                    [prefix ++ ": '" ++ field ++ "' field is required"]
                  else if String.eqb type "object"
                          && (negb (String.eqb (typeof f) "object") || is_array f) then
                    [prefix ++ ": '" ++ field ++ "' must be an object"]
                  else if String.eqb type "string" && negb (String.eqb (typeof f) "string") then
                    [prefix ++ ": '" ++ field ++ "' must be a string"]
                  else []) requiredFields in
    let featureErrors :=
      match get_prop option "features" with
      | Some fv =>
          if truthy fv && String.eqb (typeof (Some fv)) "object" && (keys_length fv =? 0)%nat
          then [prefix ++ ": 'features' cannot be empty"] else []
      | None => []
      end in
    (fieldErrors ++ featureErrors)%list.

Definition validateOptions (options : option jsval) : option (list string) :=
  if negb (opt_truthy options) then Some ["Options field is required"] else
  match options with
  | Some (JArr os) =>
      match os with
      | [] => Some ["At least one option is required"]
      | _ =>
          let e1 := if (List.length os <? 2)%nat
                    then ["At least two options are required for meaningful comparison"]
                    else [] in
          let e2 := concat (mapi_from (fun index option => validateSingleOption option index) 0 os) in
          match read_all "id" os with
          | None => None
          | Some ids =>
              let duplicateIds := findDuplicates (filter_truthy ids) in
              Some (e1 ++ e2 ++
                    match duplicateIds with
                    | [] => []
                    | _ => [("Duplicate option IDs found: "
                             ++ Str.concat_with ", " (map js_to_string duplicateIds))%string]
                    end)%list
          end
      end
  | _ => Some ["Options must be an array"]
  end.

Definition validOperators : list string :=
  ["lt"; "lte"; "gt"; "gte"; "eq"; "neq"; "in"; "contains"].

Definition validateSingleConstraint (constraint : jsval) (index : nat) : list string :=
  let prefix := index_prefix "Constraint" index in
  if negb (truthy constraint) || negb (String.eqb (typeof (Some constraint)) "object") then
    [prefix ++ ": must be an object"]
  else
    let criteria := get_prop constraint "criteria" in
    let e1 := if negb (opt_truthy criteria) then [prefix ++ ": 'criteria' field is required"]
              else if negb (String.eqb (typeof criteria) "string")
              then [prefix ++ ": 'criteria' must be a string"] else [] in
    let operator := get_prop constraint "operator" in
    let e2 := if negb (opt_truthy operator) then [prefix ++ ": 'operator' field is required"]
              else if negb (includes_str validOperators operator)
              then [prefix ++ ": 'operator' must be one of: " ++ Str.concat_with ", " validOperators]
              else [] in
    let e3 := match get_prop constraint "value" with
              | None | Some JNull => [prefix ++ ": 'value' field is required"]
              | Some _ => []
              end in
    let required := get_prop constraint "required" in
    let e4 := match required with
              | Some _ => if negb (String.eqb (typeof required) "boolean")
                          then [prefix ++ ": 'required' must be a boolean"] else []
              | None => []
              end in
    (e1 ++ e2 ++ e3 ++ e4)%list.

Definition validateConstraints (constraints : option jsval) : list string :=
  if negb (opt_truthy constraints) then ["Constraints field is required"] else
  match constraints with
  | Some (JArr cs) =>
      concat (mapi_from (fun index c => validateSingleConstraint c index) 0 cs)
  | _ => ["Constraints must be an array"]
  end.

Definition validOptimizations : list string := ["minimize"; "maximize"].

Definition validateSinglePriority (priority : jsval) (index : nat) : list string :=
  let prefix := index_prefix "Priority" index in
  if negb (truthy priority) || negb (String.eqb (typeof (Some priority)) "object") then
    [prefix ++ ": must be an object"]
  else
    let criteria := get_prop priority "criteria" in
    let e1 := if negb (opt_truthy criteria) then [prefix ++ ": 'criteria' field is required"]
              else if negb (String.eqb (typeof criteria) "string")
              then [prefix ++ ": 'criteria' must be a string"] else [] in
    let e2 := match get_prop priority "weight" with
              | None | Some JNull => [prefix ++ ": 'weight' field is required"]
              | Some (JNum (Fin w)) =>
                  if Num.lt (Fin w) (Fin 0) || Num.gt (Fin w) (Fin 1) then
                    [prefix ++ ": 'weight' must be between 0 and 1 (got "
                     ++ num_to_string (Fin w) ++ ")"]
                  else []
              | Some _ => [prefix ++ ": 'weight' must be a number"]
              end in
    let optimization := get_prop priority "optimization" in
    let e3 := if negb (opt_truthy optimization)
              then [prefix ++ ": 'optimization' field is required"]
              else if negb (includes_str validOptimizations optimization)
              then [prefix ++ ": 'optimization' must be either 'minimize' or 'maximize'"]
              else [] in
    (e1 ++ e2 ++ e3)%list.

Definition validatePriorities (priorities : option jsval) : option (list string) :=
  if negb (opt_truthy priorities) then Some ["Priorities field is required"] else
  match priorities with
  | Some (JArr ps) =>
      match ps with
      | [] => Some ["At least one priority is required"]
      | _ =>
          let e1 := concat (mapi_from (fun index p => validateSinglePriority p index) 0 ps) in
          match read_all "weight" ps with
          | None => None
          | Some weights =>
              let validWeights :=
                flat_map (fun w => match w with
                                   | Some (JNum (Fin q)) => [Fin q]
                                   | _ => []
                                   end) weights in
              let e2 :=
                match validWeights with
                | [] => []
                | _ =>
                    let totalWeight := fold_left Num.add validWeights (Fin 0) in
                    if Num.gt (num_abs (Num.sub totalWeight (Fin 1))) (Fin (1 # 100)) then
                      ["Priority weights must sum to 1.0 (current sum: "
                       ++ toFixed totalWeight 3 ++ ")"]
                    else []
                end in
              match read_all "criteria" ps with
              | None => None
              | Some cs =>
                  let duplicates := findDuplicates (filter_truthy cs) in
                  Some (e1 ++ e2 ++
                        match duplicates with
                        | [] => []
                        | _ => [("Duplicate priority criteria found: "
                                 ++ Str.concat_with ", " (map js_to_string duplicates))%string]
                        end)%list
              end
          end
      end
  | _ => Some ["Priorities must be an array"]
  end.

Definition validAlgorithms : list string := ["weighted_sum"; "topsis"; "ahp"].

Definition validateSettings (settings : option jsval) : list string :=
  if negb (opt_truthy settings) then [] else
  match settings with
  | Some (JObj fs) =>
      let algorithm := assoc_get fs "algorithm" in
      let e1 := match algorithm with
                | Some _ => if negb (includes_str validAlgorithms algorithm)
                            then ["Settings 'algorithm' must be one of: "
                                  ++ Str.concat_with ", " validAlgorithms]
                            else []
                | None => []
                end in
      let include_explanations := assoc_get fs "include_explanations" in
      let e2 := match include_explanations with
                | Some _ => if negb (String.eqb (typeof include_explanations) "boolean")
                            then ["Settings 'include_explanations' must be a boolean"] else []
                | None => []
                end in
      let e3 := match assoc_get fs "max_results" with
                | Some (JNum m) => if negb (is_integer m) || Num.lt m (Fin 1)
                                   then ["Settings 'max_results' must be a positive integer"]
                                   else []
                | Some _ => ["Settings 'max_results' must be a positive integer"]
                | None => []
                end in
      (e1 ++ e2 ++ e3)%list
  | _ => ["Settings must be an object"]
  end.

(** [prefix ? `${prefix}.${key}` : key]. *)
Definition full_key (prefix key : string) : string :=
  if String.eqb prefix "" then key else prefix ++ "." ++ key.

(** [collectFeatureKeys(obj, prefix, keySet)]: the keys added to the set,
    in order.  [Object.keys] of an array or a string lists its indices. *)
Fixpoint collectFeatureKeys (obj : jsval) (prefix : string) : list string :=
  match obj with
  | JObj fs =>
      (fix go (fs : list (string * jsval)) : list string :=
         match fs with
         | [] => []
         | (key, x) :: r =>
             full_key prefix key :: (match x with
                                     | JObj _ => collectFeatureKeys x (full_key prefix key)
                                     | _ => []
                                     end) ++ go r
         end)%list fs
  | JArr l =>
      (fix go (i : nat) (l : list jsval) : list string :=
         match l with
         | [] => []
         | x :: r =>
             let key := Str.of_Z (Z.of_nat i) in
             full_key prefix key :: (match x with
                                     | JObj _ => collectFeatureKeys x (full_key prefix key)
                                     | _ => []
                                     end) ++ go (S i) r
         end)%list 0%nat l
  | JStr s => map (fun i => full_key prefix (Str.of_Z (Z.of_nat i))) (seq 0%nat (String.length s))
  | _ => []
  end.

(** [validateCriteriaExistence(options, priorities)]; it is only called
    once both lists have been validated, so every element is an object. *)
Definition validateCriteriaExistence (options priorities : list jsval) : list string :=
  let allFeatureKeys :=
    flat_map (fun option =>
                match get_prop option "features" with
                | Some f => if truthy f && String.eqb (typeof (Some f)) "object"
                            then collectFeatureKeys f "" else []
                | None => []
                end) options in
  flat_map (fun priority =>
              let c := get_prop priority "criteria" in
              if opt_truthy c && negb (includes_str allFeatureKeys c) then
                ["Priority criteria '" ++ string_of c ++ "' not found in any option features"]
              else []) priorities.

Definition validateRequest (options constraints priorities settings : option jsval)
  : option (list string) :=
  match validateOptions options with
  | None => None
  | Some optionsErrors =>
      let constraintsErrors := validateConstraints constraints in
      match validatePriorities priorities with
      | None => None
      | Some prioritiesErrors =>
          let settingsErrors := validateSettings settings in
          let crossValidationErrors :=
            match optionsErrors, prioritiesErrors, options, priorities with
            | [], [], Some (JArr os), Some (JArr ps) => validateCriteriaExistence os ps
            | _, _, _, _ => []
            end in
          Some (optionsErrors ++ constraintsErrors ++ prioritiesErrors ++ settingsErrors
                ++ crossValidationErrors)%list
      end
  end.

(* ------------------------------------------------------------------ *)
(** ** The API handler (validation-tests.js) *)

(** The status code [handler(req, res)] sends for a request with method
    [method] and parsed body [body].  A [TypeError] thrown by the
    validators, or by [processComparison], is caught and answered with 500.
    On input that passes validation [processComparison] throws when
    [settings] is [null]: [scoreOptions] reads [settings.max_results] when
    an option passes the constraints, and [generateExplanations] reads
    [settings.algorithm]. Other throws are not modelled: a conversion of an
    object with an own [toString] key (see [no_toString]) and the engine's
    stack and argument limits on very large bodies; [handler_status_spec]
    is stated for bodies free of both. *)
Definition handler_status (method : string) (body : option jsval) : nat :=
  if negb (String.eqb method "POST") then 405 else
  match body with
  | None => 400
  | Some b =>
      if negb (truthy b) || (keys_length b =? 0)%nat then 400 else
      let options := get_prop b "options" in
      let constraints := get_prop b "constraints" in
      let priorities := get_prop b "priorities" in
      let settings := match get_prop b "settings" with
                      | None => Some (JObj [])
                      | s => s
                      end in
      match validateRequest options constraints priorities settings with
      | None => 500
      | Some (_ :: _) => 400
      | Some [] => match settings with Some JNull => 500 | _ => 200 end
      end
  end.

(* ------------------------------------------------------------------ *)
(** ** Shapes accepted by the validators *)

Definition option_shape (o : jsval) : Prop :=
  exists fs i n ffs, o = JObj fs
    /\ assoc_get fs "id" = Some (JStr i) /\ i <> ""
    /\ assoc_get fs "name" = Some (JStr n) /\ n <> ""
    /\ assoc_get fs "features" = Some (JObj ffs) /\ ffs <> [].

Definition constraint_shape (c : jsval) : Prop :=
  exists fs crit op v, c = JObj fs
    /\ assoc_get fs "criteria" = Some (JStr crit) /\ crit <> ""
    /\ assoc_get fs "operator" = Some (JStr op) /\ In op validOperators
    /\ assoc_get fs "value" = Some v /\ v <> JNull
    /\ (assoc_get fs "required" = None \/ exists b, assoc_get fs "required" = Some (JBool b)).

Definition priority_shape (p : jsval) : Prop :=
  exists fs c w opt, p = JObj fs
    /\ assoc_get fs "criteria" = Some (JStr c) /\ c <> ""
    /\ assoc_get fs "weight" = Some (JNum (Fin w)) /\ 0 <= w <= 1
    /\ assoc_get fs "optimization" = Some (JStr opt) /\ In opt validOptimizations.

Definition settings_shape (s : option jsval) : Prop :=
  opt_truthy s = false
  \/ exists fs, s = Some (JObj fs)
     /\ (assoc_get fs "algorithm" = None
         \/ exists a, assoc_get fs "algorithm" = Some (JStr a) /\ In a validAlgorithms)
     /\ (assoc_get fs "include_explanations" = None
         \/ exists b, assoc_get fs "include_explanations" = Some (JBool b))
     /\ (assoc_get fs "max_results" = None
         \/ exists q n, assoc_get fs "max_results" = Some (JNum (Fin q))
                        /\ q == inject_Z n /\ (1 <= n)%Z).

(** A string containing ["."]. *)
Fixpoint has_dot (s : string) : bool :=
  match s with
  | EmptyString => false
  | String c r => Ascii.eqb c "." || has_dot r
  end.

(** Feature data without arrays, whose keys, at every depth, are
    non-empty, free of ["."] and distinct within their object. *)
Fixpoint plain_keys (v : jsval) : bool :=
  match v with
  | JArr _ => false
  | JObj fs =>
      (fix go (fs : list (string * jsval)) : bool :=
         match fs with
         | [] => true
         | (k, x) :: r =>
             negb (String.eqb k "") && negb (has_dot k)
             && negb (existsb (fun kv => String.eqb k (fst kv)) r)
             && plain_keys x && go r
         end) fs
  | _ => true
  end.

(* ------------------------------------------------------------------ *)
(** ** Inputs that the model reads as JavaScript does *)

(** The own properties of [Object.prototype]: a property read finds them
    on every object that has no own key of that name. *)
Definition object_prototype_keys : list string :=
  ["constructor"; "__proto__"; "hasOwnProperty"; "isPrototypeOf";
   "propertyIsEnumerable"; "toString"; "toLocaleString"; "valueOf";
   "__defineGetter__"; "__defineSetter__"; "__lookupGetter__"; "__lookupSetter__"].

(** A dotted path none of whose keys names a member of [Object.prototype]. *)
Definition plain_path (path : string) : bool :=
  forallb (fun k => negb (existsb (String.eqb k) object_prototype_keys)) (split_dot path).

Definition has_key (fs : list (string * jsval)) (k : string) : bool :=
  existsb (fun kv => String.eqb (fst kv) k) fs.

(** No object, at any depth, has an own [toString] key: converting any
    part of the value to a number or a string does not throw. *)
Fixpoint no_toString (v : jsval) : bool :=
  match v with
  | JArr l =>
      (fix go (l : list jsval) : bool :=
         match l with [] => true | x :: r => no_toString x && go r end) l
  | JObj fs =>
      negb (has_key fs "toString")
      && (fix go (fs : list (string * jsval)) : bool :=
            match fs with [] => true | (_, x) :: r => no_toString x && go r end) fs
  | _ => true
  end.

Definition ascii7 (s : string) : bool :=
  forallb (fun c => (nat_of_ascii c <? 128)%nat) (list_ascii_of_string s).

(** A bound on magnitudes, far below the largest double (about [2^1024]):
    sums, differences and products by small factors of such numbers do
    not overflow. *)
Definition js_bound : Q := inject_Z (2 ^ 500).

Definition bounded (q : Q) : bool := Qle_bool (Qabs q) js_bound.

(** A feature value that converts to the same number in the model and in
    JavaScript: a bounded number, a boolean, [null], an object without an
    own [toString] key, or an ASCII string that does not mention
    ["Infinity"] and reads as [NaN] or as a bounded number. *)
Definition tame_value (v : jsval) : bool :=
  match v with
  | JNum (Fin q) => bounded q
  | JNum NaN | JBool _ | JNull => true
  | JStr s =>
      ascii7 s && negb (Str.includes s "Infinity")
      && match Parse.string_to_number s with Fin q => bounded q | NaN => true end
  | JArr _ => false
  | JObj _ => no_toString v
  end.

(** The number of values in a JSON value. *)
Fixpoint js_size (v : jsval) : nat :=
  match v with
  | JArr l =>
      S ((fix go (l : list jsval) : nat :=
            match l with [] => O | x :: r => (js_size x + go r)%nat end) l)
  | JObj fs =>
      S ((fix go (fs : list (string * jsval)) : nat :=
            match fs with [] => O | (_, x) :: r => (js_size x + go r)%nat end) fs)
  | _ => 1
  end.

(* ------------------------------------------------------------------ *)
(** ** Concrete inputs *)

Definition feat (l : list (string * Q)) : jsval :=
  JObj (map (fun '(k, q) => (k, JNum (Fin q))) l).

(** Scenario A of the specification. *)
Definition scenarioA_options : list Option :=
  [mkOption "opt1" "Option1" (feat [("cost", 100); ("performance", 80)]);
   mkOption "opt2" "Option2" (feat [("cost", 150); ("performance", 90)])].

Definition scenarioA_priorities : list Priority :=
  [mkPriority "cost" (6 # 10) "minimize";
   mkPriority "performance" (4 # 10) "maximize"].

(** Three options on one maximized criterion; scores 0, 87.66 and 100. *)
Definition close_gap_options : list Option :=
  [mkOption "a" "A" (feat [("x", 0)]); mkOption "b" "B" (feat [("x", 8766)]);
   mkOption "c" "C" (feat [("x", 10000)])].

Definition single_x_priority : list Priority := [mkPriority "x" 1 "maximize"].

(** Four equally weighted criteria; option B sits at 0.024% of each range. *)
Definition four_criteria (q : Q) : jsval :=
  feat [("c1", q); ("c2", q); ("c3", q); ("c4", q)].

Definition rounding_options : list Option :=
  [mkOption "a" "A" (four_criteria 0); mkOption "b" "B" (four_criteria 24);
   mkOption "c" "C" (four_criteria 100000)].

Definition four_priorities : list Priority :=
  [mkPriority "c1" (1 # 4) "maximize"; mkPriority "c2" (1 # 4) "maximize";
   mkPriority "c3" (1 # 4) "maximize"; mkPriority "c4" (1 # 4) "maximize"].

(** A non-numeric string under a criterion whose numeric values differ. *)
Definition string_feature_options : list Option :=
  [mkOption "a" "A" (feat [("x", 1)]); mkOption "b" "B" (feat [("x", 3)]);
   mkOption "c" "C" (JObj [("x", JStr "fast")])].

Definition no_limit : Settings := mkSettings None.

(** Three options on one maximized criterion, the middle one holding a
    string that does not read as a number: totals 0, [NaN] and 100. *)
Definition cycle_options : list Option :=
  [mkOption "a" "A" (feat [("x", 1)]); mkOption "c" "C" (JObj [("x", JStr "fast")]);
   mkOption "b" "B" (feat [("x", 3)])].

(** The ranking order as the specification words it: a permutation of the
    scored options (given in input order) in which no option follows one
    with a smaller [totalScore], and in which two options neither of which
    has the larger total (a tie for the comparator) keep their input
    order. *)
Definition claimed_ranking (input out : list ScoredOption) : Prop :=
  Permutation out input
  /\ forall i j x y, (i < j)%nat -> nth_error out i = Some x -> nth_error out j = Some y ->
       Num.gt (totalScore y) (totalScore x) = false
       /\ (Num.gt (totalScore x) (totalScore y) = false ->
           forall ix iy, nth_error input ix = Some x -> nth_error input iy = Some y ->
                         (ix < iy)%nat).

(** The confidence formula as the specification words it:
    [clamp(0.5 + min(gap/100, 0.5), 0, 1)]. *)
Definition claimed_confidence (gap : Q) : Q :=
  Qmax 0 (Qmin 1 ((1 # 2) + Qmin (gap / 100) (1 # 2))).

(* ================================================================== *)
(** * Properties *)

(** C2: on Scenario A (no constraints; cost weight 0.6 minimized,
    performance weight 0.4 maximized) Option1 scores 60 and ranks first,
    Option2 scores 40 and ranks second. *)
Theorem scenarioA_ranking :
  map (fun o => (optionId o, totalScore o, rank o))
      (rankedOptions (scoreOptions scenarioA_options [] scenarioA_priorities no_limit))
  = [("opt1", Fin 60, Some 1%nat); ("opt2", Fin 40, Some 2%nat)].
Proof. vm_compute. reflexivity. Qed.

(** C5 (counterexample): scores 100, 87.66 and 0 give a gap of 12.34;
    the code reports confidence 0.62 (rounded to two decimals) where the
    clamp formula gives 0.6234. *)
Lemma confidence_rounded_counterexample :
  match sm_topRecommendation
          (cmp_summary (processComparison close_gap_options [] single_x_priority no_limit)) with
  | Some tr => confidence tr = Fin (31 # 50)
  | None => False
  end
  /\ map totalScore (rankedOptions (scoreOptions close_gap_options [] single_x_priority no_limit))
     = [Fin 100; Fin (4383 # 50); Fin 0]
  /\ ~ (31 # 50 == claimed_confidence (100 - 4383 # 50)).
Proof.
  split; [vm_compute; reflexivity|].
  split; [vm_compute; reflexivity|].
  unfold claimed_confidence. vm_compute. discriminate.
Qed.

Lemma claimed_before (input out : list ScoredOption) (x y : ScoredOption)
  (ix iy px py : nat) :
  claimed_ranking input out -> nth_error out px = Some x -> nth_error out py = Some y ->
  nth_error input ix = Some x -> nth_error input iy = Some y -> x <> y ->
  (Num.gt (totalScore y) (totalScore x) = true -> (py < px)%nat)
  /\ (Num.gt (totalScore x) (totalScore y) = false ->
      Num.gt (totalScore y) (totalScore x) = false -> (iy < ix)%nat -> (py < px)%nat).
Proof.
  intros [_ H] Hpx Hpy Hix Hiy Hxy.
  assert (Hne : px <> py) by (intros ->; congruence).
  split.
  - intros Hg. destruct (Nat.lt_ge_cases py px) as [Hl|Hl]; [exact Hl|].
    destruct (H px py x y ltac:(lia) Hpx Hpy) as [Hf _]. congruence.
  - intros Hg1 Hg2 Hi. destruct (Nat.lt_ge_cases py px) as [Hl|Hl]; [exact Hl|].
    destruct (H px py x y ltac:(lia) Hpx Hpy) as [_ Ht].
    specialize (Ht Hg1 ix iy Hix Hiy). lia.
Qed.

(** C3 (counterexample): options A, C and B in this order score 0, [NaN]
    (C holds the string "fast") and 100.  The comparator
    [b.totalScore - a.totalScore] ranks B before A, and ties A with C and
    C with B, so no order of the three options is sorted by descending
    [totalScore] with ties in input order.  (V8's sort returns the input
    order A, C, B here: A is ranked first with a total of 0, ahead of B
    with 100; the model's insertion sort returns B, A, C.) *)
Lemma ranking_cycle_counterexample :
  map totalScore (calculateWeightedScores (validOptions (applyConstraints cycle_options []))
                                          single_x_priority)
    = [Fin 0; NaN; Fin 100]
  /\ forall out, ~ claimed_ranking (calculateWeightedScores
                                      (validOptions (applyConstraints cycle_options []))
                                      single_x_priority) out.
Proof.
  set (L := calculateWeightedScores (validOptions (applyConstraints cycle_options []))
                                    single_x_priority).
  assert (HL : map totalScore L = [Fin 0; NaN; Fin 100]) by (vm_compute; reflexivity).
  split; [exact HL|]. intros out Hc.
  destruct L as [|a [|c [|b [|? ?]]]]; try discriminate HL.
  injection HL as Ha Hc' Hb.
  assert (Hin : forall z, In z [a; c; b] -> exists k, nth_error out k = Some z).
  { intros z Hz. apply In_nth_error. destruct Hc as [Hp _].
    exact (Permutation_in _ (Permutation_sym Hp) Hz). }
  destruct (Hin a ltac:(simpl; tauto)) as [pa Hpa].
  destruct (Hin c ltac:(simpl; tauto)) as [pc Hpc].
  destruct (Hin b ltac:(simpl; tauto)) as [pb Hpb].
  assert (Dab : a <> b) by (intros ->; congruence).
  assert (Dca : c <> a) by (intros ->; congruence).
  assert (Dbc : b <> c) by (intros ->; congruence).
  destruct (claimed_before _ _ a b 0 2 pa pb Hc Hpa Hpb eq_refl eq_refl Dab) as [H1 _].
  destruct (claimed_before _ _ c a 1 0 pc pa Hc Hpc Hpa eq_refl eq_refl Dca) as [_ H2].
  destruct (claimed_before _ _ b c 2 1 pb pc Hc Hpb Hpc eq_refl eq_refl Dbc) as [_ H3].
  rewrite Ha, Hb, Hc' in *.
  specialize (H1 eq_refl). specialize (H2 eq_refl eq_refl ltac:(lia)).
  specialize (H3 eq_refl eq_refl ltac:(lia)). lia.
Qed.

(** C6 (counterexample): with four criteria of weight 0.25, option B
    scores 0.024 on each; every weightContribution rounds up to 0.01
    (sum 0.04) while totalScore is 0.02. *)
Lemma contribution_sum_counterexample :
  match nth_error (rankedOptions (scoreOptions rounding_options [] four_priorities no_limit)) 1 with
  | Some o =>
      optionId o = "b"
      /\ forallb (fun r => negb (String.eqb (status r) "missing_data")) (reasons o) = true
      /\ map weightContribution (reasons o) = [Fin (1 # 100); Fin (1 # 100); Fin (1 # 100); Fin (1 # 100)]
      /\ totalScore o = Fin (1 # 50)
      /\ 1 # 100 < Qabs ((1 # 50) - 4 * (1 # 100))
  | None => False
  end.
Proof. vm_compute. repeat split; reflexivity. Qed.

(** C4 (counterexample): for a criterion whose numeric values span
    [1, 3], the option holding the string "fast" gets NaN at that path,
    which is not in [0, 1]. *)
Lemma normalized_string_is_nan :
  criteriaRanges (validOptions (applyConstraints string_feature_options [])) single_x_priority
    = [("x", mkRange 1 3 2)]
  /\ map (fun no => getNestedValue (Some (normalizedFeatures no)) "x")
         (normalizeOptionValues (validOptions (applyConstraints string_feature_options []))
                                single_x_priority)
     = [Some (JNum (Fin 0)); Some (JNum (Fin 1)); Some (JNum NaN)].
Proof. split; vm_compute; reflexivity. Qed.


(** C9 (counterexample): matching is case-sensitive ("Cost" is not
    formatted as currency) and "performance" values keep up to three
    fraction digits. *)
Lemma format_counterexample :
  formatDisplayValue (Some (JNum (Fin 5))) "Cost" = "5.0"
  /\ "5.0" <> "$" ++ toFixed (Fin 5) 3
  /\ formatDisplayValue (Some (JNum (Fin (25005 # 10)))) "performance" = "2,500.5".
Proof.
  split; [vm_compute; reflexivity|].
  split; [vm_compute; discriminate|].
  vm_compute; reflexivity.
Qed.

(** C7 (divergence): in Scenario A run through [processComparison] the
    trade-off analysis gives the leader opt1 the strength "Strong cost:
    $100.000 (very low)", but the summary is generated from the scoring
    results, whose ranked options carry no trade-offs, so the reasoning
    has no "Key strength" clause. *)
Lemma key_strength_dropped :
  let res := processComparison scenarioA_options [] scenarioA_priorities no_limit in
  map (fun o => (optionId o, option_map strengths (tradeOffs o))) (cmp_rankedOptions res)
    = [("opt1", Some ["Strong cost: $100.000 (very low)"]);
       ("opt2", Some ["Strong performance: 90 (excellent)"])]
  /\ option_map reasoning (sm_topRecommendation (cmp_summary res))
     = Some "Scored 60/100 overall. Clear leader with 20 point advantage. ".
Proof. vm_compute. split; reflexivity. Qed.

(* ------------------------------------------------------------------ *)
(** ** Association lists *)

Lemma assoc_get_put {A : Type} (fs : list (string * A)) (k c : string) (v : A) :
  assoc_get (assoc_put fs k v) c = if String.eqb c k then Some v else assoc_get fs c.
Proof.
  induction fs as [|[k' v'] r IH]; simpl.
  - reflexivity.
  - destruct (String.eqb k k') eqn:Ekk'; simpl.
    + apply String.eqb_eq in Ekk'. subst k'.
      destruct (String.eqb c k); reflexivity.
    + rewrite IH. destruct (String.eqb c k') eqn:Eck'; [|reflexivity].
      apply String.eqb_eq in Eck'. subst c.
      rewrite String.eqb_sym, Ekk'. reflexivity.
Qed.

(* ------------------------------------------------------------------ *)
(** ** The loop of calculateWeightedScores *)

Section ScoreLoop.

Variable criteriaStats : list (string * Stats).
Variable option : NormalizedOption.

Local Abbreviation F := (fold_left (score_step criteriaStats option)).

(** The reasons already collected are a prefix that the loop never reads. *)
Lemma score_fold_reasons_prefix (l : list Priority) cs rs t :
  F l (cs, rs, t) =
  let '(cs', rs', t') := F l (cs, [], t) in (cs', (rs ++ rs')%list, t').
Proof.
  revert cs rs t. induction l as [|p l IH]; intros cs rs t; simpl.
  - rewrite app_nil_r. reflexivity.
  - unfold score_step.
    destruct (calculateCriteriaScore option p criteriaStats) as [r|];
      rewrite IH; symmetry; rewrite IH;
      destruct (F l _) as [[cs' rs'] t']; simpl; rewrite <- app_assoc; reflexivity.
Qed.

Lemma score_fold_reasons_length (l : list Priority) cs rs t :
  List.length (snd (fst (F l (cs, rs, t)))) = (List.length rs + List.length l)%nat.
Proof.
  revert cs rs t. induction l as [|p l IH]; intros cs rs t; simpl.
  - lia.
  - unfold score_step.
    destruct (calculateCriteriaScore option p criteriaStats);
      rewrite IH, length_app; simpl; lia.
Qed.

Lemma calculateCriteriaScore_same_criteria (p q : Priority) :
  criteria q = criteria p ->
  calculateCriteriaScore option p criteriaStats = None ->
  calculateCriteriaScore option q criteriaStats = None.
Proof.
  intros Hc. unfold calculateCriteriaScore. rewrite Hc.
  destruct (getNestedValue (Some (normalizedFeatures option)) (criteria p)),
    (getNestedValue (Some (features (vo_option (no_valid option)))) (criteria p));
    congruence.
Qed.

(** A criterion whose data is missing never gets a [criteriaScores] entry. *)
Lemma score_fold_no_entry (p : Priority) (l : list Priority) cs rs t :
  calculateCriteriaScore option p criteriaStats = None ->
  assoc_get cs (criteria p) = None ->
  assoc_get (fst (fst (F l (cs, rs, t)))) (criteria p) = None.
Proof.
  intros Hp. revert cs rs t. induction l as [|q l IH]; intros cs rs t Hcs; simpl.
  - exact Hcs.
  - unfold score_step.
    destruct (calculateCriteriaScore option q criteriaStats) as [r|] eqn:Eq.
    + apply IH. rewrite assoc_get_put.
      destruct (String.eqb (criteria p) (criteria q)) eqn:E; [|exact Hcs].
      apply String.eqb_eq in E.
      rewrite (calculateCriteriaScore_same_criteria p q (eq_sym E) Hp) in Eq.
      discriminate.
    + apply IH. exact Hcs.
Qed.

Lemma score_step_missing (p : Priority) cs rs t :
  calculateCriteriaScore option p criteriaStats = None ->
  score_step criteriaStats option (cs, rs, t) p
  = (cs, (rs ++ [missing_reason p (name (vo_option (no_valid option)))])%list, t).
Proof. intros H. unfold score_step. rewrite H. reflexivity. Qed.

End ScoreLoop.

(** C8: when the value at a priority's path is absent from the normalized
    or from the original features, the scorer records a [missing_data]
    reason (impact [neutral], weightContribution 0) at that priority's
    place, adds no [criteriaScores] entry for the criterion, and the
    option's totalScore and criteriaScores are those obtained without that
    priority. *)
Theorem missing_data_contributes_nothing
  (criteriaStats : list (string * Stats)) (pre post : list Priority)
  (p : Priority) (option : NormalizedOption) :
  getNestedValue (Some (normalizedFeatures option)) (criteria p) = None
  \/ getNestedValue (Some (features (vo_option (no_valid option)))) (criteria p) = None ->
  let s := score_option criteriaStats (pre ++ p :: post) option in
  let s' := score_option criteriaStats (pre ++ post) option in
  exists r,
    nth_error (reasons s) (List.length pre) = Some r
    /\ r_criteria r = criteria p /\ status r = "missing_data"
    /\ impact r = "neutral" /\ weightContribution r = Fin 0
    /\ reasons s = (firstn (List.length pre) (reasons s') ++ r
                      :: skipn (List.length pre) (reasons s'))%list
    /\ totalScore s = totalScore s'
    /\ criteriaScores s = criteriaScores s'
    /\ assoc_get (criteriaScores s) (criteria p) = None.
Proof.
  intros Hmiss s s'.
  assert (Hnone : calculateCriteriaScore option p criteriaStats = None).
  { unfold calculateCriteriaScore.
    destruct Hmiss as [H | H]; rewrite H; [reflexivity|].
    destruct (getNestedValue (Some (normalizedFeatures option)) (criteria p));
      reflexivity. }
  set (m := missing_reason p (name (vo_option (no_valid option)))).
  exists m.
  subst s s'. unfold score_option.
  rewrite !fold_left_app. cbn [fold_left].
  destruct (fold_left (score_step criteriaStats option) pre ([], [], Fin 0))
    as [[cs0 rs0] t0] eqn:Epre.
  assert (Hlen : List.length rs0 = List.length pre).
  { pose proof (score_fold_reasons_length criteriaStats option pre [] [] (Fin 0)) as L.
    rewrite Epre in L. simpl in L. exact L. }
  assert (Hentry : assoc_get cs0 (criteria p) = None).
  { pose proof (score_fold_no_entry criteriaStats option p pre [] [] (Fin 0) Hnone
                  eq_refl) as E.
    rewrite Epre in E. exact E. }
  rewrite (score_step_missing criteriaStats option p cs0 rs0 t0 Hnone). fold m.
  rewrite (score_fold_reasons_prefix criteriaStats option post cs0 (rs0 ++ [m])%list t0).
  rewrite (score_fold_reasons_prefix criteriaStats option post cs0 rs0 t0).
  pose proof (score_fold_no_entry criteriaStats option p post cs0 [] t0 Hnone Hentry)
    as Hpost.
  destruct (fold_left (score_step criteriaStats option) post (cs0, [], t0))
    as [[cs1 rs1] t1] eqn:Epost.
  simpl in Hpost |- *.
  rewrite <- Hlen, firstn_app, skipn_app, firstn_all, skipn_all, Nat.sub_diag.
  simpl. rewrite app_nil_r, <- app_assoc.
  repeat split; try reflexivity.
  - rewrite nth_error_app2, Nat.sub_diag by lia. reflexivity.
  - exact Hpost.
Qed.

(* ------------------------------------------------------------------ *)
(** ** Percentile *)



(* ------------------------------------------------------------------ *)
(** ** Display formatting *)

(** C9: display formatting takes the first matching rule by
    case-sensitive substring match on the criterion name: "cost"/"price"
    give [$] and [toFixed(3)]; "percent"/"reliability"/"uptime" append
    [%] to the number's text; "performance"/"iops" use the en-US locale
    format (thousands separators, up to three fraction digits); otherwise
    values below 1 use [toFixed(3)], below 100 [toFixed(1)], and the rest
    the locale format of the rounded value.  [toFixed] prints [d]
    decimals for a magnitude below [10^21] and the exponent notation of
    [Number::toString] from [10^21] on.  Values that are not numbers
    render as [String(value)] when that does not throw (no object with an
    own [toString] key). *)
Theorem formatDisplayValue_rules (v : number) (c : string) (x : jsval) :
  let fv := formatDisplayValue (Some (JNum v)) c in
  let money := Str.includes c "cost" || Str.includes c "price" in
  let pct := Str.includes c "percent" || Str.includes c "reliability"
             || Str.includes c "uptime" in
  let perf := Str.includes c "performance" || Str.includes c "iops" in
  (money = true -> fv = "$" ++ toFixed v 3)
  /\ (money = false -> pct = true -> fv = num_to_string v ++ "%")
  /\ (money = false -> pct = false -> perf = true -> fv = toLocaleString v)
  /\ (money = false -> pct = false -> perf = false ->
      Num.lt v (Fin 1) = true -> fv = toFixed v 3)
  /\ (money = false -> pct = false -> perf = false ->
      Num.lt v (Fin 1) = false -> Num.lt v (Fin 100) = true -> fv = toFixed v 1)
  /\ (money = false -> pct = false -> perf = false ->
      Num.lt v (Fin 1) = false -> Num.lt v (Fin 100) = false ->
      fv = toLocaleString (Num.round v))
  /\ ((forall n, x <> JNum n) -> no_toString x = true ->
      formatDisplayValue (Some x) c = js_to_string x)
  /\ formatDisplayValue None c = "undefined".
Proof.
  intros fv money pct perf. subst fv money pct perf.
  unfold formatDisplayValue.
  repeat split; intros;
    repeat match goal with H : _ = _ |- _ => rewrite H end;
    try reflexivity.
  destruct x; try reflexivity. exfalso. eapply H; reflexivity.
Qed.

(* ------------------------------------------------------------------ *)
(** ** Comparisons, sorting and the ranked list *)

Lemma gt_fin_true (x y : Q) : y < x -> Num.gt (Fin x) (Fin y) = true.
Proof.
  intros H. unfold Num.gt, Num.lt. apply negb_true_iff.
  destruct (Qle_bool x y) eqn:E; [|reflexivity].
  apply Qle_bool_iff in E. exfalso. apply (Qlt_not_le y x); assumption.
Qed.

Lemma gt_fin_false (x y : Q) : x <= y -> Num.gt (Fin x) (Fin y) = false.
Proof.
  intros H. unfold Num.gt, Num.lt. apply negb_false_iff, Qle_bool_iff. exact H.
Qed.

Lemma str_app_assoc (a b c : string) : ((a ++ b) ++ c)%string = (a ++ b ++ c)%string.
Proof. induction a as [|ch a IH]; simpl; [reflexivity | rewrite IH; reflexivity]. Qed.

Lemma sort_insert_perm {A : Type} (cmp : A -> A -> number) (x : A) (l : list A) :
  Permutation (sort_insert cmp x l) (x :: l).
Proof.
  induction l as [|e r IH]; cbn [sort_insert]; [reflexivity|].
  destruct (Num.gt (cmp e x) (Fin 0)); [reflexivity|].
  etransitivity; [apply perm_skip, IH | apply perm_swap].
Qed.

Lemma js_sort_fold_perm {A : Type} (cmp : A -> A -> number) (l acc : list A) :
  Permutation (fold_left (fun acc x => sort_insert cmp x acc) l acc) (l ++ acc).
Proof.
  revert acc. induction l as [|x l IH]; intros acc; simpl; [reflexivity|].
  etransitivity; [apply IH|].
  rewrite (sort_insert_perm cmp x acc). symmetry. apply Permutation_middle.
Qed.

Lemma js_sort_perm {A : Type} (cmp : A -> A -> number) (l : list A) :
  Permutation (js_sort cmp l) l.
Proof.
  unfold js_sort. etransitivity; [apply js_sort_fold_perm|].
  rewrite app_nil_r. reflexivity.
Qed.

Lemma in_mapi_from {A B : Type} (f : nat -> A -> B) (i : nat) (l : list A) (y : B) :
  In y (mapi_from f i l) -> exists k x, In x l /\ y = f k x.
Proof.
  revert i. induction l as [|x r IH]; intros i H; simpl in H; [contradiction|].
  destruct H as [H|H].
  - exists i, x. split; [left; reflexivity | symmetry; exact H].
  - destruct (IH _ H) as (k & x' & Hin & ->). exists k, x'. split; [right; exact Hin | reflexivity].
Qed.

Lemma in_limit_results (st : Settings) (l : list ScoredOption) (x : ScoredOption) :
  In x (limit_results st l) -> In x l.
Proof.
  unfold limit_results. destruct (max_results st) as [[|n]|]; try tauto.
  intros H. rewrite <- (firstn_skipn (S n) l). apply in_or_app. left. exact H.
Qed.

Lemma ranked_from_scored (options : list Option) (cs : list Constraint)
  (ps : list Priority) (st : Settings) (r : ScoredOption) :
  In r (rankedOptions (scoreOptions options cs ps st)) ->
  exists so k, In so (calculateWeightedScores (validOptions (applyConstraints options cs)) ps)
               /\ r = with_rank so k.
Proof.
  unfold scoreOptions. cbv zeta.
  destruct (validOptions (applyConstraints options cs)) as [|v vs] eqn:E;
    cbn [rankedOptions]; [contradiction|].
  intros H. apply in_limit_results, in_mapi_from in H as (k & x & Hx & ->).
  exists x, (k + 1)%nat. split; [|reflexivity].
  exact (Permutation_in _ (js_sort_perm _ _) Hx).
Qed.

Lemma scored_no_tradeOffs (vs : list ValidOption) (ps : list Priority) (so : ScoredOption) :
  In so (calculateWeightedScores vs ps) -> tradeOffs so = None.
Proof.
  unfold calculateWeightedScores. intros H. apply in_map_iff in H as (o & <- & _).
  unfold score_option. destruct (fold_left _ _ _) as [[c r] t]. reflexivity.
Qed.

Lemma ranked_no_tradeOffs (options : list Option) (cs : list Constraint)
  (ps : list Priority) (st : Settings) :
  Forall (fun o => top_strength o = None) (rankedOptions (scoreOptions options cs ps st)).
Proof.
  apply Forall_forall. intros r Hr.
  destruct (ranked_from_scored _ _ _ _ _ Hr) as (so & k & Hso & ->).
  unfold top_strength. cbn [tradeOffs with_rank].
  rewrite (scored_no_tradeOffs _ _ _ Hso). reflexivity.
Qed.

(** Claim C7 (amended). When the ranked list handed to [generateSummary]
    starts with [top], the reasoning is ["Scored <score>/100 overall. "]
    followed by the gap phrase, where the gap is [top - second] (0 with a
    single option) and the phrase is chosen by the thresholds 15, 8 and 3
    (a [NaN] gap gives the last phrase); ["Key strength: <s lower-cased>."]
    follows only when the top option carries a non-empty first strength
    [s]. In the pipeline ([processComparison]) the summary is generated
    from the scoring results, whose ranked options carry no trade-offs, so
    the key-strength clause never appears there. *)
Theorem recommendation_reasoning_text (res : ScoringResults) (os : list Option) :
  match rankedOptions res with
  | [] => sm_topRecommendation (generateSummary res os) = None
  | top :: rest =>
      let gap := match rest with
                 | second :: _ => Num.sub (totalScore top) (totalScore second)
                 | [] => Fin 0
                 end in
      let base := ("Scored " ++ num_to_string (totalScore top) ++ "/100 overall. "
                   ++ gap_phrase gap)%string in
      (exists tr, sm_topRecommendation (generateSummary res os) = Some tr
        /\ tr_optionId tr = optionId top
        /\ (forall s, top_strength top = Some s -> s <> "" ->
              reasoning tr = (base ++ "Key strength: " ++ Str.toLowerCase s ++ ".")%string)
        /\ ((forall s, top_strength top = Some s -> s = "") -> reasoning tr = base))
      /\ (forall q, gap = Fin q -> 15 < q ->
            gap_phrase gap = ("Clear leader with " ++ num_to_string (roundToDecimals gap 1)
                              ++ " point advantage. ")%string)
      /\ (forall q, gap = Fin q -> 8 < q <= 15 ->
            gap_phrase gap = "Moderate edge over alternatives. ")
      /\ (forall q, gap = Fin q -> 3 < q <= 8 ->
            gap_phrase gap = "Slight advantage in close competition. ")
      /\ (forall q, gap = Fin q -> q <= 3 ->
            gap_phrase gap = "Very close competition with other options. ")
      /\ (gap = NaN -> gap_phrase gap = "Very close competition with other options. ")
  end
  /\ (forall options cs ps st,
        cmp_summary (processComparison options cs ps st)
          = generateSummary (scoreOptions options cs ps st) options
        /\ Forall (fun o => top_strength o = None)
                  (rankedOptions (scoreOptions options cs ps st))).
Proof.
  split.
  - unfold generateSummary. cbv zeta.
    destruct (rankedOptions res) as [|top rest]; [reflexivity|].
    split; [|split; [|split; [|split; [|split]]]].
    + eexists. split; [reflexivity|]. cbn [tr_optionId reasoning].
      split; [reflexivity|].
      unfold generateRecommendationReasoning. cbv zeta.
      split.
      * intros s Hs Hne. rewrite Hs.
        destruct (String.eqb s "") eqn:E.
        { apply String.eqb_eq in E. contradiction. }
        rewrite !str_app_assoc. destruct rest; reflexivity.
      * intros Hs. destruct (top_strength top) as [s|] eqn:E; [|destruct rest; reflexivity].
        rewrite (Hs s eq_refl). destruct rest; reflexivity.
    + intros q -> Hq. unfold gap_phrase. rewrite gt_fin_true by exact Hq. reflexivity.
    + intros q -> [Hq1 Hq2]. unfold gap_phrase.
      rewrite gt_fin_false by exact Hq2. rewrite gt_fin_true by exact Hq1. reflexivity.
    + intros q -> [Hq1 Hq2]. unfold gap_phrase.
      rewrite gt_fin_false by (apply (Qle_trans _ 8); [exact Hq2 | vm_compute; discriminate]).
      rewrite gt_fin_false by exact Hq2. rewrite gt_fin_true by exact Hq1. reflexivity.
    + intros q -> Hq. unfold gap_phrase.
      rewrite gt_fin_false by (apply (Qle_trans _ 3); [exact Hq | vm_compute; discriminate]).
      rewrite gt_fin_false by (apply (Qle_trans _ 3); [exact Hq | vm_compute; discriminate]).
      rewrite gt_fin_false by exact Hq. reflexivity.
    + intros ->. reflexivity.
  - intros options cs ps st. split; [reflexivity | apply ranked_no_tradeOffs].
Qed.

(* ------------------------------------------------------------------ *)
(** ** Rounding of the total and of the weight contributions *)

Lemma round2_close (x : Q) : exists y, round2 (Fin x) = Fin y /\ Qabs (y - x) <= 1 # 200.
Proof.
  eexists. split; [reflexivity|].
  pose proof (Qfloor_le (Qred (x * 100) + (1 # 2))) as H1.
  pose proof (Qlt_floor (Qred (x * 100) + (1 # 2))) as H2.
  pose proof (Qred_correct (x * 100)) as Hz.
  generalize dependent (Qfloor (Qred (x * 100) + (1 # 2))). intros f H1 H2.
  generalize dependent (Qred (x * 100)). intros z Hz H1 H2.
  rewrite Qred_correct. unfold Qdiv. change (/ 100) with (1 # 100).
  rewrite inject_Z_plus in H2. change (inject_Z 1) with 1 in H2.
  apply Qabs_Qle_condition. split; lra.
Qed.

Lemma sumQ_app_single (ws : list Q) (c : Q) :
  fold_right Qplus 0 (ws ++ [c])%list == fold_right Qplus 0 ws + c.
Proof.
  induction ws as [|w ws IH]; simpl; [ring | rewrite IH; ring].
Qed.

Lemma generateCriteriaReason_contribution (p : Priority) (rv : jsval) (sc : number)
  (st : option Stats) (nm : string) :
  weightContribution (generateCriteriaReason p rv sc st nm)
  = round2 (Num.mul sc (Fin (weight p))).
Proof.
  unfold generateCriteriaReason. cbv zeta.
  match goal with |- context [match ?e with pair _ _ => _ end] => destruct e end.
  reflexivity.
Qed.

Section ScoreBound.
Variable criteriaStats : list (string * Stats).
Variable option : NormalizedOption.

Local Abbreviation numeric_at p :=
  (forall nv, getNestedValue (Some (normalizedFeatures option)) (criteria p) = Some nv ->
              to_number nv <> NaN).

Lemma score_step_bound cs rs T ws (p : Priority)
  (Hws : map weightContribution rs = map Fin ws) (Hp : numeric_at p) :
  exists cs' rs' T' ws',
    score_step criteriaStats option (cs, rs, Fin T) p = (cs', rs', Fin T')
    /\ map weightContribution rs' = map Fin ws'
    /\ Qabs ((T' - fold_right Qplus 0 ws') - (T - fold_right Qplus 0 ws))
         <= (Qabs (weight p) + 1) * (1 # 200).
Proof.
  assert (Hw : 0 <= (Qabs (weight p) + 1) * (1 # 200)).
  { pose proof (Qabs_nonneg (weight p)). generalize dependent (Qabs (weight p)).
    intros a Ha. lra. }
  unfold score_step, calculateCriteriaScore.
  destruct (getNestedValue (Some (normalizedFeatures option)) (criteria p)) as [nv|] eqn:En;
    [destruct (getNestedValue (Some (features (vo_option (no_valid option)))) (criteria p))
       as [rv|] eqn:Er|].
  2, 3:
    exists cs, (rs ++ [missing_reason p (name (vo_option (no_valid option)))])%list, T,
      (ws ++ [0])%list;
    split; [reflexivity|];
    split; [rewrite !map_app, Hws; reflexivity|];
    rewrite sumQ_app_single;
    setoid_replace (T - (fold_right Qplus 0 ws + 0) - (T - fold_right Qplus 0 ws)) with 0
      by ring;
    exact Hw.
  cbv zeta.
  destruct (to_number nv) as [v|] eqn:Ev; [|exfalso; exact (Hp nv eq_refl Ev)].
  set (sc := if String.eqb (optimization p) "minimize"
             then Num.sub (Fin 100) (Num.mul (Fin v) (Fin 100))
             else Num.mul (Fin v) (Fin 100)).
  assert (Hsc : exists s, sc = Fin s)
    by (unfold sc; destruct (String.eqb (optimization p) "minimize"); eexists; reflexivity).
  destruct Hsc as [s Hs]. rewrite Hs.
  destruct (round2_close s) as (r & Hr & Hrs). rewrite Hr.
  destruct (round2_close (Qred (s * weight p))) as (c & Hc & Hcs).
  eexists _, _, (Qred (T + Qred (r * weight p))), (ws ++ [c])%list.
  split; [reflexivity|]. split.
  - rewrite map_app, Hws. cbn [map]. cbn [res_reason]. rewrite generateCriteriaReason_contribution.
    assert (Hm : Num.mul (Fin s) (Fin (weight p)) = Fin (Qred (s * weight p)))
      by reflexivity.
    rewrite Hm, Hc, map_app. reflexivity.
  - rewrite sumQ_app_single, !Qred_correct. rewrite Qred_correct in Hcs.
    assert (H3 : Qabs (r * weight p - s * weight p) <= Qabs (weight p) * (1 # 200)).
    { setoid_replace (r * weight p - s * weight p) with ((r - s) * weight p) by ring.
      rewrite Qabs_Qmult, (Qmult_comm (Qabs (weight p))).
      apply Qmult_le_compat_r; [exact Hrs | apply Qabs_nonneg]. }
    apply Qabs_Qle_condition in Hcs. apply Qabs_Qle_condition in H3.
    apply Qabs_Qle_condition. destruct Hcs, H3.
    revert H H0 H1 H2. generalize (r * weight p) (s * weight p) (Qabs (weight p)).
    intros a b aw. intros. split; lra.
Qed.

Lemma score_fold_bound (l : list Priority) cs rs T ws
  (Hws : map weightContribution rs = map Fin ws)
  (Hl : forall p, In p l -> numeric_at p) :
  exists cs' rs' T' ws',
    fold_left (score_step criteriaStats option) l (cs, rs, Fin T) = (cs', rs', Fin T')
    /\ map weightContribution rs' = map Fin ws'
    /\ Qabs ((T' - fold_right Qplus 0 ws') - (T - fold_right Qplus 0 ws))
         <= fold_right (fun p acc => (Qabs (weight p) + 1) * (1 # 200) + acc) 0 l.
Proof.
  revert cs rs T ws Hws. induction l as [|p l IH]; intros cs rs T ws Hws.
  - exists cs, rs, T, ws. split; [reflexivity|]. split; [exact Hws|].
    setoid_replace (T - fold_right Qplus 0 ws - (T - fold_right Qplus 0 ws)) with 0 by ring.
    apply Qle_refl.
  - destruct (score_step_bound cs rs T ws p Hws (Hl p (or_introl eq_refl)))
      as (cs1 & rs1 & T1 & ws1 & E1 & Hws1 & B1).
    cbn [fold_left]. rewrite E1.
    destruct (IH (fun q Hq => Hl q (or_intror Hq)) cs1 rs1 T1 ws1 Hws1)
      as (cs2 & rs2 & T2 & ws2 & E2 & Hws2 & B2).
    exists cs2, rs2, T2, ws2. split; [exact E2|]. split; [exact Hws2|].
    cbn [fold_right]. eapply Qle_trans; [|apply Qplus_le_compat; [exact B1 | exact B2]].
    setoid_replace (T2 - fold_right Qplus 0 ws2 - (T - fold_right Qplus 0 ws))
      with ((T1 - fold_right Qplus 0 ws1 - (T - fold_right Qplus 0 ws))
            + (T2 - fold_right Qplus 0 ws2 - (T1 - fold_right Qplus 0 ws1))) by ring.
    apply Qabs_triangle.
Qed.

End ScoreBound.

(** Claim C6 (amended). For an option scored by [calculateWeightedScores]
    (the body [score_option] of its map) on priorities whose paths avoid
    the names of [Object.prototype] and whose weights are at most 1 in
    magnitude, whose normalized values all read as numbers of magnitude at
    most 1000, and whose raw features hold no object with an own
    [toString] key: the [totalScore] and the [weightContribution]s of its
    reasons are numbers, and [totalScore] differs from their sum by at
    most [1/200 + sum over the priorities of (|weight| + 1)/200 +
    (n + 1)^2 / 10^9] for [n] priorities: half a cent for rounding the
    total, half a cent per criterion for rounding its contribution and
    [|weight|]/200 for rounding its score before weighting.  The last term
    bounds the floating-point error of the JavaScript computation, whose
    intermediate values stay below [10^8] in magnitude (relative error
    [2^-53] per operation, about [n^2 * 10^-11] over the running sum).  A
    [missing_data] reason adds [0] on both sides.  With four priorities
    the distance can exceed 0.01 (see [contribution_sum_counterexample]). *)
Theorem total_matches_contributions (criteriaStats : list (string * Stats))
  (priorities : list Priority) (option : NormalizedOption)
  (Hplain : forall p, In p priorities -> plain_path (criteria p) = true)
  (Hweight : forall p, In p priorities -> Qabs (weight p) <= 1)
  (Hnum : forall p nv, In p priorities ->
          getNestedValue (Some (normalizedFeatures option)) (criteria p) = Some nv ->
          exists q, to_number nv = Fin q /\ Qabs q <= 1000)
  (Hraw : no_toString (features (vo_option (no_valid option))) = true) :
  exists t ws,
    totalScore (score_option criteriaStats priorities option) = Fin t
    /\ map weightContribution (reasons (score_option criteriaStats priorities option))
       = map Fin ws
    /\ Qabs (t - fold_right Qplus 0 ws)
       <= (1 # 200) + fold_right (fun p acc => (Qabs (weight p) + 1) * (1 # 200) + acc)
                                 0 priorities
          + ((Z.of_nat (List.length priorities) + 1) ^ 2 # 1000000000).
Proof.
  assert (Hnn : forall p nv, In p priorities ->
            getNestedValue (Some (normalizedFeatures option)) (criteria p) = Some nv ->
            to_number nv <> NaN).
  { intros p nv Hp Hg. destruct (Hnum p nv Hp Hg) as (q & E & _). rewrite E. discriminate. }
  destruct (score_fold_bound criteriaStats option priorities [] [] 0 [] eq_refl
              (fun p Hp nv => Hnn p nv Hp)) as (cs & rs & T & ws & E & Hws & B).
  unfold score_option. rewrite E. cbn [totalScore reasons].
  destruct (round2_close T) as (t & Ht & Htc).
  exists t, ws. split; [exact Ht|]. split; [exact Hws|].
  assert (Hs : 0 <= ((Z.of_nat (List.length priorities) + 1) ^ 2 # 1000000000)).
  { unfold Qle. cbn [Qnum Qden]. rewrite Z.mul_1_r, Z.mul_0_l. apply Z.pow_nonneg. lia. }
  apply (Qle_trans _ ((1 # 200) + fold_right (fun p acc => (Qabs (weight p) + 1) * (1 # 200) + acc)
                                 0 priorities)).
  2: { generalize dependent ((Z.of_nat (List.length priorities) + 1) ^ 2 # 1000000000).
       intros x Hx. lra. }
  setoid_replace (t - fold_right Qplus 0 ws)
    with ((t - T) + (T - fold_right Qplus 0 ws - (0 - fold_right Qplus 0 []))) by (simpl; ring).
  eapply Qle_trans; [apply Qabs_triangle|].
  apply Qplus_le_compat; [exact Htc | exact B].
Qed.

(* ------------------------------------------------------------------ *)
(** ** The insertion sort orders by a key and keeps ties in input order *)

Section SortSpec.
Context {A : Type}.
Variable cmp : A -> A -> number.
Variable key : A -> Q.
Variable P : A -> Prop.
Hypothesis Hcmp :
  forall e x, P e -> P x -> Num.gt (cmp e x) (Fin 0) = true <-> key e < key x.

Local Abbreviation desc := (fun a b => key b <= key a).

Lemma sort_insert_sorted (x : A) (l : list A) :
  P x -> Forall P l -> StronglySorted desc l -> StronglySorted desc (sort_insert cmp x l).
Proof.
  intros Hx. induction l as [|e r IH]; intros Hl Hs; cbn [sort_insert].
  - repeat constructor.
  - inversion Hl as [|? ? He Hr]; subst. inversion Hs as [|? ? Hsr Hall]; subst.
    destruct (Num.gt (cmp e x) (Fin 0)) eqn:E.
    + apply (Hcmp e x He Hx) in E.
      constructor; [exact Hs|]. constructor; [apply Qlt_le_weak; exact E|].
      eapply Forall_impl; [|exact Hall]. intros y Hy. simpl in *. apply Qlt_le_weak in E.
      apply (Qle_trans _ (key e)); assumption.
    + assert (Hxe : key x <= key e).
      { apply Qnot_lt_le. intros Hlt. apply (Hcmp e x He Hx) in Hlt. congruence. }
      constructor; [apply IH; assumption|].
      apply Forall_forall. intros y Hy.
      apply (Permutation_in _ (sort_insert_perm cmp x r)) in Hy.
      destruct Hy as [<-|Hy]; [exact Hxe|].
      exact (proj1 (Forall_forall _ _) Hall y Hy).
Qed.

Variable v : Q.
Local Abbreviation at_v := (fun y => Qeq_bool (key y) v).

Lemma filter_below (l : list A) :
  Forall (fun y => key y < v) l -> filter at_v l = [].
Proof.
  induction l as [|y l IH]; intros H; [reflexivity|].
  inversion H as [|? ? Hy Hl]; subst. simpl.
  destruct (Qeq_bool (key y) v) eqn:E; [|exact (IH Hl)].
  apply Qeq_bool_iff in E. exfalso. rewrite E in Hy. exact (Qlt_irrefl v Hy).
Qed.

Lemma filter_sort_insert (x : A) (l : list A) :
  P x -> Forall P l -> StronglySorted desc l ->
  filter at_v (sort_insert cmp x l) = (filter at_v l ++ filter at_v [x])%list.
Proof.
  intros Hx. induction l as [|e r IH]; intros Hl Hs; cbn [sort_insert]; [reflexivity|].
  inversion Hl as [|? ? He Hr]; subst. inversion Hs as [|? ? Hsr Hall]; subst.
  destruct (Num.gt (cmp e x) (Fin 0)) eqn:E.
  - apply (Hcmp e x He Hx) in E.
    replace (filter at_v (x :: e :: r)) with (filter at_v [x] ++ filter at_v (e :: r))%list
      by (simpl; destruct (Qeq_bool (key x) v); reflexivity).
    destruct (Qeq_bool (key x) v) eqn:Ex.
    + apply Qeq_bool_iff in Ex.
      rewrite (filter_below (e :: r)); [rewrite app_nil_r; reflexivity|].
      constructor; [rewrite <- Ex; exact E|].
      eapply Forall_impl; [|exact Hall]. intros y Hy. simpl in Hy. rewrite <- Ex.
      apply (Qle_lt_trans _ (key e)); assumption.
    + assert (Hfx : filter at_v [x] = []) by (simpl; rewrite Ex; reflexivity).
      rewrite Hfx, app_nil_r. reflexivity.
  - cbn [filter]. rewrite (IH Hr Hsr). destruct (Qeq_bool (key e) v); reflexivity.
Qed.

Lemma js_sort_fold_spec (l acc : list A) :
  Forall P l -> Forall P acc -> StronglySorted desc acc ->
  StronglySorted desc (fold_left (fun acc x => sort_insert cmp x acc) l acc)
  /\ filter at_v (fold_left (fun acc x => sort_insert cmp x acc) l acc)
     = (filter at_v acc ++ filter at_v l)%list.
Proof.
  revert acc. induction l as [|x l IH]; intros acc Hl Hacc Hs.
  - simpl. rewrite app_nil_r. split; [exact Hs | reflexivity].
  - inversion Hl as [|? ? Hx Hl']; subst. cbn [fold_left].
    assert (Hacc' : Forall P (sort_insert cmp x acc)).
    { apply Forall_forall. intros y Hy.
      apply (Permutation_in _ (sort_insert_perm cmp x acc)) in Hy.
      destruct Hy as [<-|Hy]; [exact Hx | exact (proj1 (Forall_forall _ _) Hacc y Hy)]. }
    destruct (IH (sort_insert cmp x acc) Hl' Hacc' (sort_insert_sorted x acc Hx Hacc Hs))
      as [IH1 IH2].
    split; [exact IH1|]. rewrite IH2, (filter_sort_insert x acc Hx Hacc Hs).
    rewrite <- app_assoc. simpl. destruct (Qeq_bool (key x) v); reflexivity.
Qed.

End SortSpec.

Lemma by_total_desc_gt (e x : ScoredOption) (qe qx : Q) :
  totalScore e = Fin qe -> totalScore x = Fin qx ->
  (Num.gt (by_total_desc e x) (Fin 0) = true <-> qe < qx).
Proof.
  intros He Hx. unfold by_total_desc. rewrite He, Hx.
  change (Num.sub (Fin qx) (Fin qe)) with (Fin (Qred (qx - qe))). split.
  - intros H. destruct (Qlt_le_dec qe qx) as [Hl|Hl]; [exact Hl|].
    rewrite gt_fin_false in H; [discriminate|]. rewrite Qred_correct. lra.
  - intros H. apply gt_fin_true. rewrite Qred_correct. lra.
Qed.

Lemma ranks_of_mapi (l : list ScoredOption) (i : nat) :
  map rank (mapi_from (fun index option => with_rank option (index + 1)) i l)
  = map Some (seq (S i) (List.length l)).
Proof.
  revert i. induction l as [|o l IH]; intros i; [reflexivity|].
  cbn [mapi_from map List.length seq]. rewrite IH.
  cbn [rank with_rank]. rewrite Nat.add_1_r. reflexivity.
Qed.

(* ------------------------------------------------------------------ *)
(** ** applyConstraints in closed form *)

Lemma check_option_fold (option : Option) (cs : list Constraint) ok failed rs :
  fold_left (fun '(ok, failed, reasons) constraint =>
               let passes := evaluateConstraint option constraint in
               let reason := generateConstraintReason option constraint passes in
               let reasons := (reasons ++ [reason])%list in
               if passes then (ok, failed, reasons)
               else (if is_required constraint then false else ok,
                     (failed ++ [c_criteria constraint])%list, reasons))
            cs (ok, failed, rs)
  = (ok && forallb (fun c => evaluateConstraint option c || negb (is_required c)) cs,
     (failed ++ map c_criteria (filter (fun c => negb (evaluateConstraint option c)) cs))%list,
     (rs ++ map (fun c => generateConstraintReason option c (evaluateConstraint option c)) cs)%list).
Proof.
  revert ok failed rs. induction cs as [|c cs IH]; intros ok failed rs.
  - simpl. rewrite andb_true_r, !app_nil_r. reflexivity.
  - cbn [fold_left]. cbv zeta.
    destruct (evaluateConstraint option c) eqn:Ev; rewrite IH; cbn [forallb filter map];
      rewrite Ev; cbn [orb negb andb].
    + rewrite <- !app_assoc. reflexivity.
    + destruct (is_required c); cbn [negb orb].
      * rewrite andb_false_r, <- !app_assoc. reflexivity.
      * rewrite andb_true_l, <- !app_assoc. reflexivity.
Qed.

Lemma check_option_spec (option : Option) (cs : list Constraint) :
  check_option option cs =
  {| passed := forallb (fun c => evaluateConstraint option c || negb (is_required c)) cs;
     failedConstraints :=
       map c_criteria (filter (fun c => negb (evaluateConstraint option c)) cs);
     constraintReasons :=
       map (fun c => generateConstraintReason option c (evaluateConstraint option c)) cs |}.
Proof. unfold check_option. rewrite check_option_fold. reflexivity. Qed.

Lemma passed_iff (option : Option) (cs : list Constraint) :
  passed (check_option option cs) = true <->
  (forall c, In c cs -> is_required c = true -> evaluateConstraint option c = true).
Proof.
  rewrite check_option_spec. cbn [passed]. rewrite forallb_forall. split.
  - intros H c Hc Hr. specialize (H c Hc). rewrite Hr, orb_false_r in H. exact H.
  - intros H c Hc. destruct (is_required c) eqn:Hr.
    + rewrite (H c Hc Hr). reflexivity.
    + apply orb_true_r.
Qed.

Lemma applyConstraints_fold (options : list Option) (cs : list Constraint) valid all :
  fold_left (fun '(valid, all) option =>
               let complianceResult := check_option option cs in
               let all := assoc_put all (id option) complianceResult in
               if passed complianceResult
               then ((valid ++ [mkValidOption option (Some complianceResult)])%list, all)
               else (valid, all))
            options (valid, all)
  = ((valid ++ map (fun o => mkValidOption o (Some (check_option o cs)))
                  (filter (fun o => passed (check_option o cs)) options))%list,
     fold_left (fun all o => assoc_put all (id o) (check_option o cs)) options all).
Proof.
  revert valid all. induction options as [|o os IH]; intros valid all.
  - simpl. rewrite app_nil_r. reflexivity.
  - cbn [fold_left filter]. cbv zeta.
    destruct (passed (check_option o cs)); rewrite IH; [|reflexivity].
    rewrite <- app_assoc. reflexivity.
Qed.

Lemma results_fold_other (options : list Option) (cs : list Constraint) acc k :
  ~ In k (map id options) ->
  assoc_get (fold_left (fun all o => assoc_put all (id o) (check_option o cs)) options acc) k
  = assoc_get acc k.
Proof.
  revert acc. induction options as [|o os IH]; intros acc Hk; [reflexivity|].
  cbn [fold_left]. rewrite IH by (intros H; apply Hk; right; exact H).
  rewrite assoc_get_put. destruct (String.eqb k (id o)) eqn:E; [|reflexivity].
  apply String.eqb_eq in E. exfalso. apply Hk. left. symmetry. exact E.
Qed.

Lemma results_fold_get (options : list Option) (cs : list Constraint) acc o :
  NoDup (map id options) -> In o options ->
  assoc_get (fold_left (fun all o => assoc_put all (id o) (check_option o cs)) options acc)
            (id o)
  = Some (check_option o cs).
Proof.
  revert acc. induction options as [|o' os IH]; intros acc Hnd Ho; [contradiction|].
  inversion Hnd as [|? ? Hnot Hnd']; subst. cbn [fold_left].
  destruct Ho as [<-|Ho].
  - rewrite results_fold_other by exact Hnot.
    rewrite assoc_get_put, String.eqb_refl. reflexivity.
  - exact (IH _ Hnd' Ho).
Qed.

Lemma applyConstraints_spec (options : list Option) (cs : list Constraint) :
  validOptions (applyConstraints options cs)
  = map (fun o => mkValidOption o (Some (check_option o cs)))
        (filter (fun o => passed (check_option o cs)) options)
  /\ allResults (applyConstraints options cs)
     = fold_left (fun all o => assoc_put all (id o) (check_option o cs)) options [].
Proof. unfold applyConstraints. rewrite applyConstraints_fold. split; reflexivity. Qed.

Lemma scored_origin (vs : list ValidOption) (ps : list Priority) (so : ScoredOption) :
  In so (calculateWeightedScores vs ps) ->
  exists v, In v vs /\ optionId so = id (vo_option v)
            /\ so_constraintCompliance so = match constraintCompliance v with
                                            | Some c => c
                                            | None => default_compliance
                                            end.
Proof.
  unfold calculateWeightedScores, normalizeOptionValues. intros H.
  apply in_map_iff in H as (no & <- & Hno). apply in_map_iff in Hno as (v & <- & Hv).
  exists v. split; [exact Hv|]. unfold score_option.
  destruct (fold_left _ _ _) as [[c r] t]. split; reflexivity.
Qed.

Lemma scored_ids (vs : list ValidOption) (ps : list Priority) :
  map optionId (calculateWeightedScores vs ps) = map (fun v => id (vo_option v)) vs.
Proof.
  unfold calculateWeightedScores, normalizeOptionValues. rewrite !map_map.
  apply map_ext. intros v. unfold score_option.
  destruct (fold_left _ _ _) as [[c r] t]. reflexivity.
Qed.

Lemma scoreOptions_ranked (options : list Option) (cs : list Constraint)
  (ps : list Priority) (st : Settings) :
  rankedOptions (scoreOptions options cs ps st)
  = limit_results st
      (rank_options (calculateWeightedScores (validOptions (applyConstraints options cs)) ps)).
Proof.
  unfold scoreOptions. cbv zeta.
  destruct (validOptions (applyConstraints options cs)); [|reflexivity].
  unfold limit_results. destruct (max_results st) as [[|n]|]; reflexivity.
Qed.

Lemma NoDup_map_same {A B : Type} (f : A -> B) (l : list A) (a b : A) :
  NoDup (map f l) -> In a l -> In b l -> f a = f b -> a = b.
Proof.
  induction l as [|x l IH]; intros Hnd Ha Hb Hf; [contradiction|].
  inversion Hnd as [|? ? Hnot Hnd']; subst.
  destruct Ha as [<-|Ha], Hb as [<-|Hb]; try reflexivity.
  - exfalso. apply Hnot. rewrite Hf. apply in_map. exact Hb.
  - exfalso. apply Hnot. rewrite <- Hf. apply in_map. exact Ha.
  - exact (IH Hnd' Ha Hb Hf).
Qed.

(** Claim C1. With distinct option ids (checked by the input validation),
    every option of [rankedOptions] comes from an input option that
    satisfies every constraint whose [required] flag is not [false], and
    carries that option's compliance report with [passed = true]; the
    compliance map has, for every input option, that option's report,
    which lists one reason per constraint, required or not; an option
    failing a required constraint gets [passed = false] and is not
    ranked. *)
Theorem constraint_compliance (options : list Option) (cs : list Constraint)
  (ps : list Priority) (st : Settings) (Hids : NoDup (map id options)) :
  (forall r, In r (rankedOptions (scoreOptions options cs ps st)) ->
     exists o, In o options /\ optionId r = id o
               /\ so_constraintCompliance r = check_option o cs
               /\ passed (so_constraintCompliance r) = true
               /\ (forall c, In c cs -> is_required c = true ->
                             evaluateConstraint o c = true))
  /\ (forall o, In o options ->
        assoc_get (constraintResults (scoreOptions options cs ps st)) (id o)
          = Some (check_option o cs)
        /\ map cr_criteria (constraintReasons (check_option o cs)) = map c_criteria cs
        /\ constraintReasons (check_option o cs)
           = map (fun c => generateConstraintReason o c (evaluateConstraint o c)) cs)
  /\ (forall o c, In o options -> In c cs -> is_required c = true ->
        evaluateConstraint o c = false ->
        passed (check_option o cs) = false
        /\ forall r, In r (rankedOptions (scoreOptions options cs ps st)) ->
                     optionId r <> id o).
Proof.
  destruct (applyConstraints_spec options cs) as [Hvalid Hall].
  assert (Hranked : forall r, In r (rankedOptions (scoreOptions options cs ps st)) ->
            exists o, In o options /\ optionId r = id o
                      /\ so_constraintCompliance r = check_option o cs
                      /\ passed (check_option o cs) = true).
  { intros r Hr. destruct (ranked_from_scored _ _ _ _ _ Hr) as (so & k & Hso & ->).
    destruct (scored_origin _ _ _ Hso) as (v & Hv & Hid & Hcomp).
    rewrite Hvalid in Hv. apply in_map_iff in Hv as (o & <- & Ho).
    apply filter_In in Ho as [Ho Hp].
    exists o. cbn [with_rank optionId so_constraintCompliance] in *.
    rewrite Hid, Hcomp. cbn [vo_option constraintCompliance]. auto. }
  split; [|split].
  - intros r Hr. destruct (Hranked r Hr) as (o & Ho & Hid & Hc & Hp).
    exists o. rewrite Hc. repeat split; try assumption.
    apply passed_iff. exact Hp.
  - intros o Ho. split; [|split].
    + assert (Hcr : constraintResults (scoreOptions options cs ps st)
                    = allResults (applyConstraints options cs)).
      { unfold scoreOptions. cbv zeta.
        destruct (validOptions (applyConstraints options cs)); reflexivity. }
      rewrite Hcr, Hall. apply results_fold_get; assumption.
    + rewrite check_option_spec. cbn [constraintReasons]. rewrite map_map.
      apply map_ext. intros c. unfold generateConstraintReason.
      destruct (evaluateConstraint o c); reflexivity.
    + rewrite check_option_spec. reflexivity.
  - intros o c Ho Hc Hreq Hev.
    assert (Hnp : passed (check_option o cs) = false).
    { destruct (passed (check_option o cs)) eqn:E; [|reflexivity].
      apply passed_iff with (c := c) in E; [congruence | exact Hc | exact Hreq]. }
    split; [exact Hnp|].
    intros r Hr Heq. destruct (Hranked r Hr) as (o' & Ho' & Hid & _ & Hp).
    rewrite Heq in Hid.
    assert (o = o').
    { apply (NoDup_map_same id options o o' Hids); assumption. }
    subst o'. congruence.
Qed.

Lemma StronglySorted_weaken {A : Type} (R R' : A -> A -> Prop) (Q : A -> Prop) (l : list A) :
  Forall Q l -> (forall a b, Q a -> Q b -> R a b -> R' a b) ->
  StronglySorted R l -> StronglySorted R' l.
Proof.
  intros HQ HR Hs. induction Hs as [|a l Hs IH Hall]; constructor.
  - inversion HQ; subst. apply IH. assumption.
  - inversion HQ as [|? ? Ha Hl]; subst. apply Forall_forall. intros b Hb.
    apply HR; [exact Ha | exact (proj1 (Forall_forall _ _) Hl b Hb) |].
    exact (proj1 (Forall_forall _ _) Hall b Hb).
Qed.

Lemma total_key (o : ScoredOption) :
  totalScore o <> NaN ->
  totalScore o = Fin (match totalScore o with Fin q => q | NaN => 0 end).
Proof. destruct (totalScore o); [reflexivity | contradiction]. Qed.

(** Claim C3. When no total is [NaN], [rank_options] numbers the options
    in the order of [js_sort by_total_desc], which is a permutation of the
    scored options (kept in the order of the qualifying input options),
    sorted by descending [totalScore], and in which the options of any
    one total keep their input order; the ranks are [1..N]; and the output
    is the ranked list cut to its first [max_results] entries when that
    setting is a positive number, the whole list otherwise, with the ranks
    left as they are.  Stated for inputs the exact model computes as
    JavaScript does: priority paths that name no member of
    [Object.prototype], values at them that convert as in JavaScript
    ([tame_value]: bounded, no ["Infinity"] string, no object with an own
    [toString] key) and weights of magnitude at most 1, so that no
    intermediate result overflows and a total is [NaN] in JavaScript
    exactly when it is here.  A [NaN] total makes the comparator
    inconsistent; the engine's order is then its own, and no order
    satisfies the specification's description (see
    [ranking_cycle_counterexample]). *)
Theorem ranking_stable_dense (options : list Option) (cs : list Constraint)
  (ps : list Priority) (st : Settings)
  (Hplain : forall p, In p ps -> plain_path (criteria p) = true)
  (Htame : forall o p x, In o options -> In p ps ->
           getNestedValue (Some (features o)) (criteria p) = Some x -> tame_value x = true)
  (Hweight : forall p, In p ps -> Qabs (weight p) <= 1)
  (Hfin : Forall (fun so => totalScore so <> NaN)
            (calculateWeightedScores (validOptions (applyConstraints options cs)) ps)) :
  let scored := calculateWeightedScores (validOptions (applyConstraints options cs)) ps in
  let sorted := js_sort by_total_desc scored in
  map optionId scored = map id (filter (fun o => passed (check_option o cs)) options)
  /\ Permutation sorted scored
  /\ StronglySorted (fun a b => Num.ge (totalScore a) (totalScore b) = true) sorted
  /\ (forall v, filter (fun o => Num.strict_eq (totalScore o) (Fin v)) sorted
                = filter (fun o => Num.strict_eq (totalScore o) (Fin v)) scored)
  /\ rank_options scored = mapi_from (fun index option => with_rank option (index + 1)) 0 sorted
  /\ map rank (rank_options scored) = map Some (seq 1 (List.length scored))
  /\ (forall n, max_results st = Some (S n) ->
        rankedOptions (scoreOptions options cs ps st) = firstn (S n) (rank_options scored))
  /\ (max_results st = None \/ max_results st = Some 0%nat ->
        rankedOptions (scoreOptions options cs ps st) = rank_options scored).
Proof.
  cbv zeta.
  set (scored := calculateWeightedScores (validOptions (applyConstraints options cs)) ps) in *.
  set (key := fun o : ScoredOption => match totalScore o with Fin q => q | NaN => 0 end).
  assert (Hcmp : forall e x, totalScore e <> NaN -> totalScore x <> NaN ->
            Num.gt (by_total_desc e x) (Fin 0) = true <-> key e < key x).
  { intros e x He Hx. apply by_total_desc_gt; apply total_key; assumption. }
  destruct (js_sort_fold_spec by_total_desc key (fun o => totalScore o <> NaN) Hcmp 0
              scored [] Hfin (Forall_nil _) (SSorted_nil _)) as [Hsorted _].
  assert (Hperm : Permutation (js_sort by_total_desc scored) scored) by apply js_sort_perm.
  assert (Hfin' : Forall (fun so => totalScore so <> NaN) (js_sort by_total_desc scored)).
  { apply Forall_forall. intros y Hy. apply (Permutation_in _ Hperm) in Hy.
    exact (proj1 (Forall_forall _ _) Hfin y Hy). }
  split; [|split; [exact Hperm|split; [|split; [|split; [reflexivity|split; [|split]]]]]].
  - unfold scored. rewrite scored_ids. destruct (applyConstraints_spec options cs) as [Hv _].
    rewrite Hv, map_map. reflexivity.
  - apply (StronglySorted_weaken (fun a b => key b <= key a) _
             (fun o => totalScore o <> NaN) _ Hfin'); [|exact Hsorted].
    intros a b Ha Hb Hab. rewrite (total_key a Ha), (total_key b Hb).
    apply Qle_bool_iff. exact Hab.
  - intros v.
    destruct (js_sort_fold_spec by_total_desc key (fun o => totalScore o <> NaN) Hcmp v
                scored [] Hfin (Forall_nil _) (SSorted_nil _)) as [_ Hfil].
    assert (Hext : forall l, Forall (fun so => totalScore so <> NaN) l ->
              filter (fun o => Num.strict_eq (totalScore o) (Fin v)) l
              = filter (fun y => Qeq_bool (key y) v) l).
    { intros l Hl. apply filter_ext_in. intros a Ha.
      pose proof (total_key a (proj1 (Forall_forall _ _) Hl a Ha)) as E.
      unfold key. rewrite E at 1. reflexivity. }
    rewrite (Hext _ Hfin'), (Hext _ Hfin). exact Hfil.
  - unfold rank_options. rewrite ranks_of_mapi, (Permutation_length Hperm). reflexivity.
  - intros n Hn. rewrite scoreOptions_ranked. unfold limit_results. rewrite Hn. reflexivity.
  - intros Hn. rewrite scoreOptions_ranked. unfold limit_results.
    destruct Hn as [Hn|Hn]; rewrite Hn; reflexivity.
Qed.

(* ------------------------------------------------------------------ *)
(** ** Confidence *)

Lemma roundToDecimals2_bounds (x : Q) :
  1 # 2 <= x <= 1 ->
  exists q, roundToDecimals (Fin x) 2 = Fin q /\ 1 # 2 <= q <= 1.
Proof.
  intros [Hlo Hhi]. eexists. split; [reflexivity|].
  pose proof (Qred_correct (x * inject_Z 100)) as Hz.
  change (inject_Z (10 ^ Z.of_nat 2)) with (inject_Z 100).
  assert (Hf1 : (50 <= Qfloor (Qred (x * inject_Z 100) + (1 # 2)))%Z).
  { change 50%Z with (Qfloor ((50 # 1) + (1 # 2))). apply Qfloor_resp_le.
    rewrite Hz. change (inject_Z 100) with (100 # 1). lra. }
  assert (Hf2 : (Qfloor (Qred (x * inject_Z 100) + (1 # 2)) <= 100)%Z).
  { change 100%Z with (Qfloor ((100 # 1) + (1 # 2))) at 2. apply Qfloor_resp_le.
    rewrite Hz. change (inject_Z 100) with (100 # 1). lra. }
  generalize dependent (Qfloor (Qred (x * inject_Z 100) + (1 # 2))). intros f Hf1 Hf2.
  rewrite Zle_Qle in Hf1, Hf2. change (inject_Z 50) with (50 # 1) in Hf1.
  change (inject_Z 100) with (100 # 1) in Hf2 |- *.
  rewrite Qred_correct. unfold Qdiv. change (/ (100 # 1)) with (1 # 100).
  split; lra.
Qed.

Lemma ranked_top_two_sorted (l : list ScoredOption) (st : Settings) :
  Forall (fun so => totalScore so <> NaN) l ->
  match limit_results st (rank_options l) with
  | top :: second :: _ =>
      exists a b, totalScore top = Fin a /\ totalScore second = Fin b /\ b <= a
  | _ => True
  end.
Proof.
  intros Hfin.
  set (key := fun o : ScoredOption => match totalScore o with Fin q => q | NaN => 0 end).
  assert (Hcmp : forall e x, totalScore e <> NaN -> totalScore x <> NaN ->
            Num.gt (by_total_desc e x) (Fin 0) = true <-> key e < key x).
  { intros e x He Hx. apply by_total_desc_gt; apply total_key; assumption. }
  destruct (js_sort_fold_spec by_total_desc key (fun o => totalScore o <> NaN) Hcmp 0
              l [] Hfin (Forall_nil _) (SSorted_nil _)) as [Hsorted _].
  change (fold_left _ l []) with (js_sort by_total_desc l) in Hsorted.
  assert (Hperm : Permutation (js_sort by_total_desc l) l) by apply js_sort_perm.
  assert (Hfin' : Forall (fun so => totalScore so <> NaN) (js_sort by_total_desc l)).
  { apply Forall_forall. intros y Hy. apply (Permutation_in _ Hperm) in Hy.
    exact (proj1 (Forall_forall _ _) Hfin y Hy). }
  unfold rank_options.
  destruct (js_sort by_total_desc l) as [|x [|y r]]; cbn [mapi_from];
    unfold limit_results; destruct (max_results st) as [[|[|n]]|]; cbn; try exact I.
  all: inversion Hfin' as [|? ? Hx Hr]; inversion Hr as [|? ? Hy _]; subst;
       inversion Hsorted as [|? ? _ Hall]; inversion Hall as [|? ? Hyx _]; subst;
       exists (key x), (key y);
       split; [apply total_key; exact Hx|]; split; [apply total_key; exact Hy|]; exact Hyx.
Qed.

Lemma calculateConfidence_bounds (top second : ScoredOption) (rest : list ScoredOption)
  (a b : Q) :
  totalScore top = Fin a -> totalScore second = Fin b -> b <= a ->
  exists q, calculateConfidence (top :: second :: rest) = Fin q /\ 1 # 2 <= q <= 1.
Proof.
  intros Ha Hb Hab. unfold calculateConfidence. rewrite Ha, Hb.
  change (Num.sub (Fin a) (Fin b)) with (Fin (Qred (a - b))).
  change (Num.div (Fin (Qred (a - b))) (Fin 100)) with (Fin (Qred (Qred (a - b) / 100))).
  cbn [Num.min2 Num.add Num.lift2].
  apply roundToDecimals2_bounds.
  assert (Hg : 0 <= Qred (Qred (a - b) / 100)).
  { rewrite !Qred_correct. unfold Qdiv. change (/ 100) with (1 # 100). lra. }
  pose proof (Q.le_min_r (Qred (Qred (a - b) / 100)) (1 # 2)) as Hm1.
  pose proof (Q.min_glb _ _ _ Hg (Qlt_le_weak 0 (1 # 2) eq_refl)) as Hm2.
  generalize dependent (Qmin (Qred (Qred (a - b) / 100)) (1 # 2)). intros m Hm1 Hm2.
  rewrite Qred_correct. split; lra.
Qed.

(** Claim C5 (amended). With no ranked option there is no top
    recommendation; with exactly one its confidence is [1]; with two or
    more it is [roundToDecimals(0.5 + min(gap/100, 0.5), 2)] for
    [gap = top - second], with no clamp, and it lies in [[0.5, 1]] when
    the gap is a non-negative number. In the pipeline the ranked list is
    empty exactly when no option meets the required constraints, it has
    at most as many entries as qualifying options (fewer under
    [max_results]), and when no qualifying option's total is [NaN] its
    first two totals are in descending order, so the gap is non-negative
    and the confidence lies in [[0.5, 1]]. That part is stated for inputs
    the exact model computes as JavaScript does: criterion paths that do
    not name inherited properties, values at those paths bounded by
    [2^500] with no own [toString] and no string "Infinity", and weights
    of magnitude at most [1], so that no total overflows to an infinity
    (whose difference would be [NaN]). *)
Theorem confidence_spec (res : ScoringResults) (os : list Option) :
  match rankedOptions res with
  | [] => sm_topRecommendation (generateSummary res os) = None
  | [top] => exists tr, sm_topRecommendation (generateSummary res os) = Some tr
                        /\ confidence tr = Fin 1
  | top :: second :: _ =>
      exists tr, sm_topRecommendation (generateSummary res os) = Some tr
        /\ confidence tr
           = roundToDecimals
               (Num.add (Fin (1 # 2))
                  (Num.min2 (Num.div (Num.sub (totalScore top) (totalScore second)) (Fin 100))
                            (Fin (1 # 2)))) 2
        /\ (forall a b, totalScore top = Fin a -> totalScore second = Fin b -> b <= a ->
              exists q, confidence tr = Fin q /\ 1 # 2 <= q <= 1)
  end
  /\ (forall options cs ps st,
        let valid := validOptions (applyConstraints options cs) in
        let ranked := rankedOptions (scoreOptions options cs ps st) in
        (ranked = [] <-> valid = [])
        /\ (List.length ranked <= List.length valid)%nat
        /\ ((forall p, In p ps -> plain_path (criteria p) = true) ->
            (forall o p x, In o options -> In p ps ->
               getNestedValue (Some (features o)) (criteria p) = Some x -> tame_value x = true) ->
            (forall p, In p ps -> Qabs (weight p) <= 1) ->
            Forall (fun so => totalScore so <> NaN) (calculateWeightedScores valid ps) ->
            match ranked with
            | top :: second :: _ =>
                (exists a b, totalScore top = Fin a /\ totalScore second = Fin b /\ b <= a)
                /\ exists tr q,
                     sm_topRecommendation (generateSummary (scoreOptions options cs ps st) options)
                     = Some tr
                     /\ confidence tr = Fin q /\ 1 # 2 <= q <= 1
            | _ => True
            end)).
Proof.
  split.
  - unfold generateSummary. cbv zeta.
    destruct (rankedOptions res) as [|top [|second rest]]; [reflexivity | eexists; split; reflexivity|].
    eexists. split; [reflexivity|]. cbn [confidence]. split; [reflexivity|].
    intros a b Ha Hb Hab. exact (calculateConfidence_bounds top second rest a b Ha Hb Hab).
  - intros options cs ps st. cbv zeta.
    assert (Hlen : List.length (calculateWeightedScores
                                  (validOptions (applyConstraints options cs)) ps)
                   = List.length (validOptions (applyConstraints options cs))).
    { rewrite <- (length_map optionId), scored_ids, length_map. reflexivity. }
    assert (Hrl : List.length (rank_options (calculateWeightedScores
                     (validOptions (applyConstraints options cs)) ps))
                  = List.length (validOptions (applyConstraints options cs))).
    { unfold rank_options. rewrite <- (length_map rank), ranks_of_mapi, length_map, length_seq.
      rewrite (Permutation_length (js_sort_perm _ _)). exact Hlen. }
    rewrite scoreOptions_ranked.
    split; [|split].
    + split.
      * intros H. apply length_zero_iff_nil. rewrite <- Hrl.
        unfold limit_results in H. destruct (max_results st) as [[|n]|];
          [exact (f_equal (@List.length _) H) | | exact (f_equal (@List.length _) H)].
        destruct (rank_options _) as [|x l]; [reflexivity | discriminate].
      * intros H. unfold limit_results. rewrite H. cbn.
        destruct (max_results st) as [[|n]|]; reflexivity.
    + rewrite <- Hrl. unfold limit_results.
      destruct (max_results st) as [[|n]|]; [lia | rewrite length_firstn; lia | lia].
    + intros _ _ _ Hfin.
      pose proof (ranked_top_two_sorted _ st Hfin) as Hs.
      unfold generateSummary. cbv zeta. rewrite scoreOptions_ranked.
      destruct (limit_results st _) as [|top [|second rest]]; try exact I.
      destruct Hs as (a & b & Ha & Hb & Hab).
      split; [exists a, b; auto|].
      destruct (calculateConfidence_bounds top second rest a b Ha Hb Hab) as (q & Hq & Hq').
      eexists; exists q. split; [reflexivity|]. split; [exact Hq | exact Hq'].
Qed.

(* ------------------------------------------------------------------ *)
(** ** getNestedValue after setNestedValue *)

Lemma no_arrays_obj (fs : list (string * jsval)) :
  no_arrays (JObj fs) = forallb (fun kv => no_arrays (snd kv)) fs.
Proof.
  induction fs as [|[k x] r IH]; [reflexivity|].
  cbn [forallb snd]. rewrite <- IH. reflexivity.
Qed.

Lemma no_arrays_get (fs : list (string * jsval)) (k : string) (c : jsval) :
  no_arrays (JObj fs) = true -> assoc_get fs k = Some c -> no_arrays c = true.
Proof.
  rewrite no_arrays_obj. induction fs as [|[k' x] r IH]; intros H Hg; [discriminate|].
  cbn [forallb snd] in H. apply andb_true_iff in H as [Hx Hr].
  cbn [assoc_get] in Hg. destruct (String.eqb k k'); [congruence | exact (IH Hr Hg)].
Qed.

Lemma no_arrays_put (fs : list (string * jsval)) (k : string) (v : jsval) :
  no_arrays (JObj fs) = true -> no_arrays v = true -> no_arrays (JObj (assoc_put fs k v)) = true.
Proof.
  rewrite !no_arrays_obj. induction fs as [|[k' x] r IH]; intros H Hv.
  - cbn. rewrite Hv. reflexivity.
  - cbn [forallb snd] in H. apply andb_true_iff in H as [Hx Hr].
    cbn [assoc_put]. destruct (String.eqb k k'); cbn [forallb snd].
    + rewrite Hv, Hr. reflexivity.
    + rewrite Hx, (IH Hr Hv). reflexivity.
Qed.

Lemma walk_None (keys : list string) : walk None keys = None.
Proof. induction keys as [|k ks IH]; [reflexivity | exact IH]. Qed.

Lemma child_obj (fs : list (string * jsval)) (key : string) :
  no_arrays (JObj fs) = true ->
  exists fs', match get_prop (JObj fs) key with
              | Some c => if truthy c && is_object c then c else JObj []
              | None => JObj []
              end = JObj fs' /\ no_arrays (JObj fs') = true.
Proof.
  intros H. cbn [get_prop]. destruct (assoc_get fs key) as [c|] eqn:E;
    [|exists []; split; reflexivity].
  pose proof (no_arrays_get fs key c H E) as Hc.
  destruct c as [n|b|str| |l|gs]; cbn [is_object truthy andb]; try rewrite andb_false_r;
    try (exists []; split; reflexivity).
  - discriminate.
  - exists gs. split; [reflexivity | exact Hc].
Qed.

Lemma set_path_shape (pre : list string) (l : string) (v : jsval) (fs : list (string * jsval)) :
  no_arrays (JObj fs) = true -> no_arrays v = true ->
  exists fs', set_path (JObj fs) pre l v = JObj fs' /\ no_arrays (JObj fs') = true.
Proof.
  revert fs. induction pre as [|a pre IH]; intros fs H Hv; cbn [set_path].
  - eexists. split; [reflexivity | apply no_arrays_put; assumption].
  - destruct (child_obj fs a H) as (fs' & Hc & Hn). rewrite Hc.
    destruct (IH fs' Hn Hv) as (gs & Hg & Hgn). rewrite Hg.
    eexists. split; [reflexivity | apply no_arrays_put; assumption].
Qed.

Lemma walk_set_same (pre : list string) (l : string) (v : jsval) (fs : list (string * jsval)) :
  no_arrays (JObj fs) = true ->
  walk (Some (set_path (JObj fs) pre l v)) (pre ++ [l]) = Some v.
Proof.
  revert fs. induction pre as [|a pre IH]; intros fs H; cbn [set_path app].
  - unfold walk. cbn. rewrite assoc_get_put, String.eqb_refl. reflexivity.
  - destruct (child_obj fs a H) as (fs' & Hc & Hn). rewrite Hc.
    unfold walk at 1. cbn [fold_left put_prop truthy is_object andb get_prop].
    rewrite assoc_get_put, String.eqb_refl. exact (IH fs' Hn).
Qed.

Lemma walk_set_other (pre : list string) (l : string) (v : jsval)
  (fs : list (string * jsval)) (k2 : list string) :
  no_arrays (JObj fs) = true ->
  key_prefix (pre ++ [l]) k2 = false -> key_prefix k2 (pre ++ [l]) = false ->
  walk (Some (set_path (JObj fs) pre l v)) k2 = walk (Some (JObj fs)) k2.
Proof.
  revert fs k2. induction pre as [|a pre IH]; intros fs k2 H H1 H2;
    (destruct k2 as [|y r2]; [discriminate|]); cbn [set_path app] in *.
  - unfold walk. cbn [fold_left put_prop truthy is_object andb get_prop].
    rewrite assoc_get_put. destruct (String.eqb y l) eqn:E; [|reflexivity].
    apply String.eqb_eq in E. subst y. cbn [key_prefix] in H1. rewrite String.eqb_refl in H1. discriminate.
  - destruct (child_obj fs a H) as (fs' & Hc & Hn). rewrite Hc.
    unfold walk. cbn [fold_left put_prop truthy is_object andb get_prop].
    rewrite assoc_get_put. destruct (String.eqb y a) eqn:E; [|reflexivity].
    apply String.eqb_eq in E. subst y. cbn [key_prefix] in H1, H2. rewrite String.eqb_refl in H1, H2.
    cbn [andb] in H1, H2.
    destruct r2 as [|y' r2']; [discriminate|].
    change (walk (Some (set_path (JObj fs') pre l v)) (y' :: r2')
            = walk (assoc_get fs a) (y' :: r2')).
    rewrite (IH fs' (y' :: r2') Hn H1 H2).
    cbn [get_prop] in Hc. destruct (assoc_get fs a) as [c|].
    + destruct (truthy c && is_object c) eqn:Ec; [subst c; reflexivity|].
      injection Hc as <-.
      change (walk None r2' = walk (if truthy c && is_object c then get_prop c y' else None) r2').
      rewrite Ec. reflexivity.
    + injection Hc as <-. reflexivity.
Qed.

(* ------------------------------------------------------------------ *)
(** ** Ranges of the normalizer *)

Lemma qmin_list_spec (x : Q) (l : list Q) :
  qmin_list x l <= x /\ forall q, In q l -> qmin_list x l <= q.
Proof.
  unfold qmin_list. revert x. induction l as [|a l IH]; intros x; cbn [fold_left].
  - split; [apply Qle_refl | intros q []].
  - destruct (IH (Qmin x a)) as [H1 H2]. split.
    + apply (Qle_trans _ _ _ H1). apply Q.le_min_l.
    + intros q [<-|Hq]; [|exact (H2 q Hq)].
      apply (Qle_trans _ _ _ H1). apply Q.le_min_r.
Qed.

Lemma qmax_list_spec (x : Q) (l : list Q) :
  x <= qmax_list x l /\ forall q, In q l -> q <= qmax_list x l.
Proof.
  unfold qmax_list. revert x. induction l as [|a l IH]; intros x; cbn [fold_left].
  - split; [apply Qle_refl | intros q []].
  - destruct (IH (Qmax x a)) as [H1 H2]. split.
    + apply (Qle_trans _ (Qmax x a)); [apply Q.le_max_l | exact H1].
    + intros q [<-|Hq]; [|exact (H2 q Hq)].
      apply (Qle_trans _ (Qmax x a)); [apply Q.le_max_r | exact H1].
Qed.

Lemma criteriaRanges_fold (vs : list ValidOption) (ps : list Priority) acc c :
  assoc_get
    (fold_left (fun ranges priority =>
                  match criteria_values vs (criteria priority) with
                  | [] => ranges
                  | v :: vs' =>
                      let mn := qmin_list v vs' in
                      let mx := qmax_list v vs' in
                      assoc_put ranges (criteria priority) (mkRange mn mx (Qred (mx - mn)))
                  end) ps acc) c
  = if existsb (fun p => String.eqb (criteria p) c) ps
    then match criteria_values vs c with
         | [] => assoc_get acc c
         | v :: vs' => Some (mkRange (qmin_list v vs') (qmax_list v vs')
                                     (Qred (qmax_list v vs' - qmin_list v vs')))
         end
    else assoc_get acc c.
Proof.
  revert acc. induction ps as [|p ps IH]; intros acc; [reflexivity|].
  cbn [fold_left existsb]. rewrite IH.
  destruct (String.eqb (criteria p) c) eqn:E.
  - apply String.eqb_eq in E. subst c. cbn [orb].
    destruct (existsb _ ps); destruct (criteria_values vs (criteria p)) as [|v vs'];
      cbv zeta; try reflexivity; rewrite assoc_get_put, String.eqb_refl; reflexivity.
  - cbn [orb].
    destruct (criteria_values vs (criteria p)); cbv zeta; [reflexivity|].
    rewrite !assoc_get_put, (String.eqb_sym c (criteria p)), E. reflexivity.
Qed.

Lemma criteriaRanges_get (vs : list ValidOption) (ps : list Priority) c :
  assoc_get (criteriaRanges vs ps) c
  = if existsb (fun p => String.eqb (criteria p) c) ps
    then match criteria_values vs c with
         | [] => None
         | v :: vs' => Some (mkRange (qmin_list v vs') (qmax_list v vs')
                                     (Qred (qmax_list v vs' - qmin_list v vs')))
         end
    else None.
Proof.
  unfold criteriaRanges. rewrite criteriaRanges_fold.
  destruct (existsb _ ps); [destruct (criteria_values vs c)|]; reflexivity.
Qed.

Lemma getNestedValue_path (o : option jsval) (c : string) (x : jsval) :
  getNestedValue o c = Some x -> String.eqb c "" = false.
Proof.
  unfold getNestedValue. destruct o as [o|]; [|discriminate].
  destruct (String.eqb c ""); [|reflexivity]. rewrite andb_false_r. discriminate.
Qed.

Lemma getNestedValue_obj (fs : list (string * jsval)) (c : string) :
  String.eqb c "" = false -> getNestedValue (Some (JObj fs)) c = walk (Some (JObj fs)) (split_dot c).
Proof. intros H. unfold getNestedValue. rewrite H. reflexivity. Qed.

Lemma split_dot_nonempty (s : string) : split_dot s <> [].
Proof.
  destruct s as [|ch s]; cbn [split_dot]; [discriminate|].
  destruct (Ascii.eqb ch "."); [discriminate|]. destruct (split_dot s); discriminate.
Qed.

Section NormSpec.
Variable ranges : list (string * Range).
Variable f : jsval.
Variable p : Priority.

(** The value [normalizeOptionValues] is expected to leave at the path of
    [p]: the normalized value when the source writes one, the raw value
    otherwise. *)
Let T : Datatypes.option jsval :=
  match getNestedValue (Some f) (criteria p), assoc_get ranges (criteria p) with
  | Some raw, Some r =>
      if Num.gt (Fin (r_range r)) (Fin 0)
      then Some (JNum (Num.div (Num.sub (to_number raw) (Fin (r_min r))) (Fin (r_range r))))
      else getNestedValue (Some f) (criteria p)
  | _, _ => getNestedValue (Some f) (criteria p)
  end.

Local Abbreviation kp := (split_dot (criteria p)).

Lemma norm_step (fs : list (string * jsval)) (q : Priority)
  (Hn : no_arrays (JObj fs) = true)
  (Hq1 : key_prefix (split_dot (criteria q)) kp = true -> criteria q = criteria p)
  (Hq2 : key_prefix kp (split_dot (criteria q)) = true -> criteria q = criteria p) :
  exists fs', normalize_step ranges f (JObj fs) q = JObj fs'
    /\ no_arrays (JObj fs') = true
    /\ (walk (Some (JObj fs')) kp = walk (Some (JObj fs)) kp
        \/ walk (Some (JObj fs')) kp = T)
    /\ (criteria q = criteria p ->
        walk (Some (JObj fs')) kp = T
        \/ (walk (Some (JObj fs')) kp = walk (Some (JObj fs)) kp
            /\ T = getNestedValue (Some f) (criteria p))).
Proof.
  unfold normalize_step.
  destruct (getNestedValue (Some f) (criteria q)) as [rawq|] eqn:Eq;
    [destruct (assoc_get ranges (criteria q)) as [rq|] eqn:Erq|].
  1: destruct (Num.gt (Fin (r_range rq)) (Fin 0)) eqn:Eg.
  2, 3, 4:
    exists fs; split; [reflexivity|]; split; [exact Hn|];
    split; [left; reflexivity|];
    intros Hqp; right; split; [reflexivity|];
    unfold T; rewrite Hqp in Eq; rewrite Eq; try (rewrite Hqp in Erq; rewrite Erq);
    try rewrite Eg; reflexivity.
  unfold setNestedValue. cbn [truthy is_object andb].
  rewrite (getNestedValue_path _ _ _ Eq). cbn [negb].
  set (V := JNum (Num.div (Num.sub (to_number rawq) (Fin (r_min rq))) (Fin (r_range rq)))).
  set (kq := split_dot (criteria q)).
  destruct (set_path_shape (removelast kq) (last kq "") V fs Hn eq_refl) as (fs' & Hs & Hn').
  rewrite Hs. exists fs'. split; [reflexivity|]. split; [exact Hn'|].
  assert (Hkq : kq = (removelast kq ++ [last kq ""])%list)
    by (apply app_removelast_last, split_dot_nonempty).
  destruct (string_dec (criteria q) (criteria p)) as [Hqp|Hqp].
  - assert (HV : walk (Some (JObj fs')) kp = T).
    { rewrite <- Hs.
      assert (Hk : kp = (removelast kq ++ [last kq ""])%list)
        by (unfold kq; rewrite Hqp; apply app_removelast_last, split_dot_nonempty).
      rewrite Hk, walk_set_same by exact Hn.
      unfold T. rewrite Hqp in Eq, Erq. rewrite Eq, Erq, Eg. reflexivity. }
    split; [right; exact HV | intros _; left; exact HV].
  - split; [left | intros H; contradiction].
    rewrite <- Hs. apply walk_set_other; [exact Hn | rewrite <- Hkq | rewrite <- Hkq].
    + destruct (key_prefix kq kp) eqn:E; [|reflexivity]. exfalso. exact (Hqp (Hq1 E)).
    + destruct (key_prefix kp kq) eqn:E; [|reflexivity]. exfalso. exact (Hqp (Hq2 E)).
Qed.

Lemma norm_fold (l : list Priority) (fs : list (string * jsval))
  (Hn : no_arrays (JObj fs) = true)
  (Hl : forall q, In q l ->
        (key_prefix (split_dot (criteria q)) kp = true -> criteria q = criteria p)
        /\ (key_prefix kp (split_dot (criteria q)) = true -> criteria q = criteria p))
  (Hinv : walk (Some (JObj fs)) kp = T
          \/ walk (Some (JObj fs)) kp = getNestedValue (Some f) (criteria p)) :
  exists fs', fold_left (normalize_step ranges f) l (JObj fs) = JObj fs'
    /\ no_arrays (JObj fs') = true
    /\ (walk (Some (JObj fs')) kp = T
        \/ walk (Some (JObj fs')) kp = getNestedValue (Some f) (criteria p))
    /\ (walk (Some (JObj fs)) kp = T -> walk (Some (JObj fs')) kp = T)
    /\ (In p l -> walk (Some (JObj fs')) kp = T).
Proof.
  revert fs Hn Hinv. induction l as [|q l IH]; intros fs Hn Hinv.
  - exists fs. split; [reflexivity|]. split; [exact Hn|]. split; [exact Hinv|].
    split; [intros H; exact H | intros []].
  - destruct (Hl q (or_introl eq_refl)) as [Hq1 Hq2].
    destruct (norm_step fs q Hn Hq1 Hq2) as (fs1 & E1 & Hn1 & Hw1 & Hp1).
    assert (Hinv1 : walk (Some (JObj fs1)) kp = T
                    \/ walk (Some (JObj fs1)) kp = getNestedValue (Some f) (criteria p)).
    { destruct Hw1 as [Hw1|Hw1]; rewrite Hw1; [exact Hinv | left; reflexivity]. }
    destruct (IH (fun q' Hq' => Hl q' (or_intror Hq')) fs1 Hn1 Hinv1)
      as (fs2 & E2 & Hn2 & Hinv2 & Hkeep2 & Hin2).
    exists fs2. cbn [fold_left]. rewrite E1. split; [exact E2|]. split; [exact Hn2|].
    split; [exact Hinv2|]. split.
    + intros HT. apply Hkeep2. destruct Hw1 as [Hw1|Hw1]; rewrite Hw1; [exact HT | reflexivity].
    + intros [<-|Hin]; [|exact (Hin2 Hin)].
      apply Hkeep2. destruct (Hp1 eq_refl) as [H|[H HTR]]; [exact H|].
      rewrite H. destruct Hinv as [Hi|Hi]; [exact Hi | rewrite Hi; symmetry; exact HTR].
Qed.

End NormSpec.

Lemma getNestedValue_empty (o : option jsval) (c : string) :
  String.eqb c "" = true -> getNestedValue o c = None.
Proof.
  intros H. unfold getNestedValue. destruct o as [o|]; [|reflexivity].
  rewrite H. cbn [negb]. rewrite andb_false_r. reflexivity.
Qed.

Lemma getNestedValue_non_obj (v : jsval) (c : string) :
  (forall fs, v <> JObj fs) -> (forall l, v <> JArr l) -> getNestedValue (Some v) c = None.
Proof.
  intros H1 H2. unfold getNestedValue.
  destruct v as [n|b|s| |l|fs]; cbn [is_object truthy andb]; rewrite ?andb_false_r;
    try reflexivity.
  - exfalso. exact (H2 l eq_refl).
  - exfalso. exact (H1 fs eq_refl).
Qed.

Lemma normalize_fold_noop (ranges : list (string * Range)) (f : jsval) (l : list Priority) acc :
  (forall c, getNestedValue (Some f) c = None) ->
  fold_left (normalize_step ranges f) l acc = acc.
Proof.
  intros H. revert acc. induction l as [|q l IH]; intros acc; [reflexivity|].
  cbn [fold_left]. unfold normalize_step at 2. rewrite H. exact (IH acc).
Qed.

Lemma normalized_value (vs : list ValidOption) (ps : list Priority)
  (Hdata : forall v, In v vs ->
           no_arrays (features (vo_option v)) = true
           /\ json_clone (features (vo_option v)) = features (vo_option v))
  (Hpaths : forall p q, In p ps -> In q ps ->
            key_prefix (split_dot (criteria p)) (split_dot (criteria q)) = true ->
            criteria p = criteria q)
  (no : NormalizedOption) (p : Priority)
  (Hno : In no (normalizeOptionValues vs ps)) (Hp : In p ps) :
  getNestedValue (Some (normalizedFeatures no)) (criteria p)
  = match getNestedValue (Some (features (vo_option (no_valid no)))) (criteria p),
          assoc_get (criteriaRanges vs ps) (criteria p) with
    | Some raw, Some r =>
        if Num.gt (Fin (r_range r)) (Fin 0)
        then Some (JNum (Num.div (Num.sub (to_number raw) (Fin (r_min r))) (Fin (r_range r))))
        else getNestedValue (Some (features (vo_option (no_valid no)))) (criteria p)
    | _, _ => getNestedValue (Some (features (vo_option (no_valid no)))) (criteria p)
    end.
Proof.
  unfold normalizeOptionValues in Hno. apply in_map_iff in Hno as (v & <- & Hv).
  cbn [normalizedFeatures no_valid]. destruct (Hdata v Hv) as [Hna Hcl]. rewrite Hcl.
  destruct (String.eqb (criteria p) "") eqn:Hcp.
  { rewrite !(getNestedValue_empty _ _ Hcp).
    destruct (assoc_get (criteriaRanges vs ps) (criteria p)); reflexivity. }
  destruct (features (vo_option v)) as [n|b|s| |l|fs] eqn:Ef;
    try (rewrite normalize_fold_noop
           by (intros c; apply getNestedValue_non_obj; discriminate);
         rewrite getNestedValue_non_obj by discriminate; reflexivity).
  - destruct (norm_fold (criteriaRanges vs ps) (JObj fs) p ps fs Hna)
      as (fs' & E & Hn' & _ & _ & Hin).
    + intros q Hq. split; intros H.
      * exact (Hpaths q p Hq Hp H).
      * symmetry. exact (Hpaths p q Hp Hq H).
    + right. symmetry. apply getNestedValue_obj. exact Hcp.
    + rewrite E, (getNestedValue_obj fs' (criteria p) Hcp). exact (Hin Hp).
Qed.

Lemma in_criteria_values (vs : list ValidOption) (v : ValidOption) (c : string) (x : jsval) (q : Q) :
  In v vs -> getNestedValue (Some (features (vo_option v))) c = Some x -> x <> JNull ->
  to_number x = Fin q -> In q (criteria_values vs c).
Proof.
  intros Hv Hx Hnn Hq. unfold criteria_values. apply in_flat_map. exists v.
  split; [exact Hv|]. rewrite Hx.
  destruct x; try (rewrite Hq; left; reflexivity). contradiction.
Qed.

(** Claim C4 (amended). For feature data as JSON has it (no [NaN], which
    [JSON.parse(JSON.stringify(...))] would turn into [null]) and without
    arrays, priority paths none of which is a proper prefix of another nor
    names a member of [Object.prototype], and values at these paths that
    convert to numbers as in JavaScript ([tame_value]: bounded magnitudes,
    no ["Infinity"] string, no object with an own [toString] key): the
    range of a criterion is the minimum and maximum of the values at its
    path that are neither missing nor [null] and read as numbers; when no
    such value exists or [max == min], the normalized features keep the
    raw value; when [min < max] every present raw value [x] is replaced by
    [(Number(x) - min) / (max - min)], which lies in [[0, 1]] when [x] is
    not [null] and reads as a number (rounding of the quotient is
    monotone, so this also holds of the doubles), but is [NaN] for a
    non-numeric string (see [normalized_string_is_nan]) and is computed
    from [Number(null) = 0] for [null]. *)
Theorem normalization_spec (vs : list ValidOption) (ps : list Priority)
  (Hdata : forall v, In v vs ->
           no_arrays (features (vo_option v)) = true
           /\ json_clone (features (vo_option v)) = features (vo_option v))
  (Hpaths : forall p q, In p ps -> In q ps ->
            key_prefix (split_dot (criteria p)) (split_dot (criteria q)) = true ->
            criteria p = criteria q)
  (Hplain : forall p, In p ps -> plain_path (criteria p) = true)
  (Htame : forall v p x, In v vs -> In p ps ->
           getNestedValue (Some (features (vo_option v))) (criteria p) = Some x ->
           tame_value x = true)
  (no : NormalizedOption) (p : Priority)
  (Hno : In no (normalizeOptionValues vs ps)) (Hp : In p ps) :
  let raw := getNestedValue (Some (features (vo_option (no_valid no)))) (criteria p) in
  let norm := getNestedValue (Some (normalizedFeatures no)) (criteria p) in
  match assoc_get (criteriaRanges vs ps) (criteria p) with
  | Some r =>
      (exists v vs', criteria_values vs (criteria p) = v :: vs'
         /\ r_min r = qmin_list v vs' /\ r_max r = qmax_list v vs'
         /\ r_range r = Qred (r_max r - r_min r)
         /\ forall q, In q (v :: vs') -> r_min r <= q <= r_max r)
      /\ (r_max r == r_min r -> norm = raw)
      /\ (r_min r < r_max r -> forall x, raw = Some x ->
            norm = Some (JNum (Num.div (Num.sub (to_number x) (Fin (r_min r)))
                                       (Fin (r_range r))))
            /\ (x <> JNull -> forall q, to_number x = Fin q ->
                  exists y, norm = Some (JNum (Fin y)) /\ 0 <= y <= 1))
      /\ (raw = None -> norm = None)
  | None => norm = raw /\ criteria_values vs (criteria p) = []
  end.
Proof.
  cbv zeta. rewrite (normalized_value vs ps Hdata Hpaths no p Hno Hp).
  assert (Hv0 : In (no_valid no) vs).
  { unfold normalizeOptionValues in Hno. apply in_map_iff in Hno as (v & <- & Hv). exact Hv. }
  rewrite criteriaRanges_get.
  assert (Hex : existsb (fun p' => String.eqb (criteria p') (criteria p)) ps = true).
  { apply existsb_exists. exists p. split; [exact Hp | apply String.eqb_refl]. }
  rewrite Hex.
  destruct (criteria_values vs (criteria p)) as [|v vs'] eqn:Ecv.
  { split; [|reflexivity]. destruct (getNestedValue _ _); reflexivity. }
  destruct (qmin_list_spec v vs') as [Hmin1 Hmin2].
  destruct (qmax_list_spec v vs') as [Hmax1 Hmax2].
  cbn [r_min r_max r_range].
  split; [|split; [|split]].
  - exists v, vs'. split; [reflexivity|]. split; [reflexivity|].
    split; [reflexivity|]. split; [reflexivity|].
    intros q Hq. split.
    + destruct Hq as [<-|Hq]; [exact Hmin1 | exact (Hmin2 q Hq)].
    + destruct Hq as [<-|Hq]; [exact Hmax1 | exact (Hmax2 q Hq)].
  - intros Heq.
    rewrite gt_fin_false by (rewrite Qred_correct, Heq; lra).
    destruct (getNestedValue _ _); reflexivity.
  - intros Hlt x Hx. rewrite Hx.
    rewrite gt_fin_true by (rewrite Qred_correct; lra).
    split; [reflexivity|].
    intros Hnn q Hq. rewrite Hq.
    assert (Hin : In q (v :: vs')).
    { rewrite <- Ecv. exact (in_criteria_values vs (no_valid no) (criteria p) x q Hv0 Hx Hnn Hq). }
    assert (Hlo : qmin_list v vs' <= q)
      by (destruct Hin as [<-|Hin]; [exact Hmin1 | exact (Hmin2 q Hin)]).
    assert (Hhi : q <= qmax_list v vs')
      by (destruct Hin as [<-|Hin]; [exact Hmax1 | exact (Hmax2 q Hin)]).
    set (mn := qmin_list v vs') in *. set (mx := qmax_list v vs') in *.
    assert (Hr : 0 < Qred (mx - mn)) by (rewrite Qred_correct; lra).
    unfold Num.div, Num.sub, Num.lift2.
    destruct (Qeq_bool (Qred (mx - mn)) 0) eqn:Ez.
    { apply Qeq_bool_iff in Ez. rewrite Ez in Hr. discriminate. }
    eexists. split; [reflexivity|]. rewrite Qred_correct.
    split.
    + apply Qle_shift_div_l; [exact Hr|]. rewrite !Qred_correct. lra.
    + apply Qle_shift_div_r; [exact Hr|]. rewrite !Qred_correct. lra.
  - intros Hx. rewrite Hx. reflexivity.
Qed.

(* ------------------------------------------------------------------ *)
(** ** Instances of the properties on concrete inputs *)

(** C1 on Scenario A with the required constraint [cost lte 120]: the
    option ids are distinct, and Option2, which fails it, is not ranked. *)
Lemma constraint_compliance_witness :
  let cs := [mkConstraint "cost" "lte" (JNum (Fin 120)) None] in
  NoDup (map id scenarioA_options)
  /\ (forall o c, In o scenarioA_options -> In c cs -> is_required c = true ->
        evaluateConstraint o c = false ->
        passed (check_option o cs) = false
        /\ forall r, In r (rankedOptions (scoreOptions scenarioA_options cs
                                            scenarioA_priorities no_limit)) ->
                     optionId r <> id o).
Proof.
  intros cs.
  assert (H : NoDup (map id scenarioA_options)).
  { cbn. constructor.
    - intros [E|[]]. discriminate.
    - constructor; [intros []|constructor]. }
  split; [exact H|].
  exact (proj2 (proj2 (constraint_compliance scenarioA_options cs scenarioA_priorities
                         no_limit H))).
Defined.

(** C3 on three options over one maximized criterion: all totals are
    numbers, and the ranks are 1, 2, 3. *)
Lemma ranking_stable_dense_witness :
  let scored := calculateWeightedScores
                  (validOptions (applyConstraints close_gap_options [])) single_x_priority in
  (forall p, In p single_x_priority -> plain_path (criteria p) = true)
  /\ (forall o p x, In o close_gap_options -> In p single_x_priority ->
        getNestedValue (Some (features o)) (criteria p) = Some x -> tame_value x = true)
  /\ (forall p, In p single_x_priority -> Qabs (weight p) <= 1)
  /\ Forall (fun so => totalScore so <> NaN) scored
  /\ map rank (rank_options scored) = map Some (seq 1 (List.length scored)).
Proof.
  intros scored.
  assert (Hpl : forall p, In p single_x_priority -> plain_path (criteria p) = true).
  { intros p1 [<-|[]]. vm_compute. reflexivity. }
  assert (Ht : forall o p x, In o close_gap_options -> In p single_x_priority ->
            getNestedValue (Some (features o)) (criteria p) = Some x -> tame_value x = true).
  { intros o p1 x Ho [<-|[]] Hg. vm_compute in Ho.
    destruct Ho as [<-|[<-|[<-|[]]]]; vm_compute in Hg; injection Hg as <-;
      vm_compute; reflexivity. }
  assert (Hw : forall p, In p single_x_priority -> Qabs (weight p) <= 1).
  { intros p1 [<-|[]]. vm_compute. discriminate. }
  assert (H : Forall (fun so => totalScore so <> NaN) scored).
  { apply Forall_forall. intros so Hso. unfold scored in Hso. vm_compute in Hso.
    destruct Hso as [<-|[<-|[<-|[]]]]; vm_compute; discriminate. }
  split; [exact Hpl|]. split; [exact Ht|]. split; [exact Hw|]. split; [exact H|].
  exact (proj1 (proj2 (proj2 (proj2 (proj2 (proj2 (ranking_stable_dense close_gap_options []
                                                     single_x_priority no_limit Hpl Ht Hw H))))))).
Defined.

(** The first normalized option of Scenario A (Option1). *)
Definition scenarioA_normalized : NormalizedOption :=
  nth 0 (normalizeOptionValues (validOptions (applyConstraints scenarioA_options []))
                               scenarioA_priorities)
      (mkNormalizedOption (mkValidOption (mkOption "" "" JNull) None) JNull).

(** C4 on Scenario A: the data and paths meet the hypotheses, and the cost
    of Option1 (the minimum, 100, of the range [100, 150]) normalizes to
    [(100 - 100) / 50]. *)
Lemma normalization_spec_witness :
  let vs := validOptions (applyConstraints scenarioA_options []) in
  let ps := scenarioA_priorities in
  let p := mkPriority "cost" (6 # 10) "minimize" in
  (forall v, In v vs ->
     no_arrays (features (vo_option v)) = true
     /\ json_clone (features (vo_option v)) = features (vo_option v))
  /\ (forall p q, In p ps -> In q ps ->
        key_prefix (split_dot (criteria p)) (split_dot (criteria q)) = true ->
        criteria p = criteria q)
  /\ (forall p, In p ps -> plain_path (criteria p) = true)
  /\ (forall v p x, In v vs -> In p ps ->
        getNestedValue (Some (features (vo_option v))) (criteria p) = Some x ->
        tame_value x = true)
  /\ In scenarioA_normalized (normalizeOptionValues vs ps) /\ In p ps
  /\ getNestedValue (Some (normalizedFeatures scenarioA_normalized)) (criteria p)
     = Some (JNum (Num.div (Num.sub (Fin 100) (Fin 100)) (Fin 50))).
Proof.
  intros vs ps p.
  assert (Hd : forall v, In v vs ->
            no_arrays (features (vo_option v)) = true
            /\ json_clone (features (vo_option v)) = features (vo_option v)).
  { intros v Hv. unfold vs in Hv. vm_compute in Hv.
    destruct Hv as [<-|[<-|[]]]; split; vm_compute; reflexivity. }
  assert (Hq : forall p q, In p ps -> In q ps ->
            key_prefix (split_dot (criteria p)) (split_dot (criteria q)) = true ->
            criteria p = criteria q).
  { intros p1 q1 Hp1 Hq1. unfold ps in Hp1, Hq1. vm_compute in Hp1, Hq1.
    destruct Hp1 as [<-|[<-|[]]]; destruct Hq1 as [<-|[<-|[]]]; intros E;
      vm_compute in E; solve [reflexivity | discriminate]. }
  assert (Hpl : forall p, In p ps -> plain_path (criteria p) = true).
  { intros p1 Hp1. unfold ps in Hp1. vm_compute in Hp1.
    destruct Hp1 as [<-|[<-|[]]]; vm_compute; reflexivity. }
  assert (Ht : forall v p x, In v vs -> In p ps ->
            getNestedValue (Some (features (vo_option v))) (criteria p) = Some x ->
            tame_value x = true).
  { intros v p1 x Hv Hp1 Hg. unfold vs in Hv. unfold ps in Hp1. vm_compute in Hv, Hp1.
    destruct Hv as [<-|[<-|[]]]; destruct Hp1 as [<-|[<-|[]]];
      vm_compute in Hg; injection Hg as <-; vm_compute; reflexivity. }
  assert (Hn : In scenarioA_normalized (normalizeOptionValues vs ps))
    by (apply nth_In; vm_compute; lia).
  assert (Hp : In p ps) by (left; reflexivity).
  split; [exact Hd|]. split; [exact Hq|]. split; [exact Hpl|]. split; [exact Ht|].
  split; [exact Hn|]. split; [exact Hp|].
  pose proof (normalization_spec vs ps Hd Hq Hpl Ht scenarioA_normalized p Hn Hp) as H.
  cbv zeta in H.
  assert (E : assoc_get (criteriaRanges vs ps) (criteria p) = Some (mkRange 100 150 50))
    by (vm_compute; reflexivity).
  rewrite E in H. cbn [r_min r_max r_range] in H.
  destruct H as (_ & _ & H & _).
  destruct (H ltac:(lra) (JNum (Fin 100)) ltac:(vm_compute; reflexivity)) as [Hr _].
  exact Hr.
Defined.

(** C6 on Option1 of Scenario A: every criterion value is a number, and
    the total matches the sum of the contributions within the bound. *)
Lemma total_matches_contributions_witness :
  (forall p, In p scenarioA_priorities -> plain_path (criteria p) = true)
  /\ (forall p, In p scenarioA_priorities -> Qabs (weight p) <= 1)
  /\ (forall p nv, In p scenarioA_priorities ->
       getNestedValue (Some (normalizedFeatures scenarioA_normalized)) (criteria p) = Some nv ->
       exists q, to_number nv = Fin q /\ Qabs q <= 1000)
  /\ no_toString (features (vo_option (no_valid scenarioA_normalized))) = true
  /\ exists t ws,
    totalScore (score_option [] scenarioA_priorities scenarioA_normalized) = Fin t
    /\ map weightContribution (reasons (score_option [] scenarioA_priorities
                                                     scenarioA_normalized))
       = map Fin ws
    /\ Qabs (t - fold_right Qplus 0 ws)
       <= (1 # 200) + fold_right (fun p acc => (Qabs (weight p) + 1) * (1 # 200) + acc)
                                 0 scenarioA_priorities
          + ((Z.of_nat (List.length scenarioA_priorities) + 1) ^ 2 # 1000000000).
Proof.
  assert (H1 : forall p, In p scenarioA_priorities -> plain_path (criteria p) = true).
  { intros p Hp. vm_compute in Hp. destruct Hp as [<-|[<-|[]]]; vm_compute; reflexivity. }
  assert (H2 : forall p, In p scenarioA_priorities -> Qabs (weight p) <= 1).
  { intros p Hp. vm_compute in Hp. destruct Hp as [<-|[<-|[]]]; vm_compute; discriminate. }
  assert (H3 : forall p nv, In p scenarioA_priorities ->
            getNestedValue (Some (normalizedFeatures scenarioA_normalized)) (criteria p)
              = Some nv -> exists q, to_number nv = Fin q /\ Qabs q <= 1000).
  { intros p nv Hp Hg. vm_compute in Hp.
    destruct Hp as [<-|[<-|[]]]; vm_compute in Hg; injection Hg as <-;
      eexists; (split; [vm_compute; reflexivity | vm_compute; discriminate]). }
  assert (H4 : no_toString (features (vo_option (no_valid scenarioA_normalized))) = true)
    by (vm_compute; reflexivity).
  split; [exact H1|]. split; [exact H2|]. split; [exact H3|]. split; [exact H4|].
  exact (total_matches_contributions [] scenarioA_priorities scenarioA_normalized H1 H2 H3 H4).
Defined.

(** C8 on Option1 of Scenario A with a priority on the absent [speed]:
    its reason is [missing_data] and contributes 0. *)
Lemma missing_data_witness :
  let p := mkPriority "speed" 1 "maximize" in
  (getNestedValue (Some (normalizedFeatures scenarioA_normalized)) (criteria p) = None
   \/ getNestedValue (Some (features (vo_option (no_valid scenarioA_normalized))))
        (criteria p) = None)
  /\ exists r, nth_error (reasons (score_option [] [p] scenarioA_normalized)) 0 = Some r
       /\ status r = "missing_data" /\ weightContribution r = Fin 0.
Proof.
  intros p.
  assert (H : getNestedValue (Some (normalizedFeatures scenarioA_normalized)) (criteria p)
                = None
              \/ getNestedValue (Some (features (vo_option (no_valid scenarioA_normalized))))
                   (criteria p) = None)
    by (left; vm_compute; reflexivity).
  split; [exact H|].
  destruct (missing_data_contributes_nothing [] [] [] p scenarioA_normalized H)
    as (r & Hr & _ & Hs & _ & Hw & _).
  exists r. split; [exact Hr|]. split; [exact Hs | exact Hw].
Defined.

(* ================================================================== *)
(** * Further properties of the scoring engine *)

Lemma length_mapi_from {A B : Type} (f : nat -> A -> B) (i : nat) (l : list A) :
  List.length (mapi_from f i l) = List.length l.
Proof. revert i; induction l as [|x r IH]; intros i; simpl; [reflexivity | now rewrite IH]. Qed.

Lemma length_rank_options (scored : list ScoredOption) :
  List.length (rank_options scored) = List.length scored.
Proof.
  unfold rank_options. rewrite length_mapi_from.
  apply Permutation_length, js_sort_perm.
Qed.

Lemma length_calculateWeightedScores (vs : list ValidOption) (ps : list Priority) :
  List.length (calculateWeightedScores vs ps) = List.length vs.
Proof. unfold calculateWeightedScores, normalizeOptionValues. now rewrite !length_map. Qed.

(** [evaluateConstraint] fails whenever the option has no value (missing or
    [null]) at the constraint's path, whatever the operator ([neq]
    included), and whenever the operator is not one of the eight known
    ones. *)
Theorem evaluateConstraint_missing_or_unknown (o : Option) (c : Constraint) :
  getNestedValue (Some (features o)) (c_criteria c) = None
  \/ getNestedValue (Some (features o)) (c_criteria c) = Some JNull
  \/ ~ In (operator c) ["lt"; "lte"; "gt"; "gte"; "eq"; "neq"; "in"; "contains"] ->
  evaluateConstraint o c = false.
Proof.
  intros [H | [H | Hop]]; unfold evaluateConstraint; try (rewrite H; reflexivity).
  destruct (getNestedValue _ _) as [v|]; [|reflexivity].
  destruct v; try reflexivity;
  repeat match goal with
         | |- context [String.eqb ?a ?b] =>
             destruct (String.eqb_spec a b) as [E|_];
             [exfalso; apply Hop; rewrite E; simpl; tauto|]
         end; reflexivity.
Qed.

(** [applyConstraints] keeps, in input order, exactly the options for which
    every failed constraint is optional ([required: false]), each with its
    compliance report; [failedConstraints] lists the criteria of all failed
    constraints, required and optional, in constraint order. *)
Theorem applyConstraints_partition (options : list Option) (cs : list Constraint) :
  map vo_option (validOptions (applyConstraints options cs))
    = filter (fun o => passed (check_option o cs)) options
  /\ Forall (fun v => constraintCompliance v = Some (check_option (vo_option v) cs))
            (validOptions (applyConstraints options cs))
  /\ forall o,
       failedConstraints (check_option o cs)
         = map c_criteria (filter (fun c => negb (evaluateConstraint o c)) cs)
       /\ (passed (check_option o cs) = true
           <-> forall c, In c cs -> evaluateConstraint o c = false -> is_required c = false).
Proof.
  destruct (applyConstraints_spec options cs) as [Hv _]. rewrite Hv.
  split; [|split].
  - rewrite map_map. simpl. apply map_id.
  - apply Forall_forall. intros v Hin. apply in_map_iff in Hin as (o & <- & _). reflexivity.
  - intros o. rewrite check_option_spec. cbn [failedConstraints passed]. split; [reflexivity|].
    rewrite forallb_forall. split.
    + intros H c Hc He. specialize (H c Hc). rewrite He in H. cbn in H.
      destruct (is_required c); [discriminate | reflexivity].
    + intros H c Hc. destruct (evaluateConstraint o c) eqn:He; [reflexivity|].
      rewrite (H c Hc He). reflexivity.
Qed.

(** The summary of [scoreOptions]: all input options are counted as
    evaluated, the options passing their required constraints as meeting
    them, [topRecommendation] is the first returned option, and as many
    options are returned as pass, cut to [max_results] when it is set. *)
Theorem scoreOptions_summary (options : list Option) (cs : list Constraint)
  (ps : list Priority) (st : Settings) :
  let res := scoreOptions options cs ps st in
  let k := List.length (filter (fun o => passed (check_option o cs)) options) in
  totalOptionsEvaluated (summary res) = List.length options
  /\ optionsMeetingConstraints (summary res) = k
  /\ topRecommendation (summary res) = hd_error (rankedOptions res)
  /\ List.length (rankedOptions res)
     = match max_results st with Some (S n) => Nat.min (S n) k | _ => k end.
Proof.
  cbv zeta. destruct (applyConstraints_spec options cs) as [Hv _].
  assert (Hk : List.length (validOptions (applyConstraints options cs))
               = List.length (filter (fun o => passed (check_option o cs)) options))
    by (rewrite Hv, length_map; reflexivity).
  unfold scoreOptions.
  destruct (validOptions (applyConstraints options cs)) as [|v vs] eqn:E.
  - cbn in Hk. rewrite <- Hk. cbn.
    repeat split; try reflexivity. destruct (max_results st) as [[|n]|]; reflexivity.
  - cbn [rankedOptions summary totalOptionsEvaluated optionsMeetingConstraints
         topRecommendation].
    rewrite <- Hk. repeat split; try reflexivity.
    unfold limit_results. rewrite <- E.
    destruct (max_results st) as [[|n]|];
      rewrite ?length_firstn, length_rank_options, length_calculateWeightedScores; reflexivity.
Qed.

(* ------------------------------------------------------------------ *)
(** ** Statistics *)

Lemma qmin_list_in (x : Q) (l : list Q) : In (qmin_list x l) (x :: l).
Proof.
  unfold qmin_list. revert x; induction l as [|y l IH]; intros x; [left; reflexivity|].
  cbn [fold_left]. destruct (IH (Qmin x y)) as [E|E].
  - rewrite <- E.
    assert (Qmin x y = x \/ Qmin x y = y) as [->| ->]
      by (unfold Qmin, GenericMinMax.gmin; destruct (Qcompare x y); auto);
      simpl; tauto.
  - right; right; exact E.
Qed.

Lemma qmax_list_in (x : Q) (l : list Q) : In (qmax_list x l) (x :: l).
Proof.
  unfold qmax_list. revert x; induction l as [|y l IH]; intros x; [left; reflexivity|].
  cbn [fold_left]. destruct (IH (Qmax x y)) as [E|E].
  - rewrite <- E.
    assert (Qmax x y = x \/ Qmax x y = y) as [->| ->]
      by (unfold Qmax, GenericMinMax.gmax; destruct (Qcompare x y); auto);
      simpl; tauto.
  - right; right; exact E.
Qed.

Lemma fold_Qplus (l : list Q) (a : Q) : fold_left Qplus l a == a + fold_right Qplus 0 l.
Proof.
  revert a; induction l as [|x l IH]; intros a; simpl; [ring|]. rewrite IH. ring.
Qed.

Lemma sum_bounds (l : list Q) (lo hi : Q) :
  (forall q, In q l -> lo <= q <= hi) ->
  inject_Z (Z.of_nat (List.length l)) * lo <= fold_right Qplus 0 l
  <= inject_Z (Z.of_nat (List.length l)) * hi.
Proof.
  induction l as [|x l IH]; intros H; cbn [List.length fold_right].
  { change (inject_Z (Z.of_nat 0)) with 0. rewrite !Qmult_0_l. lra. }
  rewrite Nat2Z.inj_succ, <- Z.add_1_r, inject_Z_plus. change (inject_Z 1) with 1.
  rewrite !Qmult_plus_distr_l, !Qmult_1_l.
  destruct (H x (or_introl eq_refl)). destruct IH as [IH1 IH2]; [intros q Hq; apply H; now right|].
  generalize dependent (inject_Z (Z.of_nat (List.length l)) * lo).
  generalize dependent (inject_Z (Z.of_nat (List.length l)) * hi).
  intros; split; lra.
Qed.

Lemma stats_fold (vs : list ValidOption) (ps : list Priority) acc c st :
  assoc_get
    (fold_left (fun stats priority =>
                  match criteria_values vs (criteria priority) with
                  | [] => stats
                  | (v :: vs') as values =>
                      let sorted := js_sort (fun a b => Num.sub (Fin a) (Fin b)) values in
                      let n := List.length values in
                      assoc_put stats (criteria priority)
                        {| s_min := qmin_list v vs';
                           s_max := qmax_list v vs';
                           s_avg := Qred (fold_left Qplus values 0 / inject_Z (Z.of_nat n));
                           s_median := nth (Nat.div n 2) sorted 0;
                           count := n |}
                  end) ps acc) c = Some st ->
  (match criteria_values vs c with
   | [] => False
   | (v :: vs') as values =>
       st = {| s_min := qmin_list v vs';
               s_max := qmax_list v vs';
               s_avg := Qred (fold_left Qplus values 0
                              / inject_Z (Z.of_nat (List.length values)));
               s_median := nth (Nat.div (List.length values) 2)
                             (js_sort (fun a b => Num.sub (Fin a) (Fin b)) values) 0;
               count := List.length values |}
   end)
  \/ assoc_get acc c = Some st.
Proof.
  revert acc. induction ps as [|p ps IH]; intros acc H; [right; exact H|].
  cbn [fold_left] in H. destruct (IH _ H) as [Hl|Hr]; [left; exact Hl|].
  destruct (criteria_values vs (criteria p)) as [|v vs'] eqn:E; [right; exact Hr|].
  cbv zeta in Hr. rewrite assoc_get_put in Hr.
  destruct (String.eqb_spec c (criteria p)) as [->|_]; [|right; exact Hr].
  left. rewrite E. injection Hr as <-. reflexivity.
Qed.

(** Every statistics entry of [calculateCriteriaStatistics] is built from
    the non-empty list of numeric values at its criterion: [count] is their
    number, [min], [max] and [median] are among them, and every value and
    the median lie in [[min, max]]. Stated for criterion paths that do not
    name inherited properties and feature values that read as JavaScript
    reads them ([tame_value]); the average is left out, since a
    floating-point average can leave [[min, max]] by rounding. *)
Theorem calculateCriteriaStatistics_consistent (vs : list ValidOption) (ps : list Priority)
  (c : string) (st : Stats) :
  (forall p, In p ps -> plain_path (criteria p) = true) ->
  (forall v p x, In v vs -> In p ps ->
     getNestedValue (Some (features (vo_option v))) (criteria p) = Some x ->
     tame_value x = true) ->
  assoc_get (calculateCriteriaStatistics vs ps) c = Some st ->
  exists v vs', criteria_values vs c = v :: vs'
    /\ count st = List.length (v :: vs')
    /\ In (s_min st) (v :: vs') /\ In (s_max st) (v :: vs') /\ In (s_median st) (v :: vs')
    /\ (forall q, In q (v :: vs') -> s_min st <= q <= s_max st)
    /\ s_min st <= s_median st <= s_max st.
Proof.
  intros _ _ H. unfold calculateCriteriaStatistics in H.
  destruct (stats_fold vs ps [] c st H) as [Hs|Hs]; [|discriminate].
  destruct (criteria_values vs c) as [|v vs'] eqn:E; [contradiction|].
  cbv beta iota zeta in Hs. subst st.
  exists v, vs'. cbn [s_min s_max s_avg s_median count].
  destruct (qmin_list_spec v vs') as [Hm1 Hm2]. destruct (qmax_list_spec v vs') as [HM1 HM2].
  assert (Hall : forall q, In q (v :: vs') -> qmin_list v vs' <= q <= qmax_list v vs').
  { intros q [<-|Hq]; split; auto. }
  assert (Hmed : In (nth (Nat.div (List.length (v :: vs')) 2)
                       (js_sort (fun a b => Num.sub (Fin a) (Fin b)) (v :: vs')) 0) (v :: vs')).
  { pose proof (js_sort_perm (fun a b : Q => Num.sub (Fin a) (Fin b)) (v :: vs')) as Hp.
    apply (Permutation_in _ Hp). apply nth_In.
    rewrite (Permutation_length Hp). cbn [List.length].
    apply Nat.Div0.div_lt_upper_bound. lia. }
  split; [reflexivity|]. split; [reflexivity|].
  split; [apply qmin_list_in|]. split; [apply qmax_list_in|]. split; [exact Hmed|].
  split; [exact Hall|]. exact (Hall _ Hmed).
Qed.

(* ------------------------------------------------------------------ *)
(** ** Rounding, averages and criterion scores *)

Lemma Qfloor_bounds (a : Q) : inject_Z (Qfloor a) <= a < inject_Z (Qfloor a) + 1.
Proof.
  split; [apply Qfloor_le|]. pose proof (Qlt_floor a) as H.
  rewrite inject_Z_plus in H. exact H.
Qed.

Lemma round2_in_range (x : Q) :
  0 <= x <= 100 -> exists y, round2 (Fin x) = Fin y /\ 0 <= y <= 100.
Proof.
  intros Hx. unfold round2, Num.div, Num.round, Num.mul, Num.lift2.
  change (Qeq_bool 100 0) with false. eexists. split; [reflexivity|].
  rewrite Qred_correct.
  destruct (Qfloor_bounds (Qred (x * 100) + (1 # 2))) as [H1 H2].
  set (f := Qfloor (Qred (x * 100) + (1 # 2))) in *. clearbody f.
  pose proof (Qred_correct (x * 100)) as Hz.
  generalize dependent (Qred (x * 100)). intros z H1 H2 Hz.
  assert (Hf0 : (0 <= f)%Z).
  { assert (inject_Z (-1) < inject_Z f) as Hl by (change (inject_Z (-1)) with (-1); lra).
    rewrite <- Zlt_Qlt in Hl. lia. }
  assert (Hf1 : (f <= 10000)%Z).
  { assert (inject_Z f < inject_Z 10001) as Hl by (change (inject_Z 10001) with 10001; lra).
    rewrite <- Zlt_Qlt in Hl. lia. }
  rewrite Zle_Qle in Hf0, Hf1. change (inject_Z 0) with 0 in Hf0.
  change (inject_Z 10000) with 10000 in Hf1.
  unfold Qdiv. change (/ 100) with (1 # 100). lra.
Qed.

(** A criterion score computed from a normalized value in [[0, 1]] lies in
    [[0, 100]], for a maximized and for a minimized criterion. *)
Theorem calculateCriteriaScore_in_range (o : NormalizedOption) (p : Priority)
  (st : list (string * Stats)) (r : CriteriaResult) (q : Q) :
  calculateCriteriaScore o p st = Some r ->
  to_number (res_normalizedValue r) = Fin q -> 0 <= q <= 1 ->
  exists s, res_score r = Fin s /\ 0 <= s <= 100.
Proof.
  intros H Hq Hb. unfold calculateCriteriaScore in H.
  destruct (getNestedValue (Some (normalizedFeatures o)) (criteria p)) as [nv|]; [|discriminate].
  destruct (getNestedValue (Some (features (vo_option (no_valid o)))) (criteria p)) as [rv|];
    [|discriminate].
  injection H as <-. cbn [res_score res_normalizedValue] in *. rewrite Hq.
  change (Num.mul (Fin q) (Fin 100)) with (Fin (Qred (q * 100))).
  change (Num.sub (Fin 100) (Fin (Qred (q * 100)))) with (Fin (Qred (100 - Qred (q * 100)))).
  destruct (String.eqb (optimization p) "minimize").
  - apply (round2_in_range (Qred (100 - Qred (q * 100)))). rewrite !Qred_correct. lra.
  - apply (round2_in_range (Qred (q * 100))). rewrite Qred_correct. lra.
Qed.

Lemma filter_not_nan (l : list number) :
  exists qs, filter (fun n => negb (Num.is_nan n)) l = map Fin qs
    /\ forall x, In x qs <-> In (Fin x) l.
Proof.
  induction l as [|n l (qs & E & H)]; [exists []; split; [reflexivity | simpl; tauto]|].
  destruct n as [x|]; cbn [filter Num.is_nan negb].
  - exists (x :: qs). rewrite E. split; [reflexivity|].
    intros y. simpl. rewrite H. split; intros [E'|E']; auto.
    + left; now subst. + left; now injection E'.
  - exists qs. split; [exact E|]. intros y. rewrite H. simpl.
    split; [auto|intros [E'|E']; [discriminate|exact E']].
Qed.

Lemma fold_add_fin (qs : list Q) (a : Q) :
  exists s, fold_left Num.add (map Fin qs) (Fin a) = Fin s /\ s == a + fold_right Qplus 0 qs.
Proof.
  revert a; induction qs as [|x qs IH]; intros a; simpl.
  - exists a. split; [reflexivity | ring].
  - destruct (IH (Qred (a + x))) as (s & E & Hs). exists s. split; [exact E|].
    rewrite Hs, Qred_correct. ring.
Qed.

(* ------------------------------------------------------------------ *)
(** ** setNestedValue and getNestedValue *)

Lemma set_path_obj (fs : list (string * jsval)) (pre : list string) (l : string) (v : jsval) :
  exists fs', set_path (JObj fs) pre l v = JObj fs'.
Proof. destruct pre; eexists; reflexivity. Qed.

(** On an object without arrays, [setNestedValue] at a non-empty path
    makes [getNestedValue] at that path return the value written, and
    leaves the value at every other path unchanged, unless one of the two
    paths is a prefix of the other (segment by segment). Both paths are
    [plain_path]s: no segment names an inherited property such as
    [__proto__], whose assignment JavaScript treats specially. *)
Theorem setNestedValue_roundtrip (fs : list (string * jsval)) (path q : string) (v : jsval) :
  no_arrays (JObj fs) = true -> String.eqb path "" = false -> plain_path path = true ->
  getNestedValue (Some (setNestedValue (JObj fs) path v)) path = Some v
  /\ (plain_path q = true -> key_prefix (split_dot path) (split_dot q) = false ->
      key_prefix (split_dot q) (split_dot path) = false ->
      getNestedValue (Some (setNestedValue (JObj fs) path v)) q
      = getNestedValue (Some (JObj fs)) q).
Proof.
  intros Ha Hp _. unfold setNestedValue. cbn [truthy is_object andb]. rewrite Hp. cbn [negb].
  set (ks := split_dot path).
  assert (Hks : ks = (removelast ks ++ [last ks ""])%list)
    by (apply app_removelast_last, split_dot_nonempty).
  set (pre := removelast ks) in *. set (l := last ks "") in *.
  destruct (set_path_obj fs pre l v) as [fs' E]. rewrite E.
  split.
  - rewrite getNestedValue_obj by exact Hp. rewrite <- E. fold ks. rewrite Hks.
    apply walk_set_same. exact Ha.
  - intros _ K1 K2. fold ks in K1, K2.
    destruct (String.eqb q "") eqn:Eq.
    + unfold getNestedValue. rewrite Eq. cbn. reflexivity.
    + rewrite !getNestedValue_obj by exact Eq. rewrite <- E.
      apply walk_set_other; [exact Ha | rewrite <- Hks; exact K1 | rewrite <- Hks; exact K2].
Qed.

(* ------------------------------------------------------------------ *)
(** ** Trade-off analysis *)

Lemma length_flat_map_le {A B : Type} (f : A -> list B) (l : list A) :
  (forall x, List.length (f x) <= 1)%nat ->
  (List.length (flat_map f l) <= List.length l)%nat.
Proof.
  intros H. induction l as [|x l IH]; simpl; [lia|]. rewrite length_app.
  specialize (H x). lia.
Qed.

Lemma in_firstn_sub {A : Type} (x : A) (n : nat) (l : list A) :
  In x (firstn n l) -> In x l.
Proof. intros H. rewrite <- (firstn_skipn n l). apply in_or_app. left. exact H. Qed.

Lemma in_firstn_app (x : string) (a b : list string) (n : nat) :
  (List.length a < n)%nat -> In x (firstn n (a ++ x :: b)).
Proof.
  revert n; induction a as [|y a IH]; intros n Hn; destruct n as [|n]; simpl in *; try lia.
  - left; reflexivity.
  - right. apply IH. lia.
Qed.

(** [generateTradeOffAnalysis] returns the ranked options in the same
    order, with the same ids, scores, ranks and reasons, each with a
    trade-off analysis: its strengths are the first
    [min(3, number of positive reasons)] texts ["Strong <criteria>: ..."]
    built from positive reasons, its weaknesses likewise from negative
    reasons, and it has at most 4 key differentiators. *)
Theorem generateTradeOffAnalysis_shape (ranked : list ScoredOption) (ps : list Priority) :
  let out := generateTradeOffAnalysis ranked ps in
  map optionId out = map optionId ranked
  /\ map totalScore out = map totalScore ranked
  /\ map rank out = map rank ranked
  /\ map reasons out = map reasons ranked
  /\ Forall (fun o => exists t, tradeOffs o = Some t
       /\ List.length (strengths t)
          = Nat.min 3 (List.length (filter (fun r => String.eqb (impact r) "positive") (reasons o)))
       /\ List.length (weaknesses t)
          = Nat.min 3 (List.length (filter (fun r => String.eqb (impact r) "negative") (reasons o)))
       /\ (List.length (keyDifferentiators t) <= 4)%nat
       /\ Forall (fun s => exists r, In r (reasons o) /\ impact r = "positive"
                   /\ s = "Strong " ++ r_criteria r ++ ": " ++ reason_formatted r
                          ++ " (" ++ reason_level r ++ ")") (strengths t)
       /\ Forall (fun s => exists r, In r (reasons o) /\ impact r = "negative"
                   /\ s = "Weak " ++ r_criteria r ++ ": " ++ reason_formatted r
                          ++ " (" ++ reason_level r ++ ")") (weaknesses t)) out.
Proof.
  cbv zeta. unfold generateTradeOffAnalysis. rewrite !map_map. cbn.
  split; [reflexivity|]. split; [reflexivity|]. split; [reflexivity|]. split; [reflexivity|].
  apply Forall_forall. intros o Hin. apply in_map_iff in Hin as (o0 & <- & _).
  eexists. split; [reflexivity|]. unfold analyzeOptionTradeOffs. cbv zeta.
  cbn [strengths weaknesses keyDifferentiators reasons].
  set (P := filter (fun r => String.eqb (impact r) "positive") (reasons o0)).
  set (N := filter (fun r => String.eqb (impact r) "negative") (reasons o0)).
  assert (HP := js_sort_perm by_contribution_desc P).
  assert (HN := js_sort_perm by_contribution_desc N).
  assert (Hgen : forall (pre : string) (imp : string) (L : list Reason),
             L = filter (fun r => String.eqb (impact r) imp) (reasons o0) ->
             Permutation (js_sort by_contribution_desc L) L ->
             List.length (firstn 3 (map (fun r => pre ++ r_criteria r ++ ": " ++ reason_formatted r
                                         ++ " (" ++ reason_level r ++ ")")
                                      (firstn 3 (js_sort by_contribution_desc L))))
               = Nat.min 3 (List.length L)
             /\ Forall (fun s => exists r, In r (reasons o0) /\ impact r = imp
                   /\ s = pre ++ r_criteria r ++ ": " ++ reason_formatted r
                          ++ " (" ++ reason_level r ++ ")")
                  (firstn 3 (map (fun r => pre ++ r_criteria r ++ ": " ++ reason_formatted r
                                           ++ " (" ++ reason_level r ++ ")")
                                 (firstn 3 (js_sort by_contribution_desc L))))).
  { intros pre imp L EL Hperm. split.
    - rewrite !length_firstn, length_map, length_firstn, (Permutation_length Hperm). lia.
    - apply Forall_forall. intros s Hs.
      apply in_firstn_sub in Hs. apply in_map_iff in Hs as (r & <- & Hr).
      apply in_firstn_sub in Hr. apply (Permutation_in _ Hperm) in Hr.
      rewrite EL in Hr. apply filter_In in Hr as [Hr Hi].
      exists r. split; [exact Hr|]. split; [apply String.eqb_eq, Hi | reflexivity]. }
  destruct (Hgen "Strong " "positive" P eq_refl HP) as [S1 S2].
  destruct (Hgen "Weak " "negative" N eq_refl HN) as [W1 W2].
  split; [exact S1|]. split; [exact W1|]. split; [rewrite length_firstn; lia|].
  split; [exact S2 | exact W2].
Qed.

(** The note ["Top overall recommendation based on your priorities"] is
    pushed after the per-criterion differentiators and the list is cut to
    4: the top-ranked option keeps it when it has fewer than 4 criterion
    scores, and loses it when 4 criteria differentiate it (four equally
    weighted criteria where the leader is far ahead on each). *)
Theorem top_note_position (o : ScoredOption) (all : list ScoredOption) (ps : list Priority) :
  (rank o = Some 1%nat -> (List.length (criteriaScores o) < 4)%nat ->
   In "Top overall recommendation based on your priorities"
      (keyDifferentiators (analyzeOptionTradeOffs o all ps)))
  /\ match cmp_rankedOptions (processComparison rounding_options [] four_priorities no_limit) with
     | top :: _ =>
         rank top = Some 1%nat
         /\ option_map (fun t => existsb (String.eqb
                                   "Top overall recommendation based on your priorities")
                                   (keyDifferentiators t)) (tradeOffs top) = Some false
     | [] => False
     end.
Proof.
  split; [|vm_compute; split; reflexivity].
  intros Hr Hn. unfold analyzeOptionTradeOffs. cbv zeta.
  cbn [keyDifferentiators]. rewrite Hr. cbn [app].
  apply in_firstn_app.
  eapply Nat.le_lt_trans; [|exact Hn].
  apply length_flat_map_le. intros [c sd].
  match goal with |- (List.length (if ?b then _ else _) <= 1)%nat => destruct b end;
    [|cbn; lia].
  match goal with |- (List.length (match ?m with Some _ => _ | None => _ end) <= 1)%nat =>
                    destruct m end; cbn; lia.
Qed.

(* ------------------------------------------------------------------ *)
(** ** findDuplicates *)

Lemma same_value_zero_sym (a b : jsval) : same_value_zero a b = same_value_zero b a.
Proof.
  destruct a as [[x|]|x|x| | |], b as [[y|]|y|y| | |]; cbn; try reflexivity.
  - destruct (Qeq_bool x y) eqn:E1, (Qeq_bool y x) eqn:E2; try reflexivity.
    + apply Qeq_bool_iff in E1. apply Qeq_bool_neq in E2. exfalso. apply E2. symmetry. exact E1.
    + apply Qeq_bool_iff in E2. apply Qeq_bool_neq in E1. exfalso. apply E1. symmetry. exact E2.
  - destruct x, y; reflexivity.
  - apply String.eqb_sym.
Qed.

Lemma find_dups_nonempty (seen dups l : list jsval) :
  dups <> [] -> find_dups seen dups l <> [].
Proof.
  revert seen dups. induction l as [|x r IH]; intros seen dups H; cbn [find_dups]; [exact H|].
  destruct (existsb (same_value_zero x) seen); apply IH; [|exact H].
  destruct (existsb (same_value_zero x) dups); [exact H|].
  destruct dups; discriminate.
Qed.

Lemma find_dups_nil_iff (seen dups l : list jsval) :
  find_dups seen dups l = []
  <-> dups = [] /\ Forall (fun y => existsb (same_value_zero y) seen = false) l
      /\ ForallOrdPairs (fun a b => same_value_zero a b = false) l.
Proof.
  revert seen dups. induction l as [|x r IH]; intros seen dups; cbn [find_dups].
  - split; [intros H; repeat split; [exact H | constructor | constructor]|].
    intros [H _]; exact H.
  - destruct (existsb (same_value_zero x) seen) eqn:Ex.
    + split.
      * intros H. exfalso. revert H. apply find_dups_nonempty.
        destruct (existsb (same_value_zero x) dups) eqn:Ed.
        -- destruct dups; [discriminate | intros; discriminate].
        -- destruct dups; discriminate.
      * intros (_ & HF & _). inversion HF; congruence.
    + rewrite IH. split.
      * intros (Hd & HF & HP). split; [exact Hd|]. split.
        -- constructor; [exact Ex|]. eapply Forall_impl; [|exact HF].
           intros y Hy. cbv beta in Hy. rewrite existsb_app in Hy. apply orb_false_iff in Hy. apply Hy.
        -- constructor; [|exact HP]. apply Forall_forall. intros y Hy.
           apply (proj1 (Forall_forall _ _) HF) in Hy. cbv beta in Hy. rewrite existsb_app in Hy.
           apply orb_false_iff in Hy as [_ Hy]. cbn in Hy. rewrite orb_false_r in Hy.
           rewrite same_value_zero_sym. exact Hy.
      * intros (Hd & HF & HP). inversion HF as [|? ? _ HF']; subst.
        inversion HP as [|? ? HA HP']; subst.
        split; [reflexivity|]. split; [|exact HP'].
        apply Forall_forall. intros y Hy. rewrite existsb_app. apply orb_false_iff. split.
        -- exact (proj1 (Forall_forall _ _) HF' y Hy).
        -- cbn. rewrite orb_false_r, same_value_zero_sym.
           exact (proj1 (Forall_forall _ _) HA y Hy).
Qed.

(** [findDuplicates] returns an empty array exactly when no two elements
    of the input (at distinct positions) are equal under SameValueZero. *)
Theorem findDuplicates_empty_iff (l : list jsval) :
  findDuplicates l = [] <-> ForallOrdPairs (fun a b => same_value_zero a b = false) l.
Proof.
  unfold findDuplicates. rewrite find_dups_nil_iff. split.
  - intros (_ & _ & H). exact H.
  - intros H. split; [reflexivity|]. split; [|exact H].
    apply Forall_forall. intros; reflexivity.
Qed.

(* ------------------------------------------------------------------ *)
(** ** Validators *)

Lemma concat_mapi_nil {A B : Type} (f : nat -> A -> list B) (P : A -> Prop)
  (i : nat) (l : list A) :
  (forall j x, f j x = [] <-> P x) -> (concat (mapi_from f i l) = [] <-> Forall P l).
Proof.
  intros Hf. revert i. induction l as [|x r IH]; intros i; cbn [mapi_from concat].
  - split; intros; [constructor | reflexivity].
  - split.
    + intros H. apply app_eq_nil in H as [H1 H2].
      constructor; [apply (proj1 (Hf i x)); exact H1 | apply (proj1 (IH (S i))); exact H2].
    + intros H. inversion H as [|? ? Hx Hr]; subst.
      rewrite (proj2 (Hf i x) Hx), (proj2 (IH (S i)) Hr). reflexivity.
Qed.

Lemma read_all_none (k : string) (l : list jsval) : read_all k l = None <-> In JNull l.
Proof.
  induction l as [|x r IH]; cbn [read_all In]; [split; [discriminate | contradiction]|].
  destruct x; try (split; [intros _; left; reflexivity | reflexivity]);
    (destruct (read_all k r); cbn; split;
     [discriminate | intros [H|H]; [discriminate | apply IH in H; discriminate]
     | intros _; right; apply IH; reflexivity | reflexivity]).
Qed.

Lemma read_all_some (k : string) (l : list jsval) (r : list (option jsval)) :
  read_all k l = Some r -> r = map (fun x => get_prop x k) l.
Proof.
  revert r. induction l as [|x l IH]; intros r H; cbn [read_all] in H.
  - injection H as <-. reflexivity.
  - destruct x; try discriminate;
      (destruct (read_all k l) eqn:E; [|discriminate]); cbn in H; injection H as <-;
      cbn [map]; f_equal; apply IH; reflexivity.
Qed.

Lemma read_all_objs (k : string) (l : list jsval) :
  ~ In JNull l -> read_all k l = Some (map (fun x => get_prop x k) l).
Proof.
  intros H. destruct (read_all k l) eqn:E.
  - f_equal. apply (read_all_some k l l0 E).
  - apply read_all_none in E. contradiction.
Qed.

Lemma filter_truthy_strs (ids : list string) :
  Forall (fun i => i <> "") ids ->
  filter_truthy (map (fun i => Some (JStr i)) ids) = map JStr ids.
Proof.
  induction ids as [|i r IH]; intros H; [reflexivity|].
  inversion H as [|? ? Hi Hr]; subst. cbn. apply String.eqb_neq in Hi. rewrite Hi. cbn.
  f_equal. apply IH. exact Hr.
Qed.

Lemma dups_strs_nodup (l : list string) :
  findDuplicates (map JStr l) = [] <-> NoDup l.
Proof.
  rewrite findDuplicates_empty_iff.
  induction l as [|x r IH]; cbn [map].
  - split; constructor.
  - split.
    + intros H. inversion H as [|? ? HA HP]; subst. constructor; [|apply IH; exact HP].
      intros Hin. rewrite Forall_map in HA.
      apply (proj1 (Forall_forall _ _) HA) in Hin. cbn in Hin.
      rewrite String.eqb_refl in Hin. discriminate.
    + intros H. inversion H as [|? ? Hx Hr]; subst. constructor; [|apply IH; exact Hr].
      rewrite Forall_map. apply Forall_forall. intros y Hy. cbn.
      apply String.eqb_neq. intros <-. contradiction.
Qed.

Lemma obj_not_null (P : jsval -> Prop) (l : list jsval) :
  (forall x, P x -> exists fs, x = JObj fs) -> Forall P l -> ~ In JNull l.
Proof.
  intros HP Hl Hin. apply (proj1 (Forall_forall _ _) Hl) in Hin.
  destruct (HP _ Hin) as [fs E]. discriminate.
Qed.

(** Repeatedly splits the boolean conditions of a hypothesis that states
    a list of errors is empty, dropping the branches that add an error. *)
Ltac split_errors H :=
  repeat (match type of H with
          | context [if ?c then _ else _] =>
              let Ec := fresh "Ec" in destruct c eqn:Ec; cbn -[num_to_string] in H; try discriminate
          end).

Ltac field_cases E H :=
  destruct E as [[[?|]|?|?| | |]|] eqn:?; cbn -[num_to_string] in H; try discriminate; split_errors H.

Lemma single_option_ok (o : jsval) (i : nat) :
  validateSingleOption o i = [] <-> option_shape o.
Proof.
  split.
  - intros H. unfold validateSingleOption in H.
    destruct o as [[q|]|b|s| |l|fs]; cbn in H; rewrite ?orb_true_r in H; try discriminate.
    apply app_eq_nil in H as [H1 H4]. apply app_eq_nil in H1 as [Hid H1].
    apply app_eq_nil in H1 as [Hn H1]. apply app_eq_nil in H1 as [Hf _].
    field_cases (assoc_get fs "id") Hid.
    field_cases (assoc_get fs "name") Hn.
    field_cases (assoc_get fs "features") Hf.
    match goal with E : assoc_get fs "features" = Some (JObj ?ffs) |- _ =>
      cbn in H4; destruct ffs as [|kv ffs']; [discriminate|] end.
    rewrite ?negb_involutive in *.
    do 4 eexists. split; [reflexivity|].
    repeat split; try eassumption; try (apply String.eqb_neq; assumption); discriminate.
  - intros (fs & s & n & ffs & -> & Eid & Hs & En & Hn & Ef & Hf).
    unfold validateSingleOption. cbn. rewrite Eid, En, Ef.
    apply String.eqb_neq in Hs, Hn. cbn. rewrite Hs, Hn. cbn.
    destruct ffs; [congruence|]. reflexivity.
Qed.

Lemma option_shape_obj (o : jsval) : option_shape o -> exists fs, o = JObj fs.
Proof. intros (fs & _ & _ & _ & E & _). exists fs. exact E. Qed.

(** [validateOptions] reports no error exactly when it is given an array
    of at least two objects, each with a non-empty string [id] and [name]
    and a non-empty object [features], whose ids are pairwise distinct. *)
Theorem validateOptions_ok_iff (v : option jsval) :
  validateOptions v = Some []
  <-> exists os ids, v = Some (JArr os) /\ (2 <= List.length os)%nat
      /\ Forall option_shape os
      /\ map (fun o => get_prop o "id") os = map (fun i => Some (JStr i)) ids
      /\ NoDup ids.
Proof.
  split.
  - intros H. unfold validateOptions in H.
    destruct v as [[[q|]|b|s| |os|fs]|]; cbn in H;
      try (destruct (Qeq_bool q 0)); try destruct b; try (destruct (String.eqb s ""));
      try discriminate.
    destruct os as [|o0 os']; [discriminate|].
    set (os := o0 :: os') in *.
    destruct (read_all "id" os) as [ids0|] eqn:R; [|discriminate].
    injection H as H. apply app_eq_nil in H as [H1 H]. apply app_eq_nil in H as [H2 H3].
    assert (Hlen : (2 <= List.length os)%nat).
    { unfold os. destruct os' as [|o1 r]; [cbn in H1; discriminate | cbn; lia]. }
    assert (Hsh : Forall option_shape os).
    { eapply concat_mapi_nil; [|exact H2]. intros j x. apply single_option_ok. }
    apply read_all_some in R. subst ids0.
    set (ids := map (fun o => match get_prop o "id" with Some (JStr i) => i | _ => "" end) os).
    assert (Hids : map (fun o => get_prop o "id") os = map (fun i => Some (JStr i)) ids).
    { unfold ids. rewrite map_map. apply map_ext_Forall. eapply Forall_impl; [|exact Hsh].
      intros o (fs & i & n & ffs & -> & Eid & _). cbn. rewrite Eid. reflexivity. }
    assert (Hne : Forall (fun i => i <> "") ids).
    { unfold ids. rewrite Forall_map. eapply Forall_impl; [|exact Hsh].
      intros o (fs & i & n & ffs & -> & Eid & Hi & _). cbn. rewrite Eid. exact Hi. }
    rewrite Hids, (filter_truthy_strs ids Hne) in H3.
    exists os, ids. repeat split; try assumption.
    apply dups_strs_nodup. destruct (findDuplicates (map JStr ids)); [reflexivity | discriminate].
  - intros (os & ids & -> & Hlen & Hsh & Hids & Hnd).
    unfold validateOptions. cbn [opt_truthy truthy negb].
    destruct os as [|o0 os']; [cbn in Hlen; lia|].
    rewrite (read_all_objs "id" _ (obj_not_null _ _ option_shape_obj Hsh)).
    assert (Hne : Forall (fun i => i <> "") ids).
    { apply Forall_forall. intros i Hi.
      assert (Hin : In (Some (JStr i)) (map (fun o => get_prop o "id") (o0 :: os')))
        by (rewrite Hids; apply in_map_iff; exists i; split; [reflexivity | exact Hi]).
      apply in_map_iff in Hin as (o & Eo & Ho).
      destruct (proj1 (Forall_forall _ _) Hsh o Ho) as (fs & j & n & ffs & -> & Eid & Hj & _).
      cbn in Eo. rewrite Eid in Eo. injection Eo as ->. exact Hj. }
    rewrite Hids, (filter_truthy_strs ids Hne).
    apply dups_strs_nodup in Hnd. rewrite Hnd.
    destruct (List.length (o0 :: os') <? 2)%nat eqn:E; [apply Nat.ltb_lt in E; lia|].
    rewrite (proj2 (concat_mapi_nil _ option_shape 0 _ (fun j x => single_option_ok x j)) Hsh).
    reflexivity.
Qed.

Lemma includes_str_in (l : list string) (s : string) :
  includes_str l (Some (JStr s)) = true <-> In s l.
Proof.
  cbn [includes_str]. rewrite existsb_exists. split.
  - intros (x & Hx & E). apply String.eqb_eq in E. subst. exact Hx.
  - intros H. exists s. split; [exact H | apply String.eqb_refl].
Qed.

Lemma single_constraint_ok (c : jsval) (i : nat) :
  validateSingleConstraint c i = [] <-> constraint_shape c.
Proof.
  split.
  - intros H. unfold validateSingleConstraint in H.
    destruct c as [[q|]|b|s| |l|fs]; cbn in H; rewrite ?orb_true_r in H; try discriminate.
    apply app_eq_nil in H as [H1 H]. apply app_eq_nil in H as [H2 H].
    apply app_eq_nil in H as [H3 H4].
    field_cases (assoc_get fs "criteria") H1.
    field_cases (assoc_get fs "operator") H2.
    rename s into crit, s0 into op.
    destruct (assoc_get fs "value") as [v|] eqn:Ev; [|discriminate].
    assert (Hv : v <> JNull) by (intros ->; discriminate H3).
    assert (Hr : assoc_get fs "required" = None
                 \/ exists b, assoc_get fs "required" = Some (JBool b)).
    { destruct (assoc_get fs "required") as [r|]; [|left; reflexivity].
      destruct r; cbn in H4; try discriminate. right. eexists. reflexivity. }
    rewrite ?negb_involutive in *.
    exists fs, crit, op, v. split; [reflexivity|].
    repeat split; try assumption; try (apply String.eqb_neq; assumption).
    match goal with E : negb _ = false |- _ =>
      apply negb_false_iff in E; apply (proj1 (includes_str_in validOperators op)); exact E end.
  - intros (fs & crit & op & v & -> & Ec & Hc & Eo & Ho & Ev & Hv & Hr).
    unfold validateSingleConstraint. cbn. rewrite Ec, Eo, Ev.
    apply String.eqb_neq in Hc. cbn. rewrite Hc.
    assert (Hop : String.eqb op "" = false)
      by (apply String.eqb_neq; intros ->; cbn in Ho; intuition discriminate).
    rewrite Hop. apply includes_str_in in Ho. cbn [negb opt_truthy truthy].
    cbn in Ho.
    rewrite Ho. cbn.
    destruct Hr as [-> | [b ->]]; destruct v; try congruence; reflexivity.
Qed.

(** [validateConstraints] reports no error exactly when it is given an
    array (possibly empty) of objects, each with a non-empty string
    [criteria], an [operator] among [lt, lte, gt, gte, eq, neq, in,
    contains], a [value] that is present and not [null], and a [required]
    flag that is absent or a boolean. *)
Theorem validateConstraints_ok_iff (v : option jsval) :
  validateConstraints v = [] <-> exists cs, v = Some (JArr cs) /\ Forall constraint_shape cs.
Proof.
  split.
  - intros H. unfold validateConstraints in H.
    destruct v as [[[q|]|b|s| |cs|fs]|]; cbn in H;
      try (destruct (Qeq_bool q 0)); try destruct b; try (destruct (String.eqb s ""));
      try discriminate.
    exists cs. split; [reflexivity|].
    eapply concat_mapi_nil; [|exact H]. intros j x. apply single_constraint_ok.
  - intros (cs & -> & Hcs). unfold validateConstraints. cbn [opt_truthy truthy negb].
    apply (proj2 (concat_mapi_nil _ constraint_shape 0 _ (fun j x => single_constraint_ok x j))).
    exact Hcs.
Qed.

Lemma single_priority_ok (p : jsval) (i : nat) :
  validateSinglePriority p i = [] <-> priority_shape p.
Proof.
  split.
  - intros H. unfold validateSinglePriority in H.
    destruct p as [[q|]|b|s| |l|fs]; cbn -[num_to_string] in H; rewrite ?orb_true_r in H; try discriminate.
    apply app_eq_nil in H as [H1 H]. apply app_eq_nil in H as [H2 H3].
    field_cases (assoc_get fs "criteria") H1.
    field_cases (assoc_get fs "weight") H2.
    field_cases (assoc_get fs "optimization") H3.
    rename s into crit, s0 into opt.
    rewrite ?negb_involutive in *.
    match goal with E : negb (Qle_bool _ _) || negb (Qle_bool _ _) = false |- _ =>
      apply orb_false_iff in E as [Hlo Hhi] end.
    apply negb_false_iff, Qle_bool_iff in Hlo, Hhi.
    exists fs, crit, q, opt. split; [reflexivity|].
    repeat split; try assumption; try (apply String.eqb_neq; assumption).
    match goal with E : negb _ = false |- _ =>
      apply negb_false_iff in E; apply (proj1 (includes_str_in validOptimizations opt)); exact E end.
  - intros (fs & crit & w & opt & -> & Ec & Hc & Ew & [Hlo Hhi] & Eo & Ho).
    unfold validateSinglePriority. cbn -[num_to_string]. rewrite Ec, Ew, Eo.
    apply String.eqb_neq in Hc. cbn -[num_to_string]. rewrite Hc.
    assert (Hop : String.eqb opt "" = false)
      by (apply String.eqb_neq; intros ->; cbn in Ho; intuition discriminate).
    rewrite Hop. apply includes_str_in in Ho.
    cbn in Ho.
    cbn [negb]. rewrite Ho.
    apply Qle_bool_iff in Hlo, Hhi. rewrite Hlo, Hhi. reflexivity.
Qed.

Lemma priority_shape_obj (p : jsval) : priority_shape p -> exists fs, p = JObj fs.
Proof. intros (fs & _ & _ & _ & E & _). exists fs. exact E. Qed.

Lemma shape_field_strs (P : jsval -> Prop) (k : string) (l : list jsval) :
  (forall x, P x -> exists s, get_prop x k = Some (JStr s) /\ s <> "") ->
  Forall P l ->
  exists ss, map (fun x => get_prop x k) l = map (fun s => Some (JStr s)) ss
             /\ Forall (fun s => s <> "") ss.
Proof.
  intros HP. induction l as [|x r IH]; intros Hl; [exists []; split; [reflexivity | constructor]|].
  inversion Hl as [|? ? Hx Hr]; subst. destruct (HP x Hx) as (s & Es & Hs).
  destruct (IH Hr) as (ss & E & Hss). exists (s :: ss). cbn. rewrite Es, E.
  split; [reflexivity | constructor; assumption].
Qed.

Lemma shape_field_weights (l : list jsval) :
  Forall priority_shape l ->
  exists ws, map (fun x => get_prop x "weight") l = map (fun w => Some (JNum (Fin w))) ws.
Proof.
  induction l as [|x r IH]; intros Hl; [exists []; reflexivity|].
  inversion Hl as [|? ? Hx Hr]; subst. destruct Hx as (fs & c & w & o & -> & _ & _ & Ew & _).
  destruct (IH Hr) as (ws & E). exists (w :: ws). cbn. rewrite Ew, E. reflexivity.
Qed.

Lemma valid_weights_map (ws : list Q) :
  flat_map (fun w => match w with Some (JNum (Fin q)) => [Fin q] | _ => [] end)
           (map (fun w => Some (JNum (Fin w))) ws) = map Fin ws.
Proof. induction ws as [|w ws IH]; [reflexivity|]. cbn. rewrite IH. reflexivity. Qed.

Lemma map_strs_inj (ss ts : list string) :
  map (fun s => Some (JStr s)) ss = map (fun s => Some (JStr s)) ts -> ss = ts.
Proof.
  revert ts. induction ss as [|s ss IH]; intros [|t ts] H; cbn in H; try discriminate; [reflexivity|].
  injection H as -> H. f_equal. apply IH. exact H.
Qed.

Lemma map_weights_inj (ws vs : list Q) :
  map (fun w => Some (JNum (Fin w))) ws = map (fun w => Some (JNum (Fin w))) vs -> ws = vs.
Proof.
  revert vs. induction ws as [|w ws IH]; intros [|v vs] H; cbn in H; try discriminate; [reflexivity|].
  injection H as -> H. f_equal. apply IH. exact H.
Qed.

Lemma weight_sum_ok (ws : list Q) :
  ws <> [] ->
  (match map Fin ws with
   | [] => []
   | _ => if Num.gt (num_abs (Num.sub (fold_left Num.add (map Fin ws) (Fin 0)) (Fin 1)))
                    (Fin (1 # 100)) then
            [("Priority weights must sum to 1.0 (current sum: "
              ++ toFixed (fold_left Num.add (map Fin ws) (Fin 0)) 3 ++ ")")%string]
          else []
   end = [] <-> Qabs (fold_right Qplus 0 ws - 1) <= 1 # 100).
Proof.
  intros Hne. destruct ws as [|w0 ws']; [congruence|].
  destruct (fold_add_fin (w0 :: ws') 0) as (s & Es & Hs).
  cbv zeta. cbn [map]. cbn [map] in Es. rewrite Es.
  cbn [Num.sub lift2 num_abs Num.gt Num.lt].
  assert (Habs : Qabs (Qred (s - 1)) == Qabs (fold_right Qplus 0 (w0 :: ws') - 1))
    by (apply Qabs_wd; rewrite Qred_correct, Hs; ring).
  assert (Hb : Qle_bool (Qabs (Qred (s - 1))) (1 # 100)
               = Qle_bool (Qabs (fold_right Qplus 0 (w0 :: ws') - 1)) (1 # 100)).
  { apply eq_true_iff_eq. rewrite !Qle_bool_iff. split; intros H; [rewrite <- Habs | rewrite Habs]; exact H. }
  rewrite Hb. destruct (Qle_bool (Qabs (fold_right Qplus 0 (w0 :: ws') - 1)) (1 # 100)) eqn:E.
  - rewrite Qle_bool_iff in E. cbn [negb]. split; intros; [exact E | reflexivity].
  - cbn [negb]. split; [discriminate|]. intros H. apply Qle_bool_iff in H. congruence.
Qed.

(** [validatePriorities] reports no error exactly when it is given a
    non-empty array of objects, each with a non-empty string [criteria], a
    numeric [weight] in [[0, 1]] and an [optimization] of [minimize] or
    [maximize], whose criteria are pairwise distinct and whose weights sum
    to 1 within 0.01 (the sum taken exactly; near the 0.01 boundary a
    floating-point sum can decide otherwise). *)
Lemma validatePriorities_ok_iff (v : option jsval) :
  validatePriorities v = Some []
  <-> exists ps cs ws, v = Some (JArr ps) /\ ps <> []
      /\ Forall priority_shape ps
      /\ map (fun p => get_prop p "criteria") ps = map (fun c => Some (JStr c)) cs
      /\ NoDup cs
      /\ map (fun p => get_prop p "weight") ps = map (fun w => Some (JNum (Fin w))) ws
      /\ Qabs (fold_right Qplus 0 ws - 1) <= 1 # 100.
Proof.
  assert (Hcrit : forall x, priority_shape x ->
                  exists s, get_prop x "criteria" = Some (JStr s) /\ s <> "")
    by (intros x (fs & c & w & o & -> & Ec & Hc & _); exists c; split; assumption).
  split.
  - intros H. unfold validatePriorities in H.
    destruct v as [[[q|]|b|s| |ps|fs]|]; cbn in H;
      try (destruct (Qeq_bool q 0)); try destruct b; try (destruct (String.eqb s ""));
      try discriminate.
    destruct ps as [|p0 ps']; [discriminate|].
    set (ps := p0 :: ps') in *.
    destruct (read_all "weight" ps) as [wl|] eqn:Rw; [|discriminate].
    destruct (read_all "criteria" ps) as [cl|] eqn:Rc; [|discriminate].
    injection H as H. apply app_eq_nil in H as [H1 H]. apply app_eq_nil in H as [H2 H3].
    assert (Hsh : Forall priority_shape ps).
    { eapply concat_mapi_nil; [|exact H1]. intros j x. apply single_priority_ok. }
    apply read_all_some in Rw, Rc. subst wl cl.
    destruct (shape_field_strs _ "criteria" ps Hcrit Hsh) as (cs & Ecs & Hne).
    destruct (shape_field_weights ps Hsh) as (ws & Ews).
    rewrite Ews, valid_weights_map in H2. rewrite Ecs, (filter_truthy_strs cs Hne) in H3.
    assert (Hws : ws <> []).
    { intros ->. unfold ps in Ews. discriminate. }
    exists ps, cs, ws. repeat split; try assumption; [discriminate | | ].
    + apply dups_strs_nodup. destruct (findDuplicates (map JStr cs)); [reflexivity | discriminate].
    + apply (weight_sum_ok ws Hws). exact H2.
  - intros (ps & cs & ws & -> & Hne & Hsh & Ecs & Hnd & Ews & Hsum).
    unfold validatePriorities. cbn [opt_truthy truthy negb].
    destruct ps as [|p0 ps']; [congruence|].
    rewrite (read_all_objs "weight" _ (obj_not_null _ _ priority_shape_obj Hsh)).
    rewrite (read_all_objs "criteria" _ (obj_not_null _ _ priority_shape_obj Hsh)).
    destruct (shape_field_strs _ "criteria" _ Hcrit Hsh) as (cs' & Ecs' & Hne').
    rewrite Ecs in Ecs'. apply map_strs_inj in Ecs'. subst cs'.
    rewrite Ews, valid_weights_map, Ecs, (filter_truthy_strs cs Hne').
    assert (Hws : ws <> []) by (intros ->; discriminate Ews).
    rewrite (proj2 (weight_sum_ok ws Hws) Hsum).
    apply dups_strs_nodup in Hnd. rewrite Hnd.
    rewrite (proj2 (concat_mapi_nil _ priority_shape 0 _ (fun j x => single_priority_ok x j)) Hsh).
    reflexivity.
Qed.

(** [validateSettings] reports no error exactly when the settings are
    absent or falsy, or an object whose [algorithm] (if present) is one of
    [weighted_sum, topsis, ahp], whose [include_explanations] (if present)
    is a boolean and whose [max_results] (if present) is a positive
    integer. *)
Theorem validateSettings_ok_iff (v : option jsval) :
  validateSettings v = [] <-> settings_shape v.
Proof.
  unfold validateSettings, settings_shape. split.
  - intros H. destruct (opt_truthy v) eqn:T; [right|left; reflexivity]. cbn in H.
    destruct v as [[[q|]|b|s| |l|fs]|]; try discriminate.
    exists fs. split; [reflexivity|].
    apply app_eq_nil in H as [H1 H]. apply app_eq_nil in H as [H2 H3].
    split; [|split].
    + destruct (assoc_get fs "algorithm") as [a|]; [right|left; reflexivity].
      destruct a; cbn in H1; try discriminate.
      exists s. split; [reflexivity|].
      destruct (existsb (String.eqb s) validAlgorithms) eqn:E; [|cbn in E; rewrite E in H1; discriminate].
      apply (proj1 (includes_str_in validAlgorithms s)). exact E.
    + destruct (assoc_get fs "include_explanations") as [x|]; [right|left; reflexivity].
      destruct x; cbn in H2; try discriminate. eexists; reflexivity.
    + destruct (assoc_get fs "max_results") as [x|]; [right|left; reflexivity].
      destruct x as [[q|]|b|s| | |]; cbn in H3; try discriminate.
      destruct (Qeq_bool (inject_Z (Qfloor q)) q) eqn:Ei; [|discriminate].
      destruct (Qle_bool 1 q) eqn:El; [|discriminate].
      apply Qeq_bool_iff in Ei. apply Qle_bool_iff in El.
      exists q, (Qfloor q). split; [reflexivity|]. split; [symmetry; exact Ei|].
      rewrite Zle_Qle. rewrite Ei. exact El.
  - intros [H | (fs & -> & Ha & Hi & Hm)]; [rewrite H; reflexivity|].
    cbn [opt_truthy truthy negb]. cbv beta iota zeta.
    destruct Ha as [Ha | (a & Ha & Hin)]; rewrite Ha;
      [| apply includes_str_in in Hin; rewrite Hin]; cbn [negb app].
    all: destruct Hi as [Hi | (b & Hi)]; rewrite Hi; cbn -[assoc_get is_integer Num.lt].
    all: destruct Hm as [Hm | (q & n & Hm & Hq & Hn)]; rewrite Hm; [reflexivity|].
    all: unfold is_integer, Num.lt.
    all: assert (Hf : Qfloor q = n) by (rewrite Hq; apply Qfloor_Z).
    all: assert (Hb : Qeq_bool (inject_Z n) q = true)
           by (apply Qeq_bool_iff; symmetry; exact Hq).
    all: assert (Hl : Qle_bool 1 q = true)
           by (apply Qle_bool_iff; rewrite Hq; rewrite Zle_Qle in Hn; exact Hn).
    all: rewrite Hf, Hb, Hl; reflexivity.
Qed.

Lemma validateOptions_none (v : option jsval) :
  validateOptions v = None <-> exists os, v = Some (JArr os) /\ In JNull os.
Proof.
  unfold validateOptions. split.
  - intros H. destruct v as [[[q|]|b|s| |os|fs]|]; cbn in H;
      try (destruct (Qeq_bool q 0)); try destruct b; try (destruct (String.eqb s ""));
      try discriminate.
    exists os. split; [reflexivity|]. destruct os as [|o0 os']; [discriminate|].
    destruct (read_all "id" (o0 :: os')) eqn:R; [discriminate|].
    apply read_all_none in R. exact R.
  - intros (os & -> & Hin). cbn [opt_truthy truthy negb].
    destruct os as [|o0 os']; [contradiction|].
    apply (read_all_none "id") in Hin. rewrite Hin. reflexivity.
Qed.

Lemma validatePriorities_none (v : option jsval) :
  validatePriorities v = None <-> exists ps, v = Some (JArr ps) /\ In JNull ps.
Proof.
  unfold validatePriorities. split.
  - intros H. destruct v as [[[q|]|b|s| |ps|fs]|]; cbn in H;
      try (destruct (Qeq_bool q 0)); try destruct b; try (destruct (String.eqb s ""));
      try discriminate.
    exists ps. split; [reflexivity|]. destruct ps as [|p0 ps']; [discriminate|].
    destruct (read_all "weight" (p0 :: ps')) eqn:R; [|apply read_all_none in R; exact R].
    destruct (read_all "criteria" (p0 :: ps')) eqn:R'; [discriminate|].
    apply read_all_none in R'. exact R'.
  - intros (ps & -> & Hin). cbn [opt_truthy truthy negb].
    destruct ps as [|p0 ps']; [contradiction|].
    apply (read_all_none "weight") in Hin. rewrite Hin. reflexivity.
Qed.

(** [validateRequest] throws a [TypeError] (it reads [opt.id] or
    [p.weight] of a [null] element) exactly when the options or the
    priorities are an array with a [null] element; otherwise it returns
    its list of errors. *)
Theorem validateRequest_throws (o c p s : option jsval) :
  validateRequest o c p s = None
  <-> (exists os, o = Some (JArr os) /\ In JNull os)
      \/ (exists ps, p = Some (JArr ps) /\ In JNull ps).
Proof.
  unfold validateRequest. rewrite <- validateOptions_none, <- validatePriorities_none.
  destruct (validateOptions o); [|split; [intros _; left; reflexivity | reflexivity]].
  destruct (validatePriorities p).
  - split; [discriminate|]. intros [H|H]; discriminate.
  - split; [intros _; right; reflexivity | reflexivity].
Qed.

Lemma flat_map_nil_iff {A B : Type} (f : A -> list B) (l : list A) :
  flat_map f l = [] <-> Forall (fun x => f x = []) l.
Proof.
  induction l as [|x r IH]; cbn [flat_map]; [split; intros; [constructor | reflexivity]|].
  split.
  - intros H. apply app_eq_nil in H as [H1 H2]. constructor; [exact H1 | apply IH; exact H2].
  - intros H. inversion H as [|? ? H1 H2]; subst. rewrite H1. apply IH. exact H2.
Qed.

Lemma criteria_existence_ok (os ps : list jsval) :
  Forall option_shape os -> Forall priority_shape ps ->
  (validateCriteriaExistence os ps = []
   <-> Forall (fun pr => exists crit, get_prop pr "criteria" = Some (JStr crit)
                 /\ Exists (fun op => exists ffs, get_prop op "features" = Some (JObj ffs)
                              /\ In crit (collectFeatureKeys (JObj ffs) "")) os) ps).
Proof.
  intros Hos Hps. unfold validateCriteriaExistence. rewrite flat_map_nil_iff.
  set (keys := flat_map _ os).
  assert (Hkeys : forall crit, In crit keys <->
            Exists (fun op => exists ffs, get_prop op "features" = Some (JObj ffs)
                      /\ In crit (collectFeatureKeys (JObj ffs) "")) os).
  { intros crit. unfold keys. rewrite in_flat_map, Exists_exists. split.
    - intros (op & Hin & Hc). exists op. split; [exact Hin|].
      destruct (proj1 (Forall_forall _ _) Hos op Hin) as (fs & i & n & ffs & -> & _ & _ & _ & _ & Ef & _).
      exists ffs. cbn in Hc |- *. rewrite Ef in Hc |- *. split; [reflexivity | exact Hc].
    - intros (op & Hin & ffs & Ef & Hc). exists op. split; [exact Hin|].
      rewrite Ef. exact Hc. }
  split; intros H; apply Forall_forall; intros pr Hpr;
    destruct (proj1 (Forall_forall _ _) Hps pr Hpr) as (fs & crit & w & o & -> & Ec & Hc & _);
    cbn [get_prop] in *.
  - apply (proj1 (Forall_forall _ _) H) in Hpr. cbn [get_prop] in Hpr. rewrite Ec in Hpr.
    exists crit. split; [exact Ec|]. apply Hkeys.
    apply String.eqb_neq in Hc. cbn [opt_truthy truthy] in Hpr. rewrite Hc in Hpr.
    cbn [negb andb] in Hpr.
    destruct (includes_str keys (Some (JStr crit))) eqn:E; [|discriminate].
    apply includes_str_in. exact E.
  - apply (proj1 (Forall_forall _ _) H) in Hpr as (crit' & Ec' & Hex).
    cbn [get_prop] in Ec'. rewrite Ec in Ec' |- *. injection Ec' as <-.
    apply Hkeys, (includes_str_in keys) in Hex. rewrite Hex.
    destruct (opt_truthy (Some (JStr crit))); reflexivity.
Qed.

(** [validateRequest] reports no error exactly when the four validators
    report none and, for every priority, its criteria is among the keys
    that [collectFeatureKeys] gathers from the features of some option. *)
Theorem validateRequest_ok_iff (o c p s : option jsval) :
  validateRequest o c p s = Some []
  <-> validateOptions o = Some [] /\ validateConstraints c = []
      /\ validatePriorities p = Some [] /\ validateSettings s = []
      /\ (forall os ps, o = Some (JArr os) -> p = Some (JArr ps) ->
          Forall (fun pr => exists crit, get_prop pr "criteria" = Some (JStr crit)
                    /\ Exists (fun op => exists ffs, get_prop op "features" = Some (JObj ffs)
                                 /\ In crit (collectFeatureKeys (JObj ffs) "")) os) ps).
Proof.
  unfold validateRequest. split.
  - intros H. destruct (validateOptions o) as [oe|] eqn:Eo; [|discriminate].
    destruct (validatePriorities p) as [pe|] eqn:Ep; [|discriminate].
    injection H as H. apply app_eq_nil in H as [H1 H]. apply app_eq_nil in H as [H2 H].
    apply app_eq_nil in H as [H3 H]. apply app_eq_nil in H as [H4 H5]. subst oe pe.
    destruct (proj1 (validateOptions_ok_iff o) Eo) as (os & ids & -> & _ & Hos & _).
    destruct (proj1 (validatePriorities_ok_iff p) Ep) as (ps & cs & ws & -> & _ & Hps & _).
    repeat split; try assumption.
    intros os' ps' E1 E2. injection E1 as <-. injection E2 as <-.
    apply (criteria_existence_ok os ps Hos Hps). exact H5.
  - intros (Eo & Hc & Ep & Hs & Hx).
    destruct (proj1 (validateOptions_ok_iff o) Eo) as (os & ids & Eo' & _ & Hos & _).
    destruct (proj1 (validatePriorities_ok_iff p) Ep) as (ps & cs & ws & Ep' & _ & Hps & _).
    rewrite Eo, Ep, Hc, Hs, Eo', Ep'. cbn [app].
    rewrite (proj2 (criteria_existence_ok os ps Hos Hps) (Hx os ps Eo' Ep')). reflexivity.
Qed.

(** The status code of the API handler: 405 for any method but POST; 400
    for a missing, falsy or key-less body; otherwise 500 exactly when the
    validators throw (a [null] element among the options or the
    priorities) or the input is valid but [settings] is [null]; 200
    exactly when the input is valid and [settings] is not [null]; 400
    exactly when validation reports errors. The last three equivalences
    are stated for bodies with no object holding an own [toString] key
    (whose conversion would throw) and of at most 1000 JSON nodes (far
    below the engine's stack and argument limits). *)
Theorem handler_status_spec (method : string) (body : option jsval) :
  (method <> "POST" -> handler_status method body = 405%nat)
  /\ handler_status "POST" None = 400%nat
  /\ (forall b, truthy b = false \/ keys_length b = 0%nat -> handler_status "POST" (Some b) = 400%nat)
  /\ (forall b, truthy b = true -> keys_length b <> 0%nat ->
      no_toString b = true -> (js_size b <= 1000)%nat ->
      let options := get_prop b "options" in
      let priorities := get_prop b "priorities" in
      let settings := match get_prop b "settings" with None => Some (JObj []) | s => s end in
      let validation := validateRequest options (get_prop b "constraints") priorities settings in
      (handler_status "POST" (Some b) = 500%nat
       <-> (exists os, options = Some (JArr os) /\ In JNull os)
           \/ (exists ps, priorities = Some (JArr ps) /\ In JNull ps)
           \/ (validation = Some [] /\ get_prop b "settings" = Some JNull))
      /\ (handler_status "POST" (Some b) = 200%nat
          <-> validation = Some [] /\ get_prop b "settings" <> Some JNull)
      /\ (handler_status "POST" (Some b) = 400%nat
          <-> exists e es, validation = Some (e :: es))).
Proof.
  split; [|split; [reflexivity|split]].
  - intros H. unfold handler_status. apply String.eqb_neq in H. rewrite H. reflexivity.
  - intros b [H|H]; unfold handler_status; cbn [String.eqb negb Ascii.eqb Bool.eqb andb];
      rewrite H; [reflexivity|]. rewrite orb_true_r. reflexivity.
  - intros b Hb Hk _ _. cbv zeta. unfold handler_status.
    cbn [String.eqb negb Ascii.eqb Bool.eqb andb]. rewrite Hb.
    destruct (keys_length b =? 0)%nat eqn:K; [apply Nat.eqb_eq in K; contradiction|].
    cbn [negb orb].
    set (S := match get_prop b "settings" with None => Some (JObj []) | s => s end).
    pose proof (validateRequest_throws (get_prop b "options") (get_prop b "constraints")
                  (get_prop b "priorities") S) as HT.
    destruct (validateRequest (get_prop b "options") (get_prop b "constraints")
                (get_prop b "priorities") S) as [[|e es]|] eqn:V.
    + assert (Hn : ~ ((exists os, get_prop b "options" = Some (JArr os) /\ In JNull os)
                     \/ (exists ps, get_prop b "priorities" = Some (JArr ps) /\ In JNull ps)))
        by (intros Hx; apply HT in Hx; discriminate).
      assert (HS : S = Some JNull <-> get_prop b "settings" = Some JNull)
        by (unfold S; destruct (get_prop b "settings"); split; congruence).
      destruct (S) as [[]|] eqn:ES;
        (split; [|split]);
        (split; [intros Hx | intros Hx]); try discriminate; try reflexivity;
        try (destruct Hx as [Hx|[Hx|Hx]]; [exfalso; apply Hn; left; exact Hx
                                           | exfalso; apply Hn; right; exact Hx |]);
        try (destruct Hx as (e & es & Hx); discriminate);
        try (right; right; split; [reflexivity | apply HS; reflexivity]);
        try (split; [reflexivity | intros Hs; apply HS in Hs; discriminate]);
        try (destruct Hx as [_ Hx]; apply HS in Hx; discriminate);
        try (destruct Hx as [_ Hx]; exfalso; apply Hx; apply HS; reflexivity).
    + split; [|split].
      * split; [discriminate|]. intros [Hx|[Hx|[Hx _]]];
          [ pose proof (proj2 HT (or_introl Hx)) as Hc
          | pose proof (proj2 HT (or_intror Hx)) as Hc
          | ]; discriminate.
      * split; [discriminate|]. intros [Hx _]. discriminate.
      * split; [intros _; exists e, es; reflexivity | reflexivity].
    + split; [|split].
      * split; [|reflexivity]. intros _.
        destruct (proj1 HT eq_refl) as [Hx|Hx]; [left | right; left]; exact Hx.
      * split; [discriminate|]. intros [Hx _]. discriminate.
      * split; [discriminate|]. intros (e & es & Hx). discriminate.
Qed.

(* ------------------------------------------------------------------ *)
(** ** Feature keys of validation and paths of scoring *)

Lemma jsval_obj_ind (P : jsval -> Prop) :
  (forall fs, Forall (fun kv => P (snd kv)) fs -> P (JObj fs)) ->
  (forall v, (forall fs, v <> JObj fs) -> P v) -> forall v, P v.
Proof.
  intros Hobj Hoth. fix F 1. intros v.
  destruct v as [n|b|s| |l|fs]; try (apply Hoth; intros ? ?; discriminate).
  apply Hobj. revert fs. fix G 1. intros [|[k x] r]; constructor; [exact (F x) | exact (G r)].
Qed.

Lemma concat_split_dot (s : string) : Str.concat_with "." (split_dot s) = s.
Proof.
  induction s as [|c s IH]; [reflexivity|]. cbn [split_dot].
  pose proof (split_dot_nonempty s) as Hne.
  destruct (Ascii.eqb c ".") eqn:Ec.
  - apply Ascii.eqb_eq in Ec. subst c. destruct (split_dot s) as [|p ps]; [contradiction|].
    cbn [Str.concat_with]. rewrite <- IH. reflexivity.
  - destruct (split_dot s) as [|p ps]; [contradiction|]. rewrite <- IH.
    destruct ps; reflexivity.
Qed.

Lemma split_dot_no_dot (s : string) : Forall (fun t => has_dot t = false) (split_dot s).
Proof.
  induction s as [|c s IH]; [repeat constructor|]. cbn [split_dot].
  destruct (Ascii.eqb c ".") eqn:Ec; [constructor; [reflexivity|exact IH]|].
  destruct (split_dot s) as [|p ps]; [constructor; [cbn; rewrite Ec; reflexivity|constructor]|].
  inversion IH; subst. constructor; [|assumption]. cbn. rewrite Ec. assumption.
Qed.

Lemma split_dot_app (a b : string) :
  has_dot a = false -> split_dot (a ++ "." ++ b) = a :: split_dot b.
Proof.
  induction a as [|c a IH]; [reflexivity|]. cbn [has_dot]. intros H.
  apply orb_false_iff in H as [Hc Ha]. cbn [append split_dot]. rewrite Hc.
  change (a ++ String "." b)%string with (a ++ "." ++ b)%string. rewrite (IH Ha). reflexivity.
Qed.

Lemma split_dot_single (a : string) : has_dot a = false -> split_dot a = [a].
Proof.
  induction a as [|c a IH]; [reflexivity|]. cbn [has_dot]. intros H.
  apply orb_false_iff in H as [Hc Ha]. cbn [split_dot]. rewrite Hc, (IH Ha). reflexivity.
Qed.

Lemma split_concat_dot (segs : list string) :
  Forall (fun t => has_dot t = false) segs -> segs <> [] ->
  split_dot (Str.concat_with "." segs) = segs.
Proof.
  induction segs as [|a r IH]; [contradiction|]. intros Hf _. inversion Hf; subst.
  destruct r as [|b r]; [apply split_dot_single; assumption|].
  change (Str.concat_with "." (a :: b :: r)) with (a ++ "." ++ Str.concat_with "." (b :: r))%string.
  rewrite split_dot_app by assumption. f_equal. apply IH; [assumption | discriminate].
Qed.

Lemma concat_dot_empty (segs : list string) :
  segs <> [] -> Str.concat_with "." segs = "" -> segs = [""].
Proof.
  destruct segs as [|a [|b r]]; [contradiction| |].
  - cbn. intros _ ->. reflexivity.
  - intros _. change (Str.concat_with "." (a :: b :: r)) with (a ++ "." ++ Str.concat_with "." (b :: r))%string.
    destruct a; discriminate.
Qed.

Lemma full_key_empty (s : string) : full_key "" s = s.
Proof. reflexivity. Qed.

Lemma full_key_nested (p key : string) (rest : list string) :
  String.eqb key "" = false -> rest <> [] ->
  full_key (full_key p key) (Str.concat_with "." rest) = full_key p (Str.concat_with "." (key :: rest)).
Proof.
  intros Hk Hr. destruct rest as [|s rest]; [contradiction|].
  change (Str.concat_with "." (key :: s :: rest)) with (key ++ "." ++ Str.concat_with "." (s :: rest))%string.
  unfold full_key. destruct (String.eqb p "") eqn:Hp; [rewrite Hk; reflexivity|].
  replace (String.eqb (p ++ "." ++ key) "") with false by (destruct p; [discriminate|reflexivity]).
  rewrite !str_app_assoc. reflexivity.
Qed.

Lemma collect_obj_nil (p : string) : collectFeatureKeys (JObj []) p = [].
Proof. reflexivity. Qed.

Lemma collect_obj_cons (p k : string) (x : jsval) (r : list (string * jsval)) :
  collectFeatureKeys (JObj ((k, x) :: r)) p
  = (full_key p k :: (match x with
                      | JObj _ => collectFeatureKeys x (full_key p k)
                      | _ => []
                      end) ++ collectFeatureKeys (JObj r) p)%list.
Proof. reflexivity. Qed.

Lemma plain_keys_cons (k : string) (x : jsval) (r : list (string * jsval)) :
  plain_keys (JObj ((k, x) :: r))
  = negb (String.eqb k "") && negb (has_dot k)
    && negb (existsb (fun kv => String.eqb k (fst kv)) r)
    && plain_keys x && plain_keys (JObj r).
Proof. reflexivity. Qed.

Lemma walk_obj_cons (fs : list (string * jsval)) (s : string) (rest : list string) :
  walk (Some (JObj fs)) (s :: rest) = walk (assoc_get fs s) rest.
Proof. reflexivity. Qed.

Lemma walk_nil (v : option jsval) : walk v [] = v.
Proof. reflexivity. Qed.

Lemma walk_scalar (x : jsval) (rest : list string) :
  plain_keys x = true -> (forall fs, x <> JObj fs) -> rest <> [] -> walk (Some x) rest = None.
Proof.
  intros Hp Hx Hr. destruct rest as [|s rest]; [contradiction|].
  destruct x as [n|b|t| |l|fs]; try discriminate; try (exfalso; exact (Hx fs eq_refl));
    unfold walk; cbn [fold_left]; fold (walk None rest); try apply walk_None;
    destruct (truthy _); apply walk_None.
Qed.

Lemma assoc_get_some_in (fs : list (string * jsval)) (s : string) (x : jsval) :
  assoc_get fs s = Some x -> exists k, String.eqb s k = true /\ In (k, x) fs.
Proof.
  induction fs as [|[k y] r IH]; [discriminate|]. cbn. destruct (String.eqb s k) eqn:E.
  - intros H. injection H as <-. exists k. auto.
  - intros H. destruct (IH H) as (k' & ? & ?). exists k'. auto.
Qed.

Lemma collect_walk (v : jsval) : forall (fs : list (string * jsval)) (p k : string),
  v = JObj fs -> plain_keys v = true ->
  (In k (collectFeatureKeys v p)
   <-> exists segs x, segs <> [] /\ Forall (fun t => has_dot t = false) segs
                      /\ k = full_key p (Str.concat_with "." segs) /\ walk (Some v) segs = Some x).
Proof.
  induction v as [fs0 IHf | v Hv] using jsval_obj_ind;
    [| intros fs p k E; exfalso; exact (Hv fs E)].
  intros fs p k E Hp. injection E as <-. subst. rename fs0 into fs.
  induction fs as [|[key x] r IHr].
  - rewrite collect_obj_nil. split; [intros []|].
    intros (segs & y & Hne & _ & _ & Hw). destruct segs as [|s rest]; [contradiction|].
    rewrite walk_obj_cons in Hw. cbn in Hw. rewrite walk_None in Hw. discriminate.
  - inversion IHf as [|? ? IHx IHfr]; subst. cbn [snd] in IHx.
    rewrite plain_keys_cons in Hp. apply andb_prop in Hp as [Hp Hr].
    apply andb_prop in Hp as [Hp Hx]. apply andb_prop in Hp as [Hp Hnotin].
    apply andb_prop in Hp as [Hke Hkd]. apply negb_true_iff in Hke, Hkd, Hnotin.
    specialize (IHr IHfr Hr).
    rewrite collect_obj_cons. split.
    + intros Hin. destruct Hin as [Hin | Hin].
      * exists [key], x. split; [discriminate|]. split; [constructor; [assumption|constructor]|].
        split; [symmetry; exact Hin|]. rewrite walk_obj_cons. cbn. rewrite String.eqb_refl. reflexivity.
      * apply in_app_or in Hin as [Hin | Hin].
        -- destruct x as [| | | | |fs']; try contradiction.
           destruct (proj1 (IHx fs' (full_key p key) k eq_refl Hx) Hin)
             as (segs & y & Hne & Hd & Hk & Hw).
           exists (key :: segs), y. split; [discriminate|]. split; [constructor; assumption|].
           split; [rewrite Hk; apply full_key_nested; assumption|].
           rewrite walk_obj_cons. cbn. rewrite String.eqb_refl. exact Hw.
        -- destruct (proj1 IHr Hin) as (segs & y & Hne & Hd & Hk & Hw).
           exists segs, y. repeat (split; [assumption|]).
           destruct segs as [|s rest]; [contradiction|].
           rewrite walk_obj_cons in Hw |- *. cbn.
           destruct (String.eqb s key) eqn:Es; [|exact Hw].
           apply String.eqb_eq in Es. subst s.
           destruct (assoc_get r key) as [z|] eqn:Ez; [|rewrite walk_None in Hw; discriminate].
           apply assoc_get_some_in in Ez as (k' & Ek & Hin').
           apply String.eqb_eq in Ek. subst k'.
           exfalso. rewrite (proj2 (existsb_exists _ _) (ex_intro _ (key, z) (conj Hin' (String.eqb_refl key)))) in Hnotin.
           discriminate.
    + intros (segs & y & Hne & Hd & Hk & Hw). destruct segs as [|s rest]; [contradiction|].
      inversion Hd as [|? ? Hsd Hrd]; subst.
      rewrite walk_obj_cons in Hw. cbn in Hw. destruct (String.eqb s key) eqn:Es.
      * apply String.eqb_eq in Es. subst s. destruct rest as [|s' rest'].
        -- left. reflexivity.
        -- right. apply in_or_app. left.
           destruct x as [n|b|t| |l|fs'];
             try (rewrite walk_scalar in Hw; [discriminate|assumption|intros ? ?; discriminate|discriminate]).
           apply (proj2 (IHx fs' (full_key p key) _ eq_refl Hx)).
           exists (s' :: rest'), y. split; [discriminate|]. split; [assumption|].
           split; [|exact Hw]. symmetry. apply full_key_nested; [assumption|discriminate].
      * right. apply in_or_app. right. apply (proj2 IHr).
        exists (s :: rest), y. split; [discriminate|]. split; [constructor; assumption|].
        split; [reflexivity|]. rewrite walk_obj_cons. exact Hw.
Qed.

Lemma plain_no_empty_key (fs : list (string * jsval)) :
  plain_keys (JObj fs) = true -> assoc_get fs "" = None.
Proof.
  induction fs as [|[k x] r IH]; [reflexivity|]. rewrite plain_keys_cons.
  intros H. apply andb_prop in H as [H Hr]. apply andb_prop in H as [H _].
  apply andb_prop in H as [H _]. apply andb_prop in H as [Hk _].
  cbn [assoc_get]. destruct (String.eqb "" k) eqn:E.
  - apply String.eqb_eq in E. subst k. discriminate.
  - exact (IH Hr).
Qed.

(** Validation's cross-check and the scoring lookup agree: for feature
    data without arrays whose keys are non-empty, dot-free and distinct at
    every depth, a path is among the keys [collectFeatureKeys] gathers
    exactly when [getNestedValue] finds a value at it. The path is a
    [plain_path]: a segment such as [constructor] or [toString] would be
    read from [Object.prototype] in JavaScript, though it is no own key. *)
Theorem collectFeatureKeys_getNestedValue (ffs : list (string * jsval)) (k : string) :
  plain_keys (JObj ffs) = true -> plain_path k = true ->
  (In k (collectFeatureKeys (JObj ffs) "") <-> exists v, getNestedValue (Some (JObj ffs)) k = Some v).
Proof.
  intros Hp _. rewrite (collect_walk (JObj ffs) ffs "" k eq_refl Hp). split.
  - intros (segs & y & Hne & Hd & Hk & Hw). exists y. rewrite full_key_empty in Hk.
    assert (Hke : String.eqb k "" = false).
    { destruct (String.eqb k "") eqn:E; [|reflexivity]. apply String.eqb_eq in E.
      subst k. apply (concat_dot_empty _ Hne) in E. subst segs.
      rewrite walk_obj_cons, plain_no_empty_key in Hw by exact Hp. discriminate. }
    rewrite getNestedValue_obj by exact Hke. subst k. rewrite split_concat_dot by assumption. exact Hw.
  - intros (v & Hv). pose proof (getNestedValue_path _ _ _ Hv) as Hke.
    rewrite getNestedValue_obj in Hv by exact Hke.
    exists (split_dot k), v. split; [apply split_dot_nonempty|]. split; [apply split_dot_no_dot|].
    split; [rewrite full_key_empty; symmetry; apply concat_split_dot | exact Hv].
Qed.

(* ------------------------------------------------------------------ *)
(** ** Median *)

Lemma gt_sub_zero (e x : Q) :
  Num.gt (Num.sub (Fin e) (Fin x)) (Fin 0) = negb (Qle_bool e x).
Proof.
  unfold Num.gt, Num.lt, Num.sub, Num.lift2. f_equal. apply eq_true_iff_eq.
  rewrite !Qle_bool_iff, Qred_correct. split; intros H; lra.
Qed.

Lemma forall_perm {A : Type} (P : A -> Prop) (l l' : list A) :
  Permutation l l' -> Forall P l' -> Forall P l.
Proof.
  intros Hp Hf. apply Forall_forall. intros x Hx.
  exact (proj1 (Forall_forall _ _) Hf x (Permutation_in _ Hp Hx)).
Qed.

Lemma sort_insert_sorted_num (x : number) (l : list number) :
  Num.is_nan x = false -> Forall (fun a => Num.is_nan a = false) l ->
  StronglySorted (fun a b => Num.le a b = true) l ->
  StronglySorted (fun a b => Num.le a b = true) (sort_insert (fun a b => Num.sub a b) x l).
Proof.
  intros Hx. induction l as [|e r IH]; intros Hn Hs; cbn [sort_insert].
  - repeat constructor.
  - inversion Hn as [|? ? He Hr]; subst. inversion Hs as [|? ? Hsr Hfr]; subst.
    destruct x as [qx|]; [|discriminate]. destruct e as [qe|]; [|discriminate].
    rewrite gt_sub_zero. destruct (Qle_bool qe qx) eqn:E; cbn [negb].
    + constructor; [apply IH; assumption|].
      apply (forall_perm _ _ _ (sort_insert_perm _ _ _)). constructor; [exact E | exact Hfr].
    + assert (Hlt : Qle_bool qx qe = true).
      { apply Qle_bool_iff. apply Qlt_le_weak, Qnot_le_lt. intros H.
        apply Qle_bool_iff in H. congruence. }
      constructor; [constructor; assumption|]. constructor; [exact Hlt|].
      apply Forall_forall. intros y Hy. pose proof (proj1 (Forall_forall _ _) Hfr y Hy) as Hy'.
      destruct y as [qy|]; [|discriminate]. cbn in Hy' |- *.
      apply Qle_bool_iff in Hlt, Hy'. apply Qle_bool_iff. eapply Qle_trans; eassumption.
Qed.

Lemma js_sort_sorted (l : list number) :
  Forall (fun a => Num.is_nan a = false) l ->
  StronglySorted (fun a b => Num.le a b = true) (js_sort (fun a b => Num.sub a b) l).
Proof.
  unfold js_sort. intros Hl. assert (Hacc : Forall (fun a => Num.is_nan a = false) (@nil number)) by constructor.
  assert (Hs : StronglySorted (fun a b => Num.le a b = true) (@nil number)) by constructor.
  revert Hacc Hs. generalize (@nil number) as acc.
  induction l as [|x l IH]; intros acc Hacc Hs; cbn; [exact Hs|].
  inversion Hl; subst. apply IH; [assumption| |].
  - apply (forall_perm _ _ _ (sort_insert_perm _ _ _)). constructor; assumption.
  - apply sort_insert_sorted_num; assumption.
Qed.

Lemma ssorted_split {A : Type} (R : A -> A -> Prop) (a b : list A) (x : A) :
  StronglySorted R (a ++ x :: b) -> Forall (fun y => R y x) a /\ Forall (R x) b.
Proof.
  induction a as [|y a IH]; intros H; inversion H as [|? ? Hs Hf]; subst.
  - split; [constructor | exact Hf].
  - destruct (IH Hs) as [H1 H2]. split; [|exact H2]. constructor; [|exact H1].
    exact (proj1 (Forall_forall _ _) Hf x (in_elt x a b)).
Qed.

Lemma perm_filter_length {A : Type} (f : A -> bool) (l l' : list A) :
  Permutation l l' -> length (filter f l) = length (filter f l').
Proof.
  induction 1 as [|x l l' _ IH|x y l|l l' l'' _ IH1 _ IH2]; cbn.
  - reflexivity.
  - destruct (f x); cbn; rewrite IH; reflexivity.
  - destruct (f x), (f y); reflexivity.
  - congruence.
Qed.

Lemma filter_all {A : Type} (f : A -> bool) (l : list A) :
  Forall (fun y => f y = true) l -> filter f l = l.
Proof. induction 1 as [|x l Hx _ IH]; cbn; [reflexivity|]. rewrite Hx, IH. reflexivity. Qed.

Lemma filter_length_app {A : Type} (f : A -> bool) (a b : list A) :
  length (filter f (a ++ b)) = (length (filter f a) + length (filter f b))%nat.
Proof. rewrite filter_app, length_app. reflexivity. Qed.

Lemma below_fin (a : list number) (qu m : Q) :
  Forall (fun y => Num.le y (Fin qu) = true) a -> qu <= m ->
  Forall (fun y => Num.le y (Fin m) = true) a.
Proof.
  intros Ha Hm. apply Forall_forall. intros y Hy. pose proof (proj1 (Forall_forall _ _) Ha y Hy) as H.
  destruct y as [qy|]; [|discriminate]. cbn in *. apply Qle_bool_iff in H. apply Qle_bool_iff. lra.
Qed.

Lemma above_fin (b : list number) (qw m : Q) :
  Forall (fun y => Num.le (Fin qw) y = true) b -> m <= qw ->
  Forall (fun y => Num.ge y (Fin m) = true) b.
Proof.
  intros Hb Hm. apply Forall_forall. intros y Hy. pose proof (proj1 (Forall_forall _ _) Hb y Hy) as H.
  destruct y as [qy|]; [|discriminate]. unfold Num.ge. cbn in *. apply Qle_bool_iff in H. apply Qle_bool_iff. lra.
Qed.

Lemma middle_splits (s : list number) :
  s <> [] -> Forall (fun a => Num.is_nan a = false) s ->
  StronglySorted (fun a b => Num.le a b = true) s ->
  exists m,
    (if Nat.even (length s)
     then Num.div (Num.add (nth (Nat.div (length s) 2 - 1) s (Fin 0))
                           (nth (Nat.div (length s) 2) s (Fin 0))) (Fin 2)
     else nth (Nat.div (length s) 2) s (Fin 0)) = Fin m
    /\ (length s <= 2 * length (filter (fun x => Num.le x (Fin m)) s))%nat
    /\ (length s <= 2 * length (filter (fun x => Num.ge x (Fin m)) s))%nat.
Proof.
  intros Hne Hn Hs. assert (Hl : length s <> 0%nat) by (destruct s; [contradiction|discriminate]).
  destruct (Nat.even (length s)) eqn:Ev.
  - apply Nat.even_spec in Ev as [k Hk]. rewrite Hk, Nat.mul_comm, Nat.div_mul by lia.
    destruct (nth_split s (Fin 0) (n:=(k - 1)%nat) ltac:(lia)) as (a & t & Hst & Ha).
    set (u := nth (k - 1) s (Fin 0)) in *. clearbody u. subst s.
    rewrite length_app in Hk. cbn [length] in Hk.
    destruct t as [|w b]; [cbn [length] in Hk; lia|].
    replace (nth k (a ++ u :: w :: b) (Fin 0)) with w
      by (rewrite app_nth2 by lia; replace (k - length a)%nat with 1%nat by lia; reflexivity).
    replace (nth (k - 1) (a ++ u :: w :: b) (Fin 0)) with u
      by (rewrite app_nth2 by lia; replace (k - 1 - length a)%nat with 0%nat by lia; reflexivity).
    apply Forall_app in Hn as [_ Hn]. inversion Hn as [|? ? Hu Hn']; subst.
    inversion Hn' as [|? ? Hw _]; subst.
    destruct (ssorted_split _ _ _ _ Hs) as [Hau Hub].
    assert (Hs' : StronglySorted (fun a b => Num.le a b = true) ((a ++ [u]) ++ w :: b))
      by (rewrite <- app_assoc; exact Hs).
    destruct (ssorted_split _ _ _ _ Hs') as [_ Hwb].
    inversion Hub as [|? ? Huw _]; subst.
    destruct u as [qu|]; [|discriminate]. destruct w as [qw|]; [|discriminate].
    cbn in Huw. apply Qle_bool_iff in Huw.
    unfold Num.div, Num.add, Num.lift2. replace (Qeq_bool 2 0) with false by reflexivity.
    eexists. split; [reflexivity|].
    set (m := Qred (Qred (qu + qw) / 2)).
    assert (Hm : m == (qu + qw) / 2) by (unfold m; rewrite !Qred_correct; reflexivity).
    assert (H1 : qu <= m) by (rewrite Hm; apply Qle_shift_div_l; lra).
    assert (H2 : m <= qw) by (rewrite Hm; apply Qle_shift_div_r; lra).
    cbn [length] in Hk.
    rewrite !filter_length_app.
    split.
    + rewrite (filter_all _ a) by exact (below_fin a qu m Hau H1).
      cbn [filter]. replace (Num.le (Fin qu) (Fin m)) with true by (symmetry; apply Qle_bool_iff; exact H1).
      cbn [length]. lia.
    + cbn [filter]. replace (Num.ge (Fin qw) (Fin m)) with true by (symmetry; apply Qle_bool_iff; exact H2).
      rewrite (filter_all _ b (above_fin b qw m Hwb H2)).
      destruct (Num.ge (Fin qu) (Fin m)); cbn [length]; lia.
  - assert (Ho : Nat.odd (length s) = true) by (rewrite <- Nat.negb_even, Ev; reflexivity).
    apply Nat.odd_spec in Ho as [k Hk].
    replace (Nat.div (length s) 2) with k
      by (rewrite Hk; apply Nat.div_unique with 1%nat; lia).
    destruct (nth_split s (Fin 0) (n:=k) ltac:(lia)) as (a & b & Hst & Ha).
    set (y := nth k s (Fin 0)) in *. clearbody y. subst s.
    rewrite length_app in Hk. cbn [length] in Hk.
    apply Forall_app in Hn as [_ Hn]. inversion Hn as [|? ? Hy _]; subst.
    destruct (ssorted_split _ _ _ _ Hs) as [Hay Hyb].
    destruct y as [q|]; [|discriminate].
    exists q. split; [reflexivity|].
    rewrite !filter_length_app, length_app. cbn [length filter].
    replace (Num.le (Fin q) (Fin q)) with true by (symmetry; apply Qle_bool_iff, Qle_refl).
    replace (Num.ge (Fin q) (Fin q)) with true by (symmetry; apply Qle_bool_iff, Qle_refl).
    rewrite (filter_all _ a (below_fin a q q Hay (Qle_refl q))).
    rewrite (filter_all _ b (above_fin b q q Hyb (Qle_refl q))).
    cbn [length]. lia.
Qed.

(** [median] on an array whose numbers are all [NaN] (or on an empty one)
    is [0]; otherwise, when the numbers are [bounded] (so that no sum
    overflows and no entry is infinite, as in JavaScript they could), it
    is a number [m] such that at least half of the non-[NaN] entries are
    [<= m] and at least half are [>= m]. *)
Theorem median_halves (numbers : list number) :
  (filter (fun n => negb (Num.is_nan n)) numbers = [] -> median numbers = Fin 0)
  /\ (Forall (fun n => match n with Fin q => bounded q = true | NaN => True end) numbers ->
      filter (fun n => negb (Num.is_nan n)) numbers <> [] ->
      exists m, median numbers = Fin m
        /\ (length (filter (fun n => negb (Num.is_nan n)) numbers)
            <= 2 * length (filter (fun x => Num.le x (Fin m))
                                  (filter (fun n => negb (Num.is_nan n)) numbers)))%nat
        /\ (length (filter (fun n => negb (Num.is_nan n)) numbers)
            <= 2 * length (filter (fun x => Num.ge x (Fin m))
                                  (filter (fun n => negb (Num.is_nan n)) numbers)))%nat).
Proof.
  destruct numbers as [|n0 ns].
  - split; [reflexivity | intros _ H; contradiction H; reflexivity].
  - assert (Hnn : Forall (fun a => Num.is_nan a = false)
                         (filter (fun n => negb (Num.is_nan n)) (n0 :: ns))).
    { apply Forall_forall. intros x Hx. apply filter_In in Hx as [_ Hx].
      apply negb_true_iff in Hx. exact Hx. }
    pose proof (js_sort_perm (fun a b => Num.sub a b) (filter (fun n => negb (Num.is_nan n)) (n0 :: ns))) as Hp.
    pose proof (js_sort_sorted _ Hnn) as Hsort.
    unfold median. cbv beta iota zeta.
    destruct (js_sort (fun a b => Num.sub a b) (filter (fun n => negb (Num.is_nan n)) (n0 :: ns)))
      as [|s0 ss] eqn:Hs.
    + apply Permutation_nil in Hp. rewrite <- Hp. split; [reflexivity | intros _ H; contradiction H; reflexivity].
    + split.
      * intros He. rewrite He in Hp. apply Permutation_length in Hp. discriminate.
      * intros _ _. destruct (middle_splits (s0 :: ss) ltac:(discriminate) (forall_perm _ _ _ Hp Hnn) Hsort)
          as (m & Hm & H1 & H2).
        exists m. split; [exact Hm|].
        rewrite <- (Permutation_length Hp), <- !(perm_filter_length _ _ _ Hp). split; assumption.
Qed.

(* ------------------------------------------------------------------ *)
(** ** Clamp *)

(** [clamp] is [NaN] as soon as one argument is [NaN]; with [min <= max]
    it returns the value when it lies in the range and the nearer bound
    otherwise; with [min > max] it returns [max] whatever the value. *)
Theorem clamp_cases :
  (forall value lo hi, Num.is_nan value || Num.is_nan lo || Num.is_nan hi = true ->
                       clamp value lo hi = NaN)
  /\ (forall v lo hi, lo <= v -> v <= hi -> clamp (Fin v) (Fin lo) (Fin hi) = Fin v)
  /\ (forall v lo hi, v < lo -> lo <= hi -> clamp (Fin v) (Fin lo) (Fin hi) = Fin lo)
  /\ (forall v lo hi, hi < v -> lo <= hi -> clamp (Fin v) (Fin lo) (Fin hi) = Fin hi)
  /\ (forall v lo hi, hi < lo -> clamp (Fin v) (Fin lo) (Fin hi) = Fin hi).
Proof.
  unfold clamp, Num.min2, Num.max2, Qmin, Qmax, GenericMinMax.gmin, GenericMinMax.gmax.
  split; [intros [qv|] [ql|] [qh|]; cbn; first [reflexivity | discriminate]|].
  split; [|split; [|split]]; intros v lo hi; intros;
    destruct (Qcompare v lo) eqn:E1;
    first [apply Qeq_alt in E1 | apply Qlt_alt in E1 | apply Qgt_alt in E1];
    try lra;
    match goal with |- Fin (match Qcompare ?x hi with _ => _ end) = _ => destruct (Qcompare x hi) eqn:E2 end;
    first [apply Qeq_alt in E2 | apply Qlt_alt in E2 | apply Qgt_alt in E2];
    first [reflexivity | lra].
Qed.

(* ------------------------------------------------------------------ *)
(** ** Sanitizing strings *)

Section TrimLemmas.
Local Open Scope list_scope.

Lemma substring0_list (m : nat) (s : string) :
  list_ascii_of_string (substring 0 m s) = firstn m (list_ascii_of_string s).
Proof.
  revert m. induction s as [|c s IH]; intros [|m]; cbn; try reflexivity. f_equal. apply IH.
Qed.

Lemma length_list_ascii (s : string) : String.length s = length (list_ascii_of_string s).
Proof. induction s as [|c s IH]; cbn; congruence. Qed.

Lemma drop_space_forall (P : ascii -> Prop) (l : list ascii) :
  Forall P l -> Forall P (Parse.drop_space l).
Proof.
  induction l as [|c l IH]; intros H; cbn; [exact H|]. inversion H; subst.
  destruct (Parse.is_space c); [apply IH; assumption | exact H].
Qed.

Lemma trim_forall (P : ascii -> Prop) (l : list ascii) : Forall P l -> Forall P (Parse.trim l).
Proof.
  intros H. unfold Parse.trim. apply Forall_rev, drop_space_forall, Forall_rev, drop_space_forall, H.
Qed.

Lemma drop_space_head (l : list ascii) :
  match Parse.drop_space l with [] => True | c :: _ => Parse.is_space c = false end.
Proof.
  induction l as [|c l IH]; cbn; [exact I|]. destruct (Parse.is_space c) eqn:E; [exact IH | exact E].
Qed.

Lemma drop_space_snoc (l : list ascii) (c : ascii) :
  Parse.is_space c = false -> exists x, Parse.drop_space (l ++ [c]) = x ++ [c].
Proof.
  intros Hc. induction l as [|a l IH]; cbn.
  - rewrite Hc. exists []. reflexivity.
  - destruct (Parse.is_space a); [exact IH | exists (a :: l); reflexivity].
Qed.

Lemma rev_last (l : list ascii) (d : ascii) :
  l <> [] -> exists r, rev l = last l d :: r.
Proof.
  intros Hne. exists (rev (removelast l)).
  transitivity (rev (removelast l ++ [last l d])); [f_equal; exact (@app_removelast_last _ l d Hne)|].
  rewrite rev_app_distr. reflexivity.
Qed.

(** The result of [trim] is empty or starts and ends with a character that
    is not white space. *)
Lemma trim_edges (l : list ascii) :
  match Parse.trim l with
  | [] => True
  | c :: _ => Parse.is_space c = false /\ Parse.is_space (last (Parse.trim l) c) = false
  end.
Proof.
  unfold Parse.trim. pose proof (drop_space_head l) as Hh.
  destruct (Parse.drop_space l) as [|c D] eqn:HD; [exact I|]. cbn [rev].
  destruct (drop_space_snoc (rev D) c Hh) as [x Hx]. rewrite Hx.
  pose proof (drop_space_head (rev D ++ [c])) as Hh'. rewrite Hx in Hh'.
  rewrite rev_app_distr. cbn [rev app]. split; [exact Hh|].
  replace (c :: rev x) with (rev (x ++ [c])) by (rewrite rev_app_distr; reflexivity).
  destruct (x ++ [c]) as [|e y] eqn:Hxe; [destruct x; discriminate|].
  cbn [rev]. rewrite last_last. exact Hh'.
Qed.

Lemma trim_fixed (t : list ascii) :
  match t with
  | [] => True
  | c :: _ => Parse.is_space c = false /\ Parse.is_space (last t c) = false
  end -> Parse.trim t = t.
Proof.
  destruct t as [|c r] eqn:Ht; [reflexivity|]. intros [Hc Hl]. rewrite <- Ht in Hl |- *.
  unfold Parse.trim.
  assert (Hd : Parse.drop_space t = t) by (subst t; cbn; rewrite Hc; reflexivity). rewrite Hd.
  assert (Hne : t <> []) by (subst t; discriminate).
  destruct (rev_last t c Hne) as [r' Hr]. rewrite Hr. cbn [Parse.drop_space]. rewrite Hl.
  rewrite <- Hr. apply rev_involutive.
Qed.

Lemma trim_trim (l : list ascii) : Parse.trim (Parse.trim l) = Parse.trim l.
Proof. apply trim_fixed, trim_edges. Qed.

Lemma sanitize_list (s : string) :
  list_ascii_of_string (sanitizeString (Some (JStr s)))
  = firstn 1000 (Parse.trim (filter (fun c => negb (Ascii.eqb c "<" || Ascii.eqb c ">"))
                                    (list_ascii_of_string s))).
Proof. unfold sanitizeString. rewrite substring0_list, list_ascii_of_string_of_list_ascii. reflexivity. Qed.

End TrimLemmas.

(** [sanitizeString] gives [""] for anything but a string.  On a string
    its result has at most 1000 characters, contains no [<] or [>], and
    does not start with white space; a result shorter than 1000 characters
    is left unchanged when sanitized again. *)
Theorem sanitizeString_spec :
  (forall v, (forall s, v <> Some (JStr s)) -> sanitizeString v = "")
  /\ (forall s,
        (String.length (sanitizeString (Some (JStr s))) <= 1000)%nat
        /\ Forall (fun c => c <> "<"%char /\ c <> ">"%char)
                  (list_ascii_of_string (sanitizeString (Some (JStr s))))
        /\ (forall c r, sanitizeString (Some (JStr s)) = String c r -> Parse.is_space c = false)
        /\ ((String.length (sanitizeString (Some (JStr s))) < 1000)%nat ->
            sanitizeString (Some (JStr (sanitizeString (Some (JStr s))))) = sanitizeString (Some (JStr s)))).
Proof.
  split.
  - intros v Hv. destruct v as [[n|b|s| |l|fs]|]; try reflexivity. exfalso. exact (Hv s eq_refl).
  - intros s.
    set (f := fun c => negb (Ascii.eqb c "<" || Ascii.eqb c ">")).
    assert (Hf : Forall (fun c => f c = true) (Parse.trim (filter f (list_ascii_of_string s)))).
    { apply trim_forall. apply Forall_forall. intros c Hc. apply filter_In in Hc as [_ Hc]. exact Hc. }
    pose proof (sanitize_list s) as Hl. fold f in Hl.
    set (out := sanitizeString (Some (JStr s))) in *.
    split; [rewrite length_list_ascii, Hl, length_firstn; lia|].
    split; [|split].
    + rewrite Hl. apply Forall_forall. intros c Hc. apply in_firstn_sub in Hc.
      pose proof (proj1 (Forall_forall _ _) Hf c Hc) as H. unfold f in H. cbv beta in H.
      apply negb_true_iff, orb_false_iff in H as [H1 H2].
      split; intros E; subst c; [rewrite Ascii.eqb_refl in H1 | rewrite Ascii.eqb_refl in H2]; discriminate.
    + intros c r Hcr. rewrite Hcr in Hl. cbn [list_ascii_of_string] in Hl.
      pose proof (trim_edges (filter f (list_ascii_of_string s))) as He.
      destruct (Parse.trim (filter f (list_ascii_of_string s))) as [|c' T'];
        [discriminate|]. cbn in Hl. injection Hl as -> _. exact (proj1 He).
    + intros Hlt. rewrite length_list_ascii, Hl, length_firstn in Hlt.
      assert (HT : firstn 1000 (Parse.trim (filter f (list_ascii_of_string s)))
                   = Parse.trim (filter f (list_ascii_of_string s))) by (apply firstn_all2; lia).
      rewrite HT in Hl.
      assert (Hinj : forall a b : string, list_ascii_of_string a = list_ascii_of_string b -> a = b).
      { intros a b H. rewrite <- (string_of_list_ascii_of_string a), H. apply string_of_list_ascii_of_string. }
      apply Hinj. rewrite sanitize_list. fold f. rewrite Hl, (filter_all f _ Hf), trim_trim. exact HT.
Qed.

(* ------------------------------------------------------------------ *)
(** ** Witnesses of the properties with hypotheses *)

(** Witness: an option without the criterion fails a [lt] constraint. *)
Lemma evaluateConstraint_missing_or_unknown_witness :
  (getNestedValue (Some (features (mkOption "a" "A" (feat [("x", 1)])))) "y" = None
   \/ getNestedValue (Some (features (mkOption "a" "A" (feat [("x", 1)])))) "y" = Some JNull
   \/ ~ In "lt" ["lt"; "lte"; "gt"; "gte"; "eq"; "neq"; "in"; "contains"])
  /\ evaluateConstraint (mkOption "a" "A" (feat [("x", 1)]))
       (mkConstraint "y" "lt" (JNum (Fin 5)) None) = false.
Proof.
  assert (H : getNestedValue (Some (features (mkOption "a" "A" (feat [("x", 1)])))) "y" = None
   \/ getNestedValue (Some (features (mkOption "a" "A" (feat [("x", 1)])))) "y" = Some JNull
   \/ ~ In "lt" ["lt"; "lte"; "gt"; "gte"; "eq"; "neq"; "in"; "contains"]).
  { left. reflexivity. }
  split; [exact H|].
  exact (evaluateConstraint_missing_or_unknown (mkOption "a" "A" (feat [("x", 1)]))
           (mkConstraint "y" "lt" (JNum (Fin 5)) None) H).
Defined.

(** Witness: the cost statistics of scenario A. *)
Lemma calculateCriteriaStatistics_consistent_witness :
  let vs := map (fun o => mkValidOption o None) scenarioA_options in
  (forall p, In p scenarioA_priorities -> plain_path (criteria p) = true)
  /\ (forall v p x, In v vs -> In p scenarioA_priorities ->
        getNestedValue (Some (features (vo_option v))) (criteria p) = Some x ->
        tame_value x = true)
  /\ assoc_get (calculateCriteriaStatistics vs scenarioA_priorities) "cost"
     = Some (mkStats 100 150 125 150 2)
  /\ exists v vs', criteria_values vs "cost" = v :: vs'
    /\ count (mkStats 100 150 125 150 2) = List.length (v :: vs')
    /\ In 100 (v :: vs') /\ In 150 (v :: vs') /\ In 150 (v :: vs')
    /\ (forall q, In q (v :: vs') -> 100 <= q <= 150)
    /\ 100 <= 150 <= 150.
Proof.
  intros vs.
  assert (Hpl : forall p, In p scenarioA_priorities -> plain_path (criteria p) = true).
  { intros p1 Hp1. vm_compute in Hp1.
    destruct Hp1 as [<-|[<-|[]]]; vm_compute; reflexivity. }
  assert (Ht : forall v p x, In v vs -> In p scenarioA_priorities ->
            getNestedValue (Some (features (vo_option v))) (criteria p) = Some x ->
            tame_value x = true).
  { intros v p1 x Hv Hp1 Hg. unfold vs in Hv. vm_compute in Hv, Hp1.
    destruct Hv as [<-|[<-|[]]]; destruct Hp1 as [<-|[<-|[]]];
      vm_compute in Hg; injection Hg as <-; vm_compute; reflexivity. }
  assert (H : assoc_get (calculateCriteriaStatistics vs scenarioA_priorities) "cost"
              = Some (mkStats 100 150 125 150 2)).
  { vm_compute. reflexivity. }
  split; [exact Hpl|]. split; [exact Ht|]. split; [exact H|].
  exact (calculateCriteriaStatistics_consistent _ _ _ _ Hpl Ht H).
Defined.

(** Witness: a normalized value of one half on a maximized criterion. *)
Lemma calculateCriteriaScore_in_range_witness :
  exists r,
    calculateCriteriaScore
      (mkNormalizedOption (mkValidOption (mkOption "a" "A" (feat [("x", 1)])) None)
                          (feat [("x", 1 # 2)]))
      (mkPriority "x" 1 "maximize") [] = Some r
    /\ to_number (res_normalizedValue r) = Fin (1 # 2) /\ 0 <= 1 # 2 <= 1
    /\ exists s, res_score r = Fin s /\ 0 <= s <= 100.
Proof.
  destruct (calculateCriteriaScore
      (mkNormalizedOption (mkValidOption (mkOption "a" "A" (feat [("x", 1)])) None)
                          (feat [("x", 1 # 2)]))
      (mkPriority "x" 1 "maximize") []) as [r|] eqn:E.
  2: { unfold calculateCriteriaScore in E. cbn -[generateCriteriaReason] in E.
       discriminate. }
  assert (Hq : to_number (res_normalizedValue r) = Fin (1 # 2)).
  { unfold calculateCriteriaScore in E. cbn -[generateCriteriaReason] in E.
    injection E as <-. reflexivity. }
  assert (Hb : 0 <= 1 # 2 <= 1) by (split; vm_compute; discriminate).
  exists r. split; [reflexivity|]. split; [exact Hq|]. split; [exact Hb|].
  exact (calculateCriteriaScore_in_range _ _ _ r (1 # 2) E Hq Hb).
Defined.

(** Witness: writing [cost.value] into a nested object leaves [perf] alone. *)
Lemma setNestedValue_roundtrip_witness :
  no_arrays (JObj [("cost", JObj [("value", JNum (Fin 1))]); ("perf", JNum (Fin 7))]) = true
  /\ String.eqb "cost.value" "" = false
  /\ plain_path "cost.value" = true
  /\ getNestedValue (Some (setNestedValue
        (JObj [("cost", JObj [("value", JNum (Fin 1))]); ("perf", JNum (Fin 7))])
        "cost.value" (JNum (Fin 2)))) "cost.value" = Some (JNum (Fin 2))
  /\ (plain_path "perf" = true -> key_prefix (split_dot "cost.value") (split_dot "perf") = false ->
      key_prefix (split_dot "perf") (split_dot "cost.value") = false ->
      getNestedValue (Some (setNestedValue
        (JObj [("cost", JObj [("value", JNum (Fin 1))]); ("perf", JNum (Fin 7))])
        "cost.value" (JNum (Fin 2)))) "perf"
      = getNestedValue (Some (JObj [("cost", JObj [("value", JNum (Fin 1))]);
                                    ("perf", JNum (Fin 7))])) "perf").
Proof.
  assert (Ha : no_arrays (JObj [("cost", JObj [("value", JNum (Fin 1))]);
                                ("perf", JNum (Fin 7))]) = true) by reflexivity.
  assert (Hp : String.eqb "cost.value" "" = false) by reflexivity.
  assert (Hl : plain_path "cost.value" = true) by (vm_compute; reflexivity).
  split; [exact Ha|]. split; [exact Hp|]. split; [exact Hl|].
  exact (setNestedValue_roundtrip _ "cost.value" "perf" (JNum (Fin 2)) Ha Hp Hl).
Defined.

(** Witness: the nested key [cost.value] is collected and can be read. *)
Lemma collectFeatureKeys_getNestedValue_witness :
  plain_keys (JObj [("cost", JObj [("value", JNum (Fin 1))]); ("perf", JNum (Fin 7))]) = true
  /\ plain_path "cost.value" = true
  /\ (In "cost.value" (collectFeatureKeys
         (JObj [("cost", JObj [("value", JNum (Fin 1))]); ("perf", JNum (Fin 7))]) "")
      <-> exists v, getNestedValue (Some (JObj [("cost", JObj [("value", JNum (Fin 1))]);
                                               ("perf", JNum (Fin 7))])) "cost.value" = Some v).
Proof.
  assert (Hp : plain_keys (JObj [("cost", JObj [("value", JNum (Fin 1))]);
                                 ("perf", JNum (Fin 7))]) = true) by reflexivity.
  assert (Hl : plain_path "cost.value" = true) by (vm_compute; reflexivity).
  split; [exact Hp|]. split; [exact Hl|].
  exact (collectFeatureKeys_getNestedValue _ "cost.value" Hp Hl).
Defined.
